(** * The Multimodal Storyteller: session state machine and narrative turns

    A shallow embedding of [src/app.py], a Streamlit script that is run from
    top to bottom on every user interaction, and proofs about it.

    - A Python [str] is a list of Unicode code points; [str.strip],
      [str.replace] and [str.join] are written out.
    - Python values are one type, [pyval]: [None], bool, int, float, str,
      list, dict and image handles. [json.loads] is a scanner over code
      points that follows [json.scanner] and [json.decoder]; a float is kept
      as the decimal it was written as. The interpreter's limits on recursion
      depth and on the number of digits of an int are not modelled.
    - [st.session_state] is a finite map from attribute names to values.
    - One run of the script is a function from the world (the session and
      the three [st.cache_data] caches) to a result, a new world and a log.
      The result is a return or a raised exception, [st.rerun()] and
      [st.stop()] included. The log holds the elements drawn on the page and
      three kinds of ghost entries: the calls of [generate_story_chapter],
      what they returned, and the requests sent to the language model.
    - The language model, the image service, the speech service, the secrets
      file and the environment are parameters of a run, collected in [env].
    - The prompt texts are kept as the values that fill their holes. *)

From Stdlib Require Import ZArith NArith List String Ascii Lia Bool.
From stdpp Require Import gmap strings list fin_maps.

(** * Part I: the model *)

Open Scope N_scope.

(** ** Python strings *)

(** A [str]: its Unicode code points. *)
Definition pystr := list N.

(** A literal of ASCII characters. *)
Definition lit (s : string) : pystr :=
  List.map N_of_ascii (list_ascii_of_string s).

(** The characters [str.strip()] removes: the Unicode whitespace. *)
Definition str_isspace (c : N) : bool :=
  ((9 <=? c) && (c <=? 13)) || ((28 <=? c) && (c <=? 32))
  || (c =? 133) || (c =? 160) || (c =? 5760)
  || ((8192 <=? c) && (c <=? 8202))
  || (c =? 8232) || (c =? 8233) || (c =? 8239) || (c =? 8287) || (c =? 12288).

Fixpoint str_lstrip (s : pystr) : pystr :=
  match s with
  | c :: s' => if str_isspace c then str_lstrip s' else s
  | [] => []
  end.

Definition str_rstrip (s : pystr) : pystr := rev (str_lstrip (rev s)).

(** [s.strip()] *)
Definition str_strip (s : pystr) : pystr := str_rstrip (str_lstrip s).

Fixpoint str_startswith (p s : pystr) : bool :=
  match p, s with
  | [], _ => true
  | a :: p', b :: s' => (a =? b) && str_startswith p' s'
  | _ :: _, [] => false
  end.

(** [s.replace(old, new)] replaces the occurrences of [old] found from left
    to right without overlap. [skip] counts the characters of the occurrence
    just replaced that are still to be passed over. *)
Fixpoint str_replace_from (old new : pystr) (skip : nat) (s : pystr) : pystr :=
  match s with
  | [] => []
  | c :: s' =>
      match skip with
      | S k => str_replace_from old new k s'
      | O => if str_startswith old s
             then new ++ str_replace_from old new (length old - 1) s'
             else c :: str_replace_from old new 0 s'
      end
  end.

(** With an empty [old], [new] goes before every character and at the end. *)
Definition str_replace (old new s : pystr) : pystr :=
  match old with
  | [] => new ++ concat (List.map (fun c => c :: new) s)
  | _ :: _ => str_replace_from old new 0 s
  end.

(** [sep.join(parts)] *)
Definition str_join (sep : pystr) (parts : list pystr) : pystr :=
  match parts with
  | [] => []
  | p :: ps => p ++ concat (List.map (fun q => sep ++ q) ps)
  end.

Arguments str_replace : simpl never.

Definition fence_json : pystr := Eval cbv in lit "```json".
Definition fence : pystr := Eval cbv in lit "```".

(** Line 84 of app.py: strip the text, delete every [```json], delete every
    [```] that is left, strip again. *)
Definition clean_reply (text : pystr) : pystr :=
  str_strip (str_replace fence [] (str_replace fence_json [] (str_strip text))).

(** Appending [t] creates no occurrence of [old] that starts before [t]. *)
Definition no_straddle (old t : pystr) : Prop :=
  forall u, u <> [] -> str_startswith old (u ++ t) = true -> str_startswith old u = true.

Definition all_space (w : pystr) : Prop := Forall (fun c => str_isspace c = true) w.

Definition no_space (p : pystr) : Prop := Forall (fun c => str_isspace c = false) p.

Definition space_headed (t : pystr) : Prop :=
  match t with [] => True | c :: _ => str_isspace c = true end.

Definition strip_fences (s : pystr) : pystr :=
  str_replace fence [] (str_replace fence_json [] s).

(** [raw] in a fence, with whitespace [w1] to [w4] around the two markers. *)
Definition fenced (w1 w2 w3 w4 raw : pystr) : pystr :=
  w1 ++ fence_json ++ w2 ++ raw ++ w3 ++ fence ++ w4.

(** ** Python values *)

(** A float as [json.loads] reads it: [nan], an infinity, or the decimal
    [m] times ten to the [e] with its sign, standing for the nearest double. *)
Inductive pyfloat :=
| FNaN
| FInf (neg : bool)
| FDec (neg : bool) (m : N) (e : Z).

(** The values the script handles. A dict keeps its items in insertion
    order; every dict of the script has str keys. [PImage data] is the image
    opened from the base64 text [data]. *)
Unset Elimination Schemes.
Inductive pyval :=
| PNone
| PBool (b : bool)
| PInt (z : Z)
| PFloat (f : pyfloat)
| PStr (s : pystr)
| PList (l : list pyval)
| PDict (d : list (pystr * pyval))
| PImage (data : pystr).
Set Elimination Schemes.

(** Induction on values, through the items of lists and dicts. *)
Section pyval_ind.
Variable P : pyval -> Prop.
Hypothesis HNone : P PNone.
Hypothesis HBool : forall b, P (PBool b).
Hypothesis HInt : forall z, P (PInt z).
Hypothesis HFloat : forall f, P (PFloat f).
Hypothesis HStr : forall s, P (PStr s).
Hypothesis HList : forall l, Forall P l -> P (PList l).
Hypothesis HDict : forall d, Forall (fun kv => P (snd kv)) d -> P (PDict d).
Hypothesis HImage : forall data, P (PImage data).

Fixpoint pyval_ind (v : pyval) : P v :=
  match v with
  | PNone => HNone
  | PBool b => HBool b
  | PInt z => HInt z
  | PFloat f => HFloat f
  | PStr s => HStr s
  | PList l =>
      HList l ((fix go (l : list pyval) : Forall P l :=
                  match l with
                  | [] => @List.Forall_nil _ P
                  | x :: l' => @List.Forall_cons _ P x l' (pyval_ind x) (go l')
                  end) l)
  | PDict d =>
      HDict d ((fix go (d : list (pystr * pyval)) : Forall (fun kv => P (snd kv)) d :=
                  match d with
                  | [] => @List.Forall_nil _ _
                  | kv :: d' => @List.Forall_cons _ (fun kv => P (snd kv)) kv d' (pyval_ind (snd kv)) (go d')
                  end) d)
  | PImage data => HImage data
  end.
End pyval_ind.

Global Instance pyfloat_eq_dec : EqDecision pyfloat.
Proof. solve_decision. Defined.

Global Instance pyval_eq_dec : EqDecision pyval.
Proof.
  refine (fix go (a b : pyval) {struct a} : Decision (a = b) :=
    match a, b with
    | PNone, PNone => left _
    | PBool x, PBool y => cast_if (decide (x = y))
    | PInt x, PInt y => cast_if (decide (x = y))
    | PFloat x, PFloat y => cast_if (decide (x = y))
    | PStr x, PStr y => cast_if (decide (x = y))
    | PList x, PList y =>
        cast_if ((fix gol (x y : list pyval) {struct x} : Decision (x = y) :=
                    match x, y with
                    | [], [] => left _
                    | u :: x', v :: y' => cast_if_and (go u v) (gol x' y')
                    | _, _ => right _
                    end) x y)
    | PDict x, PDict y =>
        cast_if ((fix god (x y : list (pystr * pyval)) {struct x} : Decision (x = y) :=
                    match x, y with
                    | [], [] => left _
                    | (k, u) :: x', (k', v) :: y' =>
                        cast_if_and3 (decide (k = k')) (go u v) (god x' y')
                    | _, _ => right _
                    end) x y)
    | PImage x, PImage y => cast_if (decide (x = y))
    | _, _ => right _
    end); clear go; try clear gol; try clear god; congruence.
Defined.

Definition pystr_eqb (a b : pystr) : bool := bool_decide (a = b).

(** dict item assignment: an existing key keeps its position. *)
Fixpoint dict_set (k : pystr) (v : pyval) (d : list (pystr * pyval)) :=
  match d with
  | [] => [(k, v)]
  | (k', v') :: d' =>
      if pystr_eqb k k' then (k, v) :: d' else (k', v') :: dict_set k v d'
  end.

Fixpoint dict_get (k : pystr) (d : list (pystr * pyval)) : option pyval :=
  match d with
  | [] => None
  | (k', v') :: d' => if pystr_eqb k k' then Some v' else dict_get k d'
  end.

(** ** json.loads *)

Module Json.

(** What a scanner does at a position: a value and the rest of the text, a
    decoding error, or the fuel ran out. *)
Inductive res (A : Type) :=
| Ok (a : A) (rest : pystr)
| Err
| Fuel.
Arguments Ok {A}.
Arguments Err {A}.
Arguments Fuel {A}.

(** The whitespace of JSON: space, tab, line feed, carriage return. *)
Definition is_ws (c : N) : bool :=
  (c =? 32) || (c =? 9) || (c =? 10) || (c =? 13).

Fixpoint skip_ws (s : pystr) : pystr :=
  match s with
  | c :: s' => if is_ws c then skip_ws s' else s
  | [] => []
  end.

Definition is_digit (c : N) : bool := (48 <=? c) && (c <=? 57).

Definition hexval (c : N) : option N :=
  if (48 <=? c) && (c <=? 57) then Some (c - 48)
  else if (65 <=? c) && (c <=? 70) then Some (c - 55)
  else if (97 <=? c) && (c <=? 102) then Some (c - 87)
  else None.

(** four hexadecimal digits after a backslash-u *)
Definition hex4 (s : pystr) : option (N * pystr) :=
  match s with
  | a :: b :: c :: d :: r =>
      match hexval a, hexval b, hexval c, hexval d with
      | Some a, Some b, Some c, Some d => Some (a * 4096 + b * 256 + c * 16 + d, r)
      | _, _, _, _ => None
      end
  | _ => None
  end.

(** The one-character escapes: quote, backslash, slash, b, f, n, r, t. *)
Definition backslash (c : N) : option N :=
  if c =? 34 then Some 34 else if c =? 92 then Some 92
  else if c =? 47 then Some 47 else if c =? 98 then Some 8
  else if c =? 102 then Some 12 else if c =? 110 then Some 10
  else if c =? 114 then Some 13 else if c =? 116 then Some 9
  else None.

(** [scanstring] with strict=True; [s] starts after the opening quote and
    [acc] holds the characters read so far, last first. A control character
    is an error, a backslash-u escape gives a code point, and a high
    surrogate followed by an escaped low surrogate gives the one character
    they encode. The fuel bounds the number of characters and escapes read. *)
Fixpoint scanstring (fuel : nat) (acc s : pystr) : res pystr :=
  match fuel with
  | O => Fuel
  | S n =>
      match s with
      | [] => Err
      | c :: r =>
          if c =? 34 then Ok (rev acc) r
          else if c <? 32 then Err
          else if c =? 92 then
            match r with
            | [] => Err
            | e :: r' =>
                if e =? 117 then
                  match hex4 r' with
                  | None => Err
                  | Some (u, r2) =>
                      if (55296 <=? u) && (u <=? 56319) then
                        match r2 with
                        | 92 :: 117 :: r3 =>
                            match hex4 r3 with
                            | Some (u2, r4) =>
                                if (56320 <=? u2) && (u2 <=? 57343)
                                then scanstring n
                                       (65536 + ((u - 55296) * 1024 + (u2 - 56320)) :: acc) r4
                                else scanstring n (u :: acc) r2
                            | None => Err
                            end
                        | _ => scanstring n (u :: acc) r2
                        end
                      else scanstring n (u :: acc) r2
                  end
                else
                  match backslash e with
                  | Some x => scanstring n (x :: acc) r'
                  | None => Err
                  end
            end
          else scanstring n (c :: acc) r
      end
  end.

(** The longest run of decimal digits at the head of [s], and the rest. *)
Fixpoint digits (s : pystr) : pystr * pystr :=
  match s with
  | c :: r => if is_digit c then let '(d, r') := digits r in (c :: d, r') else ([], s)
  | [] => ([], [])
  end.

Definition digits_val (d : pystr) : N :=
  fold_left (fun a c => a * 10 + (c - 48)) d 0.

(** NUMBER_RE: an integer part (a zero, or a nonzero digit and more
    digits), an optional fraction (a dot and at least one digit) and an
    optional exponent (e or E, an optional sign, at least one digit). The
    minus sign is handled by [match_number]. *)
Definition int_part (s : pystr) : option (pystr * pystr) :=
  match s with
  | c :: r =>
      if c =? 48 then Some ([c], r)
      else if is_digit c then let '(d, r') := digits r in Some (c :: d, r')
      else None
  | [] => None
  end.

Definition frac_part (s : pystr) : option (pystr * pystr) :=
  match s with
  | 46 :: r => match digits r with
               | ([], _) => None
               | (d, r') => Some (d, r')
               end
  | _ => None
  end.

Definition exp_part (s : pystr) : option (Z * pystr) :=
  match s with
  | c :: r =>
      if (c =? 101) || (c =? 69) then
        let '(neg, r1) :=
          match r with
          | 45 :: r1 => (true, r1)
          | 43 :: r1 => (false, r1)
          | _ => (false, r)
          end in
        match digits r1 with
        | ([], _) => None
        | (d, r') => Some (if neg then (- Z.of_N (digits_val d))%Z
                           else Z.of_N (digits_val d), r')
        end
      else None
  | [] => None
  end.

(** A number is an int when it has neither fraction nor exponent, a float
    otherwise. *)
Definition match_number (s : pystr) : option (pyval * pystr) :=
  let '(neg, s1) := match s with
                    | 45 :: r => (true, r)
                    | _ => (false, s)
                    end in
  match int_part s1 with
  | None => None
  | Some (i, r) =>
      let '(f, r1) := match frac_part r with
                      | Some (f, r1) => (Some f, r1)
                      | None => (None, r)
                      end in
      let '(e, r2) := match exp_part r1 with
                      | Some (e, r2) => (Some e, r2)
                      | None => (None, r1)
                      end in
      match f, e with
      | None, None =>
          Some (PInt (if neg then (- Z.of_N (digits_val i))%Z
                      else Z.of_N (digits_val i)), r2)
      | _, _ =>
          let fd := default [] f in
          Some (PFloat (FDec neg (digits_val (i ++ fd))
                          (default 0%Z e - Z.of_nat (length fd))%Z), r2)
      end
  end.

Definition kw_null : pystr := Eval cbv in lit "null".
Definition kw_true : pystr := Eval cbv in lit "true".
Definition kw_false : pystr := Eval cbv in lit "false".
Definition kw_nan : pystr := Eval cbv in lit "NaN".
Definition kw_inf : pystr := Eval cbv in lit "Infinity".
Definition kw_neginf : pystr := Eval cbv in lit "-Infinity".

(** [null], [true] and [false] *)
Definition keyword (s : pystr) : option (pyval * pystr) :=
  if str_startswith kw_null s then Some (PNone, drop 4 s)
  else if str_startswith kw_true s then Some (PBool true, drop 4 s)
  else if str_startswith kw_false s then Some (PBool false, drop 5 s)
  else None.

(** The constants [json.loads] accepts beyond JSON. *)
Definition constant (s : pystr) : option (pyval * pystr) :=
  if str_startswith kw_nan s then Some (PFloat FNaN, drop 3 s)
  else if str_startswith kw_inf s then Some (PFloat (FInf false), drop 8 s)
  else if str_startswith kw_neginf s then Some (PFloat (FInf true), drop 9 s)
  else None.

(** [eat c s]: the rest of [s] after its first character, when that is [c] *)
Definition eat (c : N) (s : pystr) : option pystr :=
  match s with
  | x :: r => if x =? c then Some r else None
  | [] => None
  end.

(** [scan_once], [JSONArray] and [JSONObject] of json.scanner / json.decoder *)
Fixpoint scan_once (fuel : nat) (s : pystr) : res pyval :=
  match fuel with
  | O => Fuel
  | S n =>
      match s with
      | [] => Err
      | c :: r =>
          if c =? 34 then
            match scanstring (length s) [] r with
            | Ok v r' => Ok (PStr v) r'
            | Err => Err
            | Fuel => Fuel
            end
          else if c =? 123 then
            match eat 125 (skip_ws r) with
            | Some r' => Ok (PDict []) r'
            | None => json_object n [] (skip_ws r)
            end
          else if c =? 91 then
            match eat 93 (skip_ws r) with
            | Some r' => Ok (PList []) r'
            | None => json_array n [] (skip_ws r)
            end
          else
            match keyword s with
            | Some (v, r') => Ok v r'
            | None =>
                match match_number s with
                | Some (v, r') => Ok v r'
                | None =>
                    match constant s with
                    | Some (v, r') => Ok v r'
                    | None => Err
                    end
                end
            end
      end
  end
with json_array (fuel : nat) (acc : list pyval) (s : pystr) : res pyval :=
  match fuel with
  | O => Fuel
  | S n =>
      match scan_once n s with
      | Ok v r =>
          match skip_ws r with
          | c :: r' =>
              if c =? 93 then Ok (PList (rev (v :: acc))) r'
              else if c =? 44 then json_array n (v :: acc) (skip_ws r')
              else Err
          | [] => Err
          end
      | Err => Err
      | Fuel => Fuel
      end
  end
with json_object (fuel : nat) (acc : list (pystr * pyval)) (s : pystr) : res pyval :=
  match fuel with
  | O => Fuel
  | S n =>
      match eat 34 s with
      | Some r =>
          match scanstring (length s) [] r with
          | Ok k r1 =>
              match eat 58 (skip_ws r1) with
              | Some r2 =>
                  match scan_once n (skip_ws r2) with
                  | Ok v r3 =>
                      match skip_ws r3 with
                      | c :: r4 =>
                          if c =? 125 then Ok (PDict (dict_set k v acc)) r4
                          else if c =? 44
                               then json_object n (dict_set k v acc) (skip_ws r4)
                               else Err
                      | [] => Err
                      end
                  | Err => Err
                  | Fuel => Fuel
                  end
              | None => Err
              end
          | Err => Err
          | Fuel => Fuel
          end
      | None => Err
      end
  end.

(** JSONDecoder.decode: one value between optional whitespace. *)
Definition loads (s : pystr) : option pyval :=
  match scan_once (2 * length s + 2) (skip_ws s) with
  | Ok v r => match skip_ws r with [] => Some v | _ => None end
  | _ => None
  end.

End Json.

(** ** Operations on Python values *)

(** [bool(x)] for floats: a decimal literal is read as the nearest double,
    so it is zero when its digits are zero or when it lies at or below
    half of the smallest subnormal, 2^-1075. *)
Definition float_truthy (f : pyfloat) : bool :=
  match f with
  | FNaN | FInf _ => true
  | FDec _ m e =>
      if m =? 0 then false
      else if (0 <=? e)%Z then true
      else negb (Z.of_N m * 2 ^ 1075 <=? 10 ^ (- e))%Z
  end.

Definition truthy (v : pyval) : bool :=
  match v with
  | PNone => false
  | PBool b => b
  | PInt z => negb (z =? 0)%Z
  | PFloat f => float_truthy f
  | PStr s => match s with [] => false | _ => true end
  | PList l => match l with [] => false | _ => true end
  | PDict d => match d with [] => false | _ => true end
  | PImage _ => true
  end.

(** The exceptions the script meets, all of them instances of [Exception].
    [ServiceException] stands for whatever a client library raises. *)
Inductive exn :=
| KeyError (k : pyval)
| TypeError
| IndexError
| AttributeError (name : string)
| UnboundLocalError (name : string)
| ValueError
| JSONDecodeError
| HTTPError (status : N) (body : pystr)
| ServiceException (msg : pystr).

(** [v[k]] for a string key *)
Definition subscript (v : pyval) (k : pystr) : exn + pyval :=
  match v with
  | PDict d => match dict_get k d with
               | Some x => inr x
               | None => inl (KeyError (PStr k))
               end
  | _ => inl TypeError
  end.

(** [v[0]]; a dict decoded from JSON has str keys only, so the int key 0
    is missing from it. *)
Definition subscript0 (v : pyval) : exn + pyval :=
  match v with
  | PList (x :: _) => inr x
  | PList [] => inl IndexError
  | PStr (c :: _) => inr (PStr [c])
  | PStr [] => inl IndexError
  | PDict _ => inl (KeyError (PInt 0))
  | _ => inl TypeError
  end.

(** [sep.join(items)]: every item has to be a str *)
Fixpoint all_str (items : list pyval) : option (list pystr) :=
  match items with
  | [] => Some []
  | PStr s :: r => match all_str r with
                   | Some l => Some (s :: l)
                   | None => None
                   end
  | _ :: _ => None
  end.

Definition py_join (sep : pystr) (items : list pyval) : exn + pyval :=
  match all_str items with
  | Some l => inr (PStr (str_join sep l))
  | None => inl TypeError
  end.

(** ** Effects of one script run *)

(** [st.rerun()] and [st.stop()] unwind the script with control exceptions
    that [except Exception] does not catch. *)
Inductive signal :=
| Raise (e : exn)
| Rerun
| Stop.

(** How a piece of the script ends: with a value, or unwinding. *)
Inductive result (A : Type) :=
| Ret (a : A)
| Throw (s : signal).
Arguments Ret {A}.
Arguments Throw {A}.

(** The texts of [st.error] and [st.warning], with the values that fill
    their holes. *)
Inductive message :=
| GoogleKeyNotFound
| ElevenLabsKeyNotFound
| StabilityKeyNotFound
| ErrorProcessingAI (e : exn)
| StabilityHTTPError (status : N)
| StabilityError (e : exn)
| NarrationKeyMissing
| MusicNotFound
| AudioError (e : exn).

(** The elements drawn on the page that the properties talk about. *)
Inductive element :=
| StError (m : message)
| StWarning (m : message)
| StCode (text : pystr)
| StJson (v : pyval)
| StImage (img : pyval)
| StMarkdown (text : pyval)
| StAudio (narration : pystr) (music : bool).

(** The three holes of the f-string sent to the language model. *)
Record prompt := Prompt {
  prompt_user_choice : pyval;
  prompt_story_context : pyval;
  prompt_world_bible : pyval
}.

(** What [model.generate_content] does: it raises, or it returns a response
    whose [.text] is readable, or a response whose [.text] accessor raises
    [ValueError] because the reply carries no text part. *)
Inductive gen_outcome :=
| GenRaise (e : exn)
| GenNoText
| GenReply (text : pystr).

(** What [requests.post] does: it raises, or it returns a response with a
    status code and a body. *)
Inductive post_outcome :=
| PostRaise (e : exn)
| PostResponse (status : N) (body : pystr).

(** An entry of the log of a run: an element drawn, or a ghost entry for a
    call of [generate_story_chapter], for what the call returned, or for a
    request sent to the language model together with its outcome. *)
Inductive event_log :=
| Ui (el : element)
| CallChapter (story_context world_bible user_choice : pyval)
| ReturnChapter (v : pyval)
| Generate (p : prompt) (o : gen_outcome).

(** A cache of [st.cache_data]: for each key, the value returned and the
    elements the body drew. The newest entry comes first. *)
Definition cache := list (pyval * (pyval * list element)).

Inductive cached_fn := FnWorldBible | FnStoryChapter | FnImage.

(** What lasts from one run to the next: the session and the caches. *)
Record world := World {
  session : gmap string pyval;
  bible_cache : cache;
  chapter_cache : cache;
  image_cache : cache
}.

(** A piece of the script: from a world to a result, a world and a log. An
    exception leaves the world as the script had made it by then. *)
Definition M (A : Type) : Type := world -> result A * world * list event_log.

Global Instance M_ret : MRet M := fun A a w => (Ret a, w, []).

Global Instance M_bind : MBind M := fun A B f m w =>
  match m w with
  | (Ret a, w1, t1) => let '(r, w2, t2) := f a w1 in (r, w2, t1 ++ t2)
  | (Throw s, w1, t1) => (Throw s, w1, t1)
  end.

Definition throw {A} (s : signal) : M A := fun w => (Throw s, w, []).

Definition raise {A} (e : exn) : M A := throw (Raise e).

Definition lift {A} (x : exn + A) : M A :=
  match x with
  | inr a => mret a
  | inl e => raise e
  end.

Definition emit (el : element) : M unit := fun w => (Ret tt, w, [Ui el]).

Definition note (l : event_log) : M unit := fun w => (Ret tt, w, [l]).

(** *** st.session_state *)

(** Reading an attribute that is not there raises [AttributeError]. *)
Definition get_attr (name : string) : M pyval := fun w =>
  match session w !! name with
  | Some v => (Ret v, w, [])
  | None => (Throw (Raise (AttributeError name)), w, [])
  end.

Definition with_session (f : gmap string pyval -> gmap string pyval) (w : world) :=
  World (f (session w)) (bible_cache w) (chapter_cache w) (image_cache w).

Definition set_attr (name : string) (v : pyval) : M unit := fun w =>
  (Ret tt, with_session (insert name v) w, []).

(** [name in st.session_state] *)
Definition has_attr (name : string) : M bool := fun w =>
  (Ret (bool_decide (is_Some (session w !! name))), w, []).

(** [st.session_state.<name>.append(x)]: the attribute is read, then the
    argument [x] is evaluated, then the list object held by the session is
    mutated in place. *)
Definition append_attr (name : string) (x : exn + pyval) : M unit :=
  l ← get_attr name;
  match l with
  | PList items => v ← lift x; set_attr name (PList (items ++ [v]))
  | _ => raise (AttributeError "append")
  end.

(** ** The application: src/app.py *)

(** *** Everything outside the script that one run depends on *)

(** The top-level str entries of the secrets file ([None] when there is no
    file) and the environment of the process after [load_dotenv]; the
    language model asked for a world bible and for a chapter; the image
    service; whether [base64.b64decode] and [Image.open] accept a payload;
    the speech service, which returns the audio in base64; whether the music
    file exists. *)
Record env := Env {
  secrets : option (gmap string pystr);
  environ : gmap string pystr;
  bible_content : pystr -> pystr -> pystr -> gen_outcome;
  generate_content : prompt -> gen_outcome;
  requests_post : pyval -> post_outcome;
  image_open : pystr -> bool;
  text_to_speech : pyval -> exn + pystr;
  music_exists : bool
}.

(** *** 1. Configuration and setup *)

Record api_keys := ApiKeys {
  GOOGLE_API_KEY : option pystr;
  STABILITY_API_KEY : option pystr;
  ELEVENLABS_API_KEY : option pystr
}.

(** [os.environ] as line 31 finds it. The first read of [st.secrets] parses
    the secrets file and exports every top-level secret to [os.environ],
    over what the variable held; without a secrets file the environment is
    as the process and [load_dotenv] left it. *)
Definition os_environ (e : env) : gmap string pystr :=
  match secrets e with
  | Some s => s ∪ environ e
  | None => environ e
  end.

Definition os_getenv (e : env) (name : string) : option pystr :=
  os_environ e !! name.

(** Lines 24 to 34: the three subscripts of [st.secrets], and the three
    [os.getenv] of the handler when a key or the file is missing. *)
Definition load_api_keys (e : env) : api_keys :=
  let from_env :=
    ApiKeys (os_getenv e "GOOGLE_API_KEY") (os_getenv e "STABILITY_API_KEY")
            (os_getenv e "ELEVENLABS_API_KEY") in
  match secrets e with
  | Some s =>
      match s !! "GOOGLE_API_KEY", s !! "STABILITY_API_KEY",
            s !! "ELEVENLABS_API_KEY" with
      | Some g, Some st, Some el => ApiKeys (Some g) (Some st) (Some el)
      | _, _, _ => from_env
      end
  | None => from_env
  end.

(** Truthiness of a key: [None] and the empty str are falsy. *)
Definition key_set (k : option pystr) : bool :=
  match k with
  | Some (_ :: _) => true
  | _ => false
  end.

(** Lines 37 to 47: load the keys, stop without the Google key, warn
    without the ElevenLabs key. *)
Definition configure (e : env) : M api_keys :=
  let keys := load_api_keys e in
  (if key_set (GOOGLE_API_KEY keys) then mret tt
   else emit (StError GoogleKeyNotFound);; throw Stop);;
  (if key_set (ELEVENLABS_API_KEY keys) then mret tt
   else emit (StWarning ElevenLabsKeyNotFound));;
  mret keys.

(** *** 2. AI and helper functions *)

(** The entry of a key in a cache. *)
Fixpoint cache_get (k : pyval) (c : cache) : option (pyval * list element) :=
  match c with
  | [] => None
  | (k', x) :: c' => if bool_decide (k = k') then Some x else cache_get k c'
  end.

Definition get_cache (f : cached_fn) (w : world) : cache :=
  match f with
  | FnWorldBible => bible_cache w
  | FnStoryChapter => chapter_cache w
  | FnImage => image_cache w
  end.

Definition put_cache (f : cached_fn) (k : pyval) (x : pyval * list element)
    (w : world) : world :=
  match f with
  | FnWorldBible =>
      World (session w) ((k, x) :: bible_cache w) (chapter_cache w) (image_cache w)
  | FnStoryChapter =>
      World (session w) (bible_cache w) ((k, x) :: chapter_cache w) (image_cache w)
  | FnImage =>
      World (session w) (bible_cache w) (chapter_cache w) ((k, x) :: image_cache w)
  end.

(** The elements drawn in a log. *)
Definition elements_of (t : list event_log) : list element :=
  omap (fun l => match l with Ui el => Some el | _ => None end) t.

(** [@st.cache_data]: [key] holds the hashed arguments (the ones whose name
    does not start with an underscore). A hit returns the stored value and
    replays the elements the body drew; a miss runs the body and stores its
    return value; nothing is stored when the body raises. *)
Definition st_cache_data (f : cached_fn) (key : pyval) (body : M pyval) : M pyval :=
  fun w =>
    match cache_get key (get_cache f w) with
    | Some (v, els) => (Ret v, w, Ui <$> els)
    | None =>
        match body w with
        | (Ret v, w1, t) => (Ret v, put_cache f key (v, elements_of t) w1, t)
        | (Throw s, w1, t) => (Throw s, w1, t)
        end
    end.

(** [generate_world_bible]: no [try]; whatever the model call or the [.text]
    accessor raises leaves the function. *)
Definition generate_world_bible (e : env) (theme archetype contradiction : pystr)
    : M pyval :=
  st_cache_data FnWorldBible (PList [PStr theme; PStr archetype; PStr contradiction])
    (match bible_content e theme archetype contradiction with
     | GenRaise x => raise x
     | GenNoText => raise ValueError
     | GenReply text => mret (PStr text)
     end).

(** Lines 84 and 85: clean the reply text, then [json.loads]. *)
Definition parse_reply (text : pystr) : option pyval :=
  Json.loads (clean_reply text).

(** The [try] block of [generate_story_chapter]: the local [response]
    ([None] while it is unbound, [Some None] when its [.text] accessor
    raises) and the outcome of the block. *)
Definition chapter_try (o : gen_outcome) : option (option pystr) * (exn + pyval) :=
  match o with
  | GenRaise x => (None, inl x)
  | GenNoText => (Some None, inl ValueError)
  | GenReply text =>
      (Some (Some text),
       match parse_reply text with
       | Some data => inr data
       | None => inl JSONDecodeError
       end)
  end.

(** The body of [generate_story_chapter]. The handler of
    [except Exception as e] draws the error, then reads [response.text] for
    [st.code], then returns [None]. *)
Definition chapter_body (e : env) (_story_context _world_bible user_choice : pyval)
    : M pyval :=
  let p := Prompt user_choice _story_context _world_bible in
  let o := generate_content e p in
  note (Generate p o);;
  let '(response, r) := chapter_try o in
  match r with
  | inr data => mret data
  | inl x =>
      emit (StError (ErrorProcessingAI x));;
      match response with
      | None => raise (UnboundLocalError "response")
      | Some None => raise ValueError
      | Some (Some text) => emit (StCode text);; mret PNone
      end
  end.

(** [generate_story_chapter] under [@st.cache_data]: of its three parameters
    only [user_choice] is hashed. The two notes are ghost entries. *)
Definition generate_story_chapter (e : env)
    (_story_context _world_bible user_choice : pyval) : M pyval :=
  note (CallChapter _story_context _world_bible user_choice);;
  v ← st_cache_data FnStoryChapter user_choice
        (chapter_body e _story_context _world_bible user_choice);
  note (ReturnChapter v);;
  mret v.

Definition k_artifacts : pystr := Eval cbv in lit "artifacts".
Definition k_base64 : pystr := Eval cbv in lit "base64".

(** The [try] block of [generate_image_stability]. *)
Definition image_try (e : env) (prompt : pyval) : exn + pyval :=
  match requests_post e prompt with
  | PostRaise x => inl x
  | PostResponse status body =>
      if (400 <=? status) && (status <? 600) then inl (HTTPError status body)
      else
        match Json.loads body with
        | None => inl JSONDecodeError
        | Some data =>
            match subscript data k_artifacts with
            | inl x => inl x
            | inr a =>
                match subscript0 a with
                | inl x => inl x
                | inr a0 =>
                    match subscript a0 k_base64 with
                    | inl x => inl x
                    | inr (PStr b64) =>
                        if image_open e b64 then inr (PImage b64) else inl ValueError
                    | inr _ => inl TypeError
                    end
                end
            end
        end
  end.

(** The body of [generate_image_stability]. The handler of
    [except HTTPError as e] draws the status, then decodes the body of the
    response for [st.json], then returns [None]; the handler of
    [except Exception] draws the error and returns [None]. *)
Definition image_body (keys : api_keys) (e : env) (prompt : pyval) : M pyval :=
  if negb (key_set (STABILITY_API_KEY keys)) then
    emit (StWarning StabilityKeyNotFound);; mret PNone
  else
    match image_try e prompt with
    | inr img => mret img
    | inl (HTTPError status body) =>
        emit (StError (StabilityHTTPError status));;
        match Json.loads body with
        | Some j => emit (StJson j);; mret PNone
        | None => raise JSONDecodeError
        end
    | inl x => emit (StError (StabilityError x));; mret PNone
    end.

(** [generate_image_stability] under [@st.cache_data], hashed by its prompt. *)
Definition generate_image_stability (keys : api_keys) (e : env) (prompt : pyval)
    : M pyval :=
  st_cache_data FnImage prompt (image_body keys e prompt).

(** [generate_and_play_audio]: everything after the key check is inside one
    [try] whose handler draws the error. *)
Definition generate_and_play_audio (keys : api_keys) (e : env) (text : pyval)
    : M unit :=
  if negb (key_set (ELEVENLABS_API_KEY keys)) then
    emit (StWarning NarrationKeyMissing)
  else
    match text_to_speech e text with
    | inr audio =>
        (if music_exists e then mret tt else emit (StWarning MusicNotFound));;
        emit (StAudio audio (music_exists e))
    | inl x => emit (StError (AudioError x))
    end.

(** *** 3. Streamlit application UI and logic *)

(** What the user did to cause this run of the script. [SubmitChoice i]
    submits the choice form with option [i] of the radio selected. *)
Inductive event :=
| NoEvent
| SubmitWorldForge (theme archetype contradiction : pystr)
| SubmitStart (initial_prompt : pystr)
| ClickNarrate
| SubmitChoice (index : nat)
| ClickRestart.

Definition world_forge : pystr := Eval cbv in lit "world_forge".
Definition story_start : pystr := Eval cbv in lit "story_start".
Definition story_cycle : pystr := Eval cbv in lit "story_cycle".
Definition k_text : pystr := Eval cbv in lit "text".
Definition k_image : pystr := Eval cbv in lit "image".
Definition k_narrative_chapter : pystr := Eval cbv in lit "narrative_chapter".
Definition k_next_choices : pystr := Eval cbv in lit "next_choices".
Definition k_image_prompt : pystr := Eval cbv in lit "image_prompt".
Definition space : pystr := [32].

(** A chapter of the transcript: a dict with the keys [text] and [image]. *)
Definition chapter (text image : pyval) : pyval :=
  PDict [(k_text, text); (k_image, image)].

(** The chapter dict built from a text whose evaluation may raise. *)
Definition chapter_of (text : exn + pyval) (image : pyval) : exn + pyval :=
  match text with
  | inr t => inr (chapter t image)
  | inl x => inl x
  end.

(** The session after the initialisation of lines 199 to 203. *)
Definition initial_session : gmap string pyval :=
  <["latest_choices" := PList []]>
    (<["story_chapters" := PList []]>
       (<["world_bible" := PNone]>
          (<["app_stage" := PStr world_forge]> ∅))).

Definition pass : M unit := mret tt.

(** Lines 199 to 203: the four fields are set when [app_stage] is missing. *)
Definition init_session : M unit :=
  present ← has_attr "app_stage";
  if (present : bool) then pass
  else
    set_attr "app_stage" (PStr world_forge);;
    set_attr "world_bible" PNone;;
    set_attr "story_chapters" (PList []);;
    set_attr "latest_choices" (PList []).

(** Iterating a value: the items of a list, the characters of a str, the keys
    of a dict. *)
Definition py_iter (v : pyval) : exn + list pyval :=
  match v with
  | PList l => inr l
  | PStr s => inr ((fun c => PStr [c]) <$> s)
  | PDict d => inr ((fun kv => PStr (fst kv)) <$> d)
  | _ => inl TypeError
  end.

(** The options [st.radio] draws for its second argument: a str or a number
    is one option, a list gives its items, a dict its keys, [None] gives no
    option. An image handle, which no reply can hold, is refused. *)
Definition radio_options (v : pyval) : exn + list pyval :=
  match v with
  | PNone => inr []
  | PBool _ | PInt _ | PFloat _ | PStr _ => inr [v]
  | PList l => inr l
  | PDict d => inr ((fun kv => PStr (fst kv)) <$> d)
  | PImage _ => inl TypeError
  end.

(** [for x in items: body] *)
Fixpoint for_each {A} (items : list A) (body : A -> M unit) : M unit :=
  match items with
  | [] => pass
  | x :: rest => body x;; for_each rest body
  end.

(** [[f(x) for x in items]]: the first exception ends the comprehension. *)
Fixpoint map_m {A B} (f : A -> exn + B) (items : list A) : exn + list B :=
  match items with
  | [] => inr []
  | x :: rest =>
      match f x with
      | inl e => inl e
      | inr y => match map_m f rest with
                 | inl e => inl e
                 | inr ys => inr (y :: ys)
                 end
      end
  end.

(** Lines 243 and 252: the [text] of every chapter of the transcript, joined
    by single spaces. *)
Definition joined_story : M pyval :=
  chapters ← get_attr "story_chapters";
  items ← lift (py_iter chapters);
  texts ← lift (map_m (fun ch => subscript ch k_text) items);
  lift (py_join space texts).

(** Lines 205 to 214. *)
Definition world_forge_stage (e : env) (ev : event) : M unit :=
  match ev with
  | SubmitWorldForge theme archetype contradiction =>
      wb ← generate_world_bible e theme archetype contradiction;
      set_attr "world_bible" wb;;
      set_attr "app_stage" (PStr story_start);;
      throw Rerun
  | _ => pass
  end.

(** Lines 223 to 232: the turn that opens the saga. *)
Definition start_story_turn (keys : api_keys) (e : env) (initial_prompt : pystr)
    : M unit :=
  wb ← get_attr "world_bible";
  ai_response ← generate_story_chapter e (PStr initial_prompt) wb (PStr initial_prompt);
  if truthy ai_response then
    p ← lift (subscript ai_response k_image_prompt);
    initial_image ← generate_image_stability keys e p;
    append_attr "story_chapters" (inr (chapter (PStr initial_prompt) PNone));;
    append_attr "story_chapters"
      (chapter_of (subscript ai_response k_narrative_chapter) initial_image);;
    c ← lift (subscript ai_response k_next_choices);
    set_attr "latest_choices" c;;
    set_attr "app_stage" (PStr story_cycle);;
    throw Rerun
  else pass.

(** Lines 216 to 232: the form is submitted with a non-empty sentence. *)
Definition story_start_stage (keys : api_keys) (e : env) (ev : event) : M unit :=
  match ev with
  | SubmitStart initial_prompt =>
      if truthy (PStr initial_prompt) then start_story_turn keys e initial_prompt
      else pass
  | _ => pass
  end.

(** Lines 252 to 262: the turn of the story cycle. *)
Definition choice_turn (keys : api_keys) (e : env) (choice_made : pyval) : M unit :=
  story_so_far ← joined_story;
  wb ← get_attr "world_bible";
  ai_response ← generate_story_chapter e story_so_far wb choice_made;
  if truthy ai_response then
    p ← lift (subscript ai_response k_image_prompt);
    new_image ← generate_image_stability keys e p;
    append_attr "story_chapters"
      (chapter_of (subscript ai_response k_narrative_chapter) new_image);;
    c ← lift (subscript ai_response k_next_choices);
    set_attr "latest_choices" c;;
    t ← lift (subscript ai_response k_narrative_chapter);
    generate_and_play_audio keys e t;;
    throw Rerun
  else pass.

(** Lines 237 to 240: draw one chapter. *)
Definition render_chapter (ch : pyval) : M unit :=
  img ← lift (subscript ch k_image);
  (if truthy img then emit (StImage img) else pass);;
  t ← lift (subscript ch k_text);
  emit (StMarkdown t).

(** The value of the radio: the option the user submitted, the first option
    otherwise. *)
Definition selected (options : list pyval) (ev : event) : pyval :=
  match ev with
  | SubmitChoice i => default (default PNone (head options)) (options !! i)
  | _ => default PNone (head options)
  end.

(** Lines 234 to 262. The radio is keyed, so its value is kept in the
    session under [choice_radio]. *)
Definition story_cycle_stage (keys : api_keys) (e : env) (ev : event) : M unit :=
  chapters ← get_attr "story_chapters";
  items ← lift (py_iter chapters);
  for_each items render_chapter;;
  (if truthy chapters then
     full_story_text ← joined_story;
     match ev with
     | ClickNarrate => generate_and_play_audio keys e full_story_text
     | _ => pass
     end
   else pass);;
  present ← has_attr "latest_choices";
  if (present : bool) then
    latest_choices ← get_attr "latest_choices";
    if truthy latest_choices then
      options ← lift (radio_options latest_choices);
      let choice_made := selected options ev in
      set_attr "choice_radio" choice_made;;
      match ev with
      | SubmitChoice _ => choice_turn keys e choice_made
      | _ => pass
      end
    else pass
  else pass.

(** [st.session_state.app_stage == name] *)
Definition is_stage (v : pyval) (name : pystr) : bool :=
  match v with
  | PStr s => bool_decide (s = name)
  | _ => false
  end.

(** Lines 269 and 270: every key of the session is deleted, one by one. *)
Definition clear_session (s : gmap string pyval) : gmap string pyval :=
  foldr (fun key acc => delete key acc) s ((map_to_list s).*1).

Definition delete_all_keys : M unit := fun w =>
  (Ret tt, with_session clear_session w, []).

(** Lines 267 to 271. *)
Definition restart_button (ev : event) : M unit :=
  match ev with
  | ClickRestart => delete_all_keys;; throw Rerun
  | _ => pass
  end.

(** One run of the script, top to bottom. *)
Definition script (e : env) (ev : event) : M unit :=
  keys ← configure e;
  init_session;;
  stage ← get_attr "app_stage";
  (if is_stage stage world_forge then world_forge_stage e ev
   else if is_stage stage story_start then story_start_stage keys e ev
   else if is_stage stage story_cycle then story_cycle_stage keys e ev
   else pass);;
  restart_button ev.

(** ** What a log tells *)

(** The calls of [generate_story_chapter] in a log, what they returned, and
    the requests sent to the model with their outcomes. *)
Definition calls (t : list event_log) : list (pyval * pyval * pyval) :=
  omap (fun l => match l with
                 | CallChapter c b u => Some (c, b, u)
                 | _ => None
                 end) t.

Definition returns (t : list event_log) : list pyval :=
  omap (fun l => match l with ReturnChapter v => Some v | _ => None end) t.

Definition generations (t : list event_log) : list (prompt * gen_outcome) :=
  omap (fun l => match l with Generate p o => Some (p, o) | _ => None end) t.

(** A stretch of the log that only draws elements. *)
Definition drawing (t : list event_log) : Prop :=
  calls t = [] /\ returns t = [] /\ generations t = [].

(** *** generate_story_chapter *)

(** The request to the model failed: the call raised, the response holds no
    text, or [json.loads] rejects the cleaned text. *)
Definition generation_failed (o : gen_outcome) : Prop :=
  match o with
  | GenRaise _ | GenNoText => True
  | GenReply text => parse_reply text = None
  end.

(** What the body returns, by outcome of the model call. *)
Definition chapter_result (o : gen_outcome) : result pyval :=
  match o with
  | GenRaise _ => Throw (Raise (UnboundLocalError "response"))
  | GenNoText => Throw (Raise ValueError)
  | GenReply text => Ret (default PNone (parse_reply text))
  end.

(** What the body draws, by outcome of the model call. *)
Definition chapter_elements (o : gen_outcome) : list element :=
  match o with
  | GenRaise x => [StError (ErrorProcessingAI x)]
  | GenNoText => [StError (ErrorProcessingAI ValueError)]
  | GenReply text =>
      match parse_reply text with
      | Some _ => []
      | None => [StError (ErrorProcessingAI JSONDecodeError); StCode text]
      end
  end.

(** [ctx] is the texts of the session's chapters, in order, joined by a
    single space. *)
Definition joined (s : gmap string pyval) (ctx : pyval) : Prop :=
  exists chapters items texts,
    s !! "story_chapters" = Some chapters /\ py_iter chapters = inr items /\
    Forall2 (fun ch tx => subscript ch k_text = inr (PStr tx)) items texts /\
    ctx = PStr (str_join space texts).

(** *** One turn *)

(** The stage, the transcript and the pending choices of a session. *)
Definition stage_of (w : world) : option pyval := session w !! "app_stage".
Definition chapters_of (w : world) : option pyval := session w !! "story_chapters".
Definition choices_of (w : world) : option pyval := session w !! "latest_choices".

(** The next choices a run has committed: it ended in [st.rerun()] after
    [generate_story_chapter] returned a reply holding them. *)
Definition committed (r : result unit) (t : list event_log) : option pyval :=
  match r with
  | Throw Rerun =>
      match last (returns t) with
      | Some ai => match subscript ai k_next_choices with
                   | inr c => Some c
                   | inl _ => None
                   end
      | None => None
      end
  | _ => None
  end.

(** What every run of a turn handler satisfies. [ctx] is the story context
    it passes on, [pre] the chapters it appends ahead of the generated one,
    [stage'] the stage after a commit. *)
Record turn_facts (e : env) (w : world) (ctx uc : pyval) (pre : list pyval)
    (stage' : option pyval) (r : result unit) (w' : world) (t : list event_log)
    : Prop := {
  turn_calls : calls t = [] \/
    exists wb, session w !! "world_bible" = Some wb /\ calls t = [(ctx, wb, uc)];
  turn_atomic : forall p o,
    (p, o) ∈ generations t -> generation_failed o -> session w' = session w;
  turn_generated : forall p o,
    (p, o) ∈ generations t ->
    cache_get uc (chapter_cache w) = None /\ o = generate_content e p;
  turn_failed : r <> Throw Rerun ->
    choices_of w' = choices_of w /\ stage_of w' = stage_of w;
  turn_committed : r = Throw Rerun ->
    exists ai c items tx img,
      returns t = [ai] /\ truthy ai = true /\
      subscript ai k_next_choices = inr c /\
      subscript ai k_narrative_chapter = inr tx /\
      chapters_of w = Some (PList items) /\
      chapters_of w' = Some (PList (items ++ pre ++ [chapter tx img])) /\
      choices_of w' = Some c /\ stage_of w' = stage'
}.

(** The facts carried from the call of [generate_story_chapter] to the rest
    of a turn: [tg] is what the call logged and [ai] the truthy reply. *)
Record call_facts (e : env) (w : world) (ctx uc ai : pyval) (tg : list event_log)
    : Prop := {
  call_calls : exists wb, session w !! "world_bible" = Some wb /\
                          calls tg = [(ctx, wb, uc)];
  call_returns : returns tg = [ai];
  call_generated : forall p o, (p, o) ∈ generations tg ->
    cache_get uc (chapter_cache w) = None /\ o = generate_content e p /\
    ~ generation_failed o
}.

(** *** One run of the script *)

(** Two sessions that agree on the four fields of the saga; the key of the
    radio widget may differ. *)
Definition same_saga (s s' : gmap string pyval) : Prop :=
  s' !! "app_stage" = s !! "app_stage" /\
  s' !! "world_bible" = s !! "world_bible" /\
  s' !! "story_chapters" = s !! "story_chapters" /\
  s' !! "latest_choices" = s !! "latest_choices".

(** The world after lines 199 to 203. *)
Definition after_init (w : world) : world :=
  match session w !! "app_stage" with
  | Some _ => w
  | None =>
      with_session
        (fun s => <["latest_choices" := PList []]>
                    (<["story_chapters" := PList []]>
                       (<["world_bible" := PNone]>
                          (<["app_stage" := PStr world_forge]> s)))) w
  end.

(** The kinds of run of the script. *)
Inductive run_kind (e : env) (ev : event) (w : world)
    (r : result unit) (w' : world) (t : list event_log) : Prop :=
| RunStopped :
    key_set (GOOGLE_API_KEY (load_api_keys e)) = false ->
    r = Throw Stop -> w' = w -> t = [Ui (StError GoogleKeyNotFound)] ->
    run_kind e ev w r w' t
| RunRestart :
    ev = ClickRestart -> r = Throw Rerun -> session w' = ∅ -> drawing t ->
    run_kind e ev w r w' t
| RunIdle :
    drawing t -> (r = Ret tt \/ exists x, r = Throw (Raise x)) ->
    same_saga (session (after_init w)) (session w') ->
    run_kind e ev w r w' t
| RunForged th ar co wb :
    ev = SubmitWorldForge th ar co ->
    stage_of (after_init w) = Some (PStr world_forge) ->
    r = Throw Rerun -> drawing t ->
    session w' = <["app_stage" := PStr story_start]>
                   (<["world_bible" := wb]> (session (after_init w))) ->
    run_kind e ev w r w' t
| RunStart ip t0 tt :
    ev = SubmitStart ip -> stage_of w = Some (PStr story_start) ->
    drawing t0 -> t = t0 ++ tt ->
    start_story_turn (load_api_keys e) e ip w = (r, w', tt) ->
    run_kind e ev w r w' t
| RunChoice i c wc t0 tt :
    ev = SubmitChoice i -> stage_of w = Some (PStr story_cycle) ->
    same_saga (session w) (session wc) -> chapter_cache wc = chapter_cache w ->
    drawing t0 -> t = t0 ++ tt ->
    choice_turn (load_api_keys e) e c wc = (r, w', tt) ->
    run_kind e ev w r w' t.

(** *** Reachable sessions and their pending choices *)

(** The ghost after a run: the next choices the run committed, nothing after
    a restart, the ghost before the run otherwise. *)
Definition next_ghost (ev : event) (r : result unit) (t : list event_log)
    (g : option pyval) : option pyval :=
  match committed r t with
  | Some c => Some c
  | None =>
      match ev, r with
      | ClickRestart, Throw Rerun => None
      | _, _ => g
      end
  end.

(** [reachable w g]: the world [w] is reached from a fresh session by runs of
    the script, and [g] holds the next choices of the latest turn committed
    since the saga began, or [None] before the first. *)
Inductive reachable : world -> option pyval -> Prop :=
| reach_fresh bc cc ic : reachable (World ∅ bc cc ic) None
| reach_run w g e ev r w' t :
    reachable w g -> script e ev w = (r, w', t) ->
    reachable w' (next_ghost ev r t g).

(** The session agrees with the ghost. *)
Definition pending_inv (w : world) (g : option pyval) : Prop :=
  match g with
  | None => stage_of w <> Some (PStr story_cycle) /\
            (choices_of w = None \/ choices_of w = Some (PList []))
  | Some c => stage_of w = Some (PStr story_cycle) /\ choices_of w = Some c
  end.

Import Json.

(** ** A saga to run the script on *)

Module Demo.

(** JSON text written with apostrophes in place of double quotes. *)
Definition quoted (s : string) : pystr :=
  List.map (fun c => if c =? 39 then 34 else c) (lit s).

(** Replies of the model: fenced, bare, with no choice left, and lacking two
    of the three keys. *)
Definition reply_fenced : pystr :=
  fenced (lit " ") [10] [10] []
    (quoted "{'narrative_chapter': 'n1', 'next_choices': ['a', 'b', 'c'], 'image_prompt': 'p1'}").

Definition reply_plain : pystr :=
  quoted "{'narrative_chapter': 'n2', 'next_choices': ['d', 'e', 'f'], 'image_prompt': 'p2'}".

Definition reply_no_choices : pystr :=
  quoted "{'narrative_chapter': 'n1', 'next_choices': [], 'image_prompt': 'p1'}".

Definition reply_incomplete : pystr := quoted "{'narrative_chapter': 'n2'}".

(** Answers of the image service: an image, and a gateway's error page. *)
Definition image_ok : post_outcome :=
  PostResponse 200 (quoted "{'artifacts': [{'base64': 'QUJD'}]}").

Definition bad_gateway : post_outcome :=
  PostResponse 502 (lit "<html>502 Bad Gateway</html>").

(** An environment with no secrets file, where the process environment
    sets [names], the model answers [reply] to every chapter request and the
    image service answers [post]. *)
Definition environ_with (names : list string) : gmap string pystr :=
  list_to_map ((fun n => (n, lit "key")) <$> names).

Definition make_env (names : list string) (reply : gen_outcome) (post : post_outcome)
    : env :=
  Env None (environ_with names) (fun _ _ _ => GenReply (lit "bible"))
    (fun _ => reply) (fun _ => post) (fun _ => true) (fun _ => inl TypeError) false.

Definition all_keys : list string :=
  ["GOOGLE_API_KEY"; "STABILITY_API_KEY"; "ELEVENLABS_API_KEY"].

Definition e_ok : env := make_env all_keys (GenReply reply_fenced) image_ok.
Definition e_next : env := make_env all_keys (GenReply reply_plain) image_ok.
Definition e_down : env :=
  make_env all_keys (GenRaise (ServiceException (lit "503"))) image_ok.
Definition e_garbled : env := make_env all_keys (GenReply (lit "Sorry, no.")) image_ok.
Definition e_incomplete : env := make_env all_keys (GenReply reply_incomplete) image_ok.
Definition e_no_choices : env := make_env all_keys (GenReply reply_no_choices) image_ok.
Definition e_bad_gateway : env := make_env all_keys (GenReply reply_plain) bad_gateway.
Definition e_no_google : env :=
  make_env ["STABILITY_API_KEY"; "ELEVENLABS_API_KEY"] (GenReply reply_plain) image_ok.
Definition e_google_only : env :=
  make_env ["GOOGLE_API_KEY"] (GenReply reply_plain) image_ok.

(** The worlds of a saga: a fresh session, after its first run, after the
    world is forged, and after the opening turn. *)
Definition after (e : env) (ev : event) (w : world) : world := (script e ev w).1.2.

Definition forge : event := SubmitWorldForge (lit "Revenge") (lit "The Outcast") (lit "x").
Definition opening : pystr := Eval cbv in lit "Once".

Definition w_fresh : world := World ∅ [] [] [].
Definition w_forge : world := after e_ok NoEvent w_fresh.
Definition w_start : world := after e_ok forge w_forge.
Definition w_saga : world := after e_ok (SubmitStart opening) w_start.
Definition w_dead_end : world := after e_no_choices (SubmitStart opening) w_start.

End Demo.

Import Demo.

(** The decoded replies. *)
Definition turn_n1 : pyval :=
  PDict [(k_narrative_chapter, PStr (lit "n1"));
         (k_next_choices, PList [PStr [97]; PStr [98]; PStr [99]]);
         (k_image_prompt, PStr (lit "p1"))].

Definition turn_n2 : pyval :=
  PDict [(k_narrative_chapter, PStr (lit "n2"));
         (k_next_choices, PList [PStr [100]; PStr [101]; PStr [102]]);
         (k_image_prompt, PStr (lit "p2"))].

Definition raw_n1 : pystr :=
  quoted "{'narrative_chapter': 'n1', 'next_choices': ['a', 'b', 'c'], 'image_prompt': 'p1'}".

(** A second turn of the saga, on the choice [b]. *)
Definition first_call :=
  generate_story_chapter e_next (PStr (lit "Once n1")) (PStr (lit "bible")) (PStr [98])
    w_saga.

(** ** Vocabulary of the further properties *)

(** [p in s]: [p] occurs somewhere in [s]. *)
Fixpoint occurs (p s : pystr) : bool :=
  str_startswith p s ||
  match s with
  | [] => false
  | _ :: s' => occurs p s'
  end.

(** The value the loader finds for one key: the one of the secrets file
    when the file holds the key, the one of the environment otherwise. *)
Definition key_of (e : env) (name : string) : option pystr :=
  match secrets e with
  | Some s => match s !! name with
              | Some v => Some v
              | None => environ e !! name
              end
  | None => environ e !! name
  end.

(** The elements [generate_and_play_audio] draws. *)
Definition narration_elements (keys : api_keys) (e : env) (text : pyval)
    : list element :=
  if key_set (ELEVENLABS_API_KEY keys) then
    match text_to_speech e text with
    | inr audio =>
        (if music_exists e then [] else [StWarning MusicNotFound])
          ++ [StAudio audio (music_exists e)]
    | inl x => [StError (AudioError x)]
    end
  else [StWarning NarrationKeyMissing].

(** The warning of line 47, drawn on every run without the speech key. *)
Definition startup_elements (e : env) : list element :=
  if key_set (ELEVENLABS_API_KEY (load_api_keys e)) then []
  else [StWarning ElevenLabsKeyNotFound].

(** The key of [generate_world_bible] in its cache: its three arguments. *)
Definition bible_key (theme archetype contradiction : pystr) : pyval :=
  PList [PStr theme; PStr archetype; PStr contradiction].

(** The world with the value of the radio stored under its key. *)
Definition with_radio (c : pyval) (w : world) : world :=
  with_session (insert "choice_radio" c) w.

(** Two worlds with the same three caches. *)
Definition same_caches (w w' : world) : Prop :=
  bible_cache w' = bible_cache w /\ chapter_cache w' = chapter_cache w /\
  image_cache w' = image_cache w.

(** A chapter dict as lines 227, 229 and 256 build it. *)
Definition is_chapter (v : pyval) : Prop := exists tx img, v = chapter tx img.

(** A transcript that is empty or starts with the user's opening sentence. *)
Definition opened (items : list pyval) : Prop :=
  match items with
  | [] => True
  | ch :: _ => exists ip, ch = chapter (PStr ip) PNone
  end.

(** The four fields of the saga in a session. *)
Definition saga_fields (s : gmap string pyval) (stage : pystr) (wb : pyval)
    (items : list pyval) (c : pyval) : Prop :=
  s !! "app_stage" = Some (PStr stage) /\ s !! "world_bible" = Some wb /\
  s !! "story_chapters" = Some (PList items) /\ s !! "latest_choices" = Some c.

(** What the stages keep true of the four fields. *)
Definition saga_inv (stage : pystr) (wb : pyval) (items : list pyval) (c : pyval)
    : Prop :=
  Forall is_chapter items /\ opened items /\
  ((stage = world_forge /\ wb = PNone /\ items = [] /\ c = PList []) \/
   (stage = story_start /\ c = PList []) \/
   (stage = story_cycle /\ (2 <= length items)%nat)).

(** A session that is empty, or holds the four fields as the stages keep
    them. *)
Definition session_ok (s : gmap string pyval) : Prop :=
  s = ∅ \/
  exists stage wb items c,
    saga_fields s stage wb items c /\ saga_inv stage wb items c.

(** The transcript that holds the chapters of texts and images [l]. *)
Definition transcript (l : list (pyval * pyval)) : list pyval :=
  (fun ti => chapter ti.1 ti.2) <$> l.

(** What lines 236 to 240 draw for it. *)
Definition page_of (l : list (pyval * pyval)) : list element :=
  concat ((fun ti => (if truthy ti.2 then [StImage ti.2] else [])
                       ++ [StMarkdown ti.1]) <$> l).

(** What the button of line 244 adds to the page. *)
Definition narrate_elements (keys : api_keys) (e : env) (ev : event) (story : pyval)
    : list element :=
  match ev with
  | ClickNarrate => narration_elements keys e story
  | _ => []
  end.

(** *** More of the saga *)

(** More environments and worlds to run the script on: a secrets file that
    holds the Google key only; a model whose reply has no text, is the JSON
    [null], lacks [next_choices], gives a number for the narrative, or gives
    a str or a number for the choices; an image service that rejects the
    request with a JSON body. *)
Definition partial_secrets : gmap string pystr :=
  {["GOOGLE_API_KEY" := lit "key"]}.

Definition e_partial_secrets : env :=
  Env (Some partial_secrets) ∅ (fun _ _ _ => GenReply (lit "bible"))
    (fun _ => GenReply reply_plain) (fun _ => image_ok) (fun _ => true)
    (fun _ => inl TypeError) false.

Definition e_blocked : env := make_env all_keys GenNoText image_ok.

Definition e_null : env := make_env all_keys (GenReply (lit "null")) image_ok.

Definition reply_half : pystr :=
  quoted "{'narrative_chapter': 'n1', 'image_prompt': 'p1'}".

Definition e_half : env := make_env all_keys (GenReply reply_half) image_ok.

Definition turn_half : pyval :=
  PDict [(k_narrative_chapter, PStr (lit "n1")); (k_image_prompt, PStr (lit "p1"))].

Definition reply_number : pystr :=
  quoted "{'narrative_chapter': 5, 'next_choices': ['a'], 'image_prompt': 'p1'}".

Definition e_number : env := make_env all_keys (GenReply reply_number) image_ok.

Definition w_stuck : world := after e_number (SubmitStart opening) w_start.

Definition reply_word : pystr :=
  quoted "{'narrative_chapter': 'n1', 'next_choices': 'xyz', 'image_prompt': 'p1'}".

Definition reply_five : pystr :=
  quoted "{'narrative_chapter': 'n1', 'next_choices': 5, 'image_prompt': 'p1'}".

Definition w_word : world :=
  after (make_env all_keys (GenReply reply_word) image_ok) (SubmitStart opening) w_start.

Definition w_five : world :=
  after (make_env all_keys (GenReply reply_five) image_ok) (SubmitStart opening) w_start.

Definition rejected : post_outcome :=
  PostResponse 400 (quoted "{'message': 'invalid prompt'}").

Definition e_rejected : env := make_env all_keys (GenReply reply_plain) rejected.

Definition image_rejected :=
  generate_image_stability (load_api_keys e_rejected) e_rejected (PStr (lit "p2")) w_saga.

Definition image_half :=
  generate_image_stability (load_api_keys e_half) e_half (PStr (lit "p1"))
    (put_cache FnStoryChapter (PStr opening) (turn_half, []) w_start).

Definition saga_chapters : list (pyval * pyval) :=
  [(PStr opening, PNone); (PStr (lit "n1"), PImage (lit "QUJD"))].

Definition stuck_chapters : list (pyval * pyval) :=
  [(PStr opening, PNone); (PInt 5, PImage (lit "QUJD"))].

Definition abc : list pyval := [PStr [97]; PStr [98]; PStr [99]].

(** * Part II: proofs *)

(** ** Cleaning a reply *)

(** *** Facts about [str_startswith] and [str_replace] *)

Lemma str_startswith_app p s t :
  str_startswith p s = true -> str_startswith p (s ++ t) = true.
Proof.
  revert s; induction p as [|a p IH]; intros [|b s]; simpl; try done.
  intros [-> H]%andb_true_iff. by rewrite (IH _ H).
Qed.

Lemma str_startswith_length p s :
  str_startswith p s = true -> (length p <= length s)%nat.
Proof.
  revert s; induction p as [|a p IH]; intros [|b s]; simpl; try done; try lia.
  intros [_ H]%andb_true_iff. apply IH in H. lia.
Qed.

Lemma str_replace_from_skip old new k s :
  str_replace_from old new k s = str_replace_from old new 0 (drop k s).
Proof.
  revert k; induction s as [|c s IH]; intros [|k]; simpl; auto.
Qed.

Lemma str_replace_eq old new s :
  old <> [] ->
  str_replace old new s =
    if str_startswith old s
    then new ++ str_replace old new (drop (length old) s)
    else match s with
         | [] => []
         | c :: s' => c :: str_replace old new s'
         end.
Proof.
  destruct old as [|a old]; [done|intros _].
  unfold str_replace. destruct s as [|c s]; [done|].
  cbn [str_replace_from]. destruct (str_startswith (a :: old) (c :: s)); [|done].
  rewrite str_replace_from_skip. cbn [length drop].
  by replace (S (length old) - 1)%nat with (length old) by lia.
Qed.

Lemma str_replace_app_no_straddle old new s t :
  old <> [] -> no_straddle old t ->
  str_replace old new (s ++ t) = str_replace old new s ++ str_replace old new t.
Proof.
  intros Hold Hns. remember (length s) as n eqn:Hn. revert s Hn.
  induction n as [n IH] using lt_wf_ind; intros s Hn.
  rewrite (str_replace_eq old new s Hold).
  destruct (str_startswith old s) eqn:Hp.
  - rewrite (str_replace_eq old new (s ++ t) Hold), (str_startswith_app _ _ _ Hp).
    pose proof (str_startswith_length _ _ Hp) as Hlen.
    rewrite drop_app_le by done.
    rewrite (IH (length (drop (length old) s))); [by rewrite app_assoc| |done].
    rewrite length_drop. destruct old; [done|]. simpl in *. lia.
  - destruct s as [|c s]; [done|].
    rewrite (str_replace_eq old new ((c :: s) ++ t) Hold).
    destruct (str_startswith old ((c :: s) ++ t)) eqn:Hq.
    + apply Hns in Hq; [congruence|done].
    + simpl. f_equal. apply (IH (length s)); [simpl in Hn; lia|done].
Qed.

Lemma str_startswith_nospace_app old u t :
  no_space old -> space_headed t ->
  str_startswith old (u ++ t) = true -> str_startswith old u = true.
Proof.
  intros Ho Ht. revert u. induction Ho as [|a old Ha Ho IH]; [done|].
  intros [|b u]; simpl.
  - destruct t as [|c t]; [done|]. simpl in *.
    destruct (N.eqb_spec a c) as [->|]; [congruence|done].
  - intros [-> H]%andb_true_iff. by rewrite (IH _ H).
Qed.

Lemma all_space_headed w : all_space w -> space_headed w.
Proof. by destruct 1. Qed.

Lemma str_replace_app_space_l old new w s :
  old <> [] -> no_space old -> all_space w ->
  str_replace old new (w ++ s) = w ++ str_replace old new s.
Proof.
  intros Hold Ho. induction 1 as [|c w Hc Hw IH]; [done|].
  rewrite <- app_comm_cons, str_replace_eq by done.
  destruct Ho as [|a old Ha Ho]; [done|]. cbn [str_startswith].
  destruct (N.eqb_spec a c) as [->|]; [congruence|]. cbn [andb app]. by rewrite IH.
Qed.

Lemma str_replace_space old new w :
  old <> [] -> no_space old -> all_space w -> str_replace old new w = w.
Proof.
  intros Hold Ho Hw. rewrite <- (app_nil_r w) at 1.
  rewrite str_replace_app_space_l by done.
  rewrite str_replace_eq by done. destruct old; [done|]. by rewrite app_nil_r.
Qed.

Lemma str_replace_app_space_r old new s w :
  old <> [] -> no_space old -> all_space w ->
  str_replace old new (s ++ w) = str_replace old new s ++ w.
Proof.
  intros Hold Ho Hw. rewrite str_replace_app_no_straddle; [|done|].
  - by rewrite (str_replace_space old new w).
  - intros u _. apply str_startswith_nospace_app; [done|].
    by apply all_space_headed.
Qed.

(** *** The two fence markers *)

Lemma fence_json_nospace : no_space fence_json.
Proof. repeat constructor. Qed.

Lemma fence_nospace : no_space fence.
Proof. repeat constructor. Qed.

Lemma fence_json_nonempty : fence_json <> [].
Proof. done. Qed.

Lemma fence_nonempty : fence <> [].
Proof. done. Qed.

Lemma fence_json_no_straddle_fence : no_straddle fence_json fence.
Proof.
  intros u _ H.
  do 7 (destruct u as [|? u];
        [cbn in H; repeat (apply andb_true_iff in H; destruct H as [? H]);
         discriminate|]).
  exact H.
Qed.

Lemma str_replace_fence_app_fence s :
  str_replace fence [] (s ++ fence) = str_replace fence [] s.
Proof.
  remember (length s) as n eqn:Hn. revert s Hn.
  induction n as [n IH] using lt_wf_ind; intros s Hn.
  rewrite (str_replace_eq fence [] s), (str_replace_eq fence [] (s ++ fence))
    by done.
  cbn [app]. change (length fence) with 3%nat.
  destruct (str_startswith fence s) eqn:Hp.
  - rewrite (str_startswith_app _ _ _ Hp).
    pose proof (str_startswith_length _ _ Hp) as Hlen.
    change (length fence) with 3%nat in Hlen.
    rewrite drop_app_le by done.
    apply (IH (length (drop 3 s))); [|done].
    rewrite length_drop. lia.
  - destruct (str_startswith fence (s ++ fence)) eqn:Hq.
    + destruct s as [|c [|d [|e s]]];
        [done| | |unfold fence in Hp, Hq; cbn [str_startswith app] in Hp, Hq;
                  congruence];
        unfold fence in Hq; cbn [str_startswith app] in Hq; repeat
          (apply andb_true_iff in Hq; destruct Hq as [? Hq]);
        repeat match goal with H : (96 =? _) = true |- _ =>
                 apply N.eqb_eq in H; subst end; reflexivity.
    + destruct s as [|c s]; [discriminate|]. cbn [app]. f_equal.
      apply (IH (length s)); [simpl in Hn; lia|done].
Qed.

(** *** Facts about [str_strip] *)

Lemma str_lstrip_space_app w s : all_space w -> str_lstrip (w ++ s) = str_lstrip s.
Proof.
  induction 1 as [|c w Hc Hw IH]; [done|].
  cbn [app str_lstrip]. by rewrite Hc.
Qed.

Lemma str_lstrip_split s : exists w, all_space w /\ s = w ++ str_lstrip s.
Proof.
  induction s as [|c s (w & Hw & IH)]; [exists []; split; [constructor|done]|].
  simpl. destruct (str_isspace c) eqn:Hc.
  - exists (c :: w). split; [by constructor|]. simpl. by rewrite <- IH.
  - exists []. split; [constructor|done].
Qed.

Lemma str_lstrip_app_space s w :
  all_space w -> exists w', all_space w' /\ str_lstrip (s ++ w) = str_lstrip s ++ w'.
Proof.
  intros Hw. induction s as [|c s IH]; simpl.
  - exists []. split; [constructor|]. by rewrite <- (app_nil_r w), str_lstrip_space_app.
  - destruct (str_isspace c); [done|]. by exists w.
Qed.

Lemma all_space_rev w : all_space w -> all_space (rev w).
Proof. apply Forall_rev. Qed.

Lemma str_rstrip_app_space s w : all_space w -> str_rstrip (s ++ w) = str_rstrip s.
Proof.
  intros Hw. unfold str_rstrip.
  by rewrite rev_app_distr, str_lstrip_space_app by by apply all_space_rev.
Qed.

Lemma str_rstrip_split s : exists w, all_space w /\ s = str_rstrip s ++ w.
Proof.
  destruct (str_lstrip_split (rev s)) as (w & Hw & E).
  exists (rev w). split; [by apply all_space_rev|].
  unfold str_rstrip. by rewrite <- rev_app_distr, <- E, rev_involutive.
Qed.

Lemma str_strip_space_app w1 s w2 :
  all_space w1 -> all_space w2 -> str_strip (w1 ++ s ++ w2) = str_strip s.
Proof.
  intros H1 H2. unfold str_strip. rewrite str_lstrip_space_app by done.
  destruct (str_lstrip_app_space s w2 H2) as (w' & Hw' & ->).
  by apply str_rstrip_app_space.
Qed.

Lemma str_strip_split s :
  exists w1 w2, all_space w1 /\ all_space w2 /\ s = w1 ++ str_strip s ++ w2.
Proof.
  destruct (str_lstrip_split s) as (w1 & H1 & E1).
  destruct (str_rstrip_split (str_lstrip s)) as (w2 & H2 & E2).
  exists w1, w2. repeat split; [done..|]. unfold str_strip. by rewrite <- E2.
Qed.

Lemma str_strip_fenced t :
  str_strip (fence_json ++ t ++ fence) = fence_json ++ t ++ fence.
Proof.
  unfold str_strip. change (str_lstrip (fence_json ++ t ++ fence))
    with (fence_json ++ t ++ fence).
  unfold str_rstrip.
  rewrite <- (rev_involutive (fence_json ++ t ++ fence)) at 2. f_equal.
  by rewrite !rev_app_distr.
Qed.

Create HintDb fences.

Local Hint Resolve fence_json_nospace fence_nospace fence_json_nonempty
  fence_nonempty fence_json_no_straddle_fence : fences.

Lemma strip_fences_space w1 s w2 :
  all_space w1 -> all_space w2 ->
  strip_fences (w1 ++ s ++ w2) = w1 ++ strip_fences s ++ w2.
Proof.
  intros H1 H2. unfold strip_fences.
  rewrite (str_replace_app_space_l fence_json) by auto with fences.
  rewrite (str_replace_app_space_r fence_json) by auto with fences.
  rewrite (str_replace_app_space_l fence) by auto with fences.
  by rewrite (str_replace_app_space_r fence) by auto with fences.
Qed.

Lemma clean_reply_strip_fences text :
  clean_reply text = str_strip (strip_fences text).
Proof.
  unfold clean_reply. fold (strip_fences (str_strip text)).
  destruct (str_strip_split text) as (w1 & w2 & H1 & H2 & E).
  rewrite E at 2. by rewrite strip_fences_space, str_strip_space_app.
Qed.

Lemma str_replace_fence_tail y w :
  all_space w -> str_replace fence [] (y ++ w ++ fence) = str_replace fence [] y ++ w.
Proof.
  intros Hw. destruct Hw as [|c w Hc Hw].
  - rewrite app_nil_r. apply str_replace_fence_app_fence.
  - rewrite (str_replace_app_no_straddle fence); [|done|].
    + f_equal. rewrite (str_replace_app_space_l fence);
        [by rewrite app_nil_r|auto with fences..|by constructor].
    + intros u _. apply str_startswith_nospace_app; [apply fence_nospace|done].
Qed.

Lemma clean_reply_fenced w1 w2 w3 w4 raw :
  all_space w1 -> all_space w2 -> all_space w3 -> all_space w4 ->
  clean_reply (fenced w1 w2 w3 w4 raw) = clean_reply raw.
Proof.
  intros H1 H2 H3 H4. unfold clean_reply at 1, fenced.
  replace (w1 ++ fence_json ++ w2 ++ raw ++ w3 ++ fence ++ w4)
    with (w1 ++ (fence_json ++ (w2 ++ raw ++ w3) ++ fence) ++ w4)
    by (by rewrite <- !app_assoc).
  rewrite str_strip_space_app, str_strip_fenced by done.
  rewrite (str_replace_eq fence_json) by done.
  rewrite (str_startswith_app fence_json fence_json) by done.
  rewrite drop_app_length. cbn [app].
  rewrite (str_replace_app_no_straddle fence_json) by auto with fences.
  change (str_replace fence_json [] fence) with fence.
  rewrite (str_replace_app_space_l fence_json) by auto with fences.
  rewrite (str_replace_app_space_r fence_json) by auto with fences.
  rewrite <- !app_assoc.
  rewrite (str_replace_app_space_l fence) by auto with fences.
  rewrite str_replace_fence_tail by done.
  fold (strip_fences raw).
  by rewrite str_strip_space_app, clean_reply_strip_fences.
Qed.

(** ** Logs and the monad *)

(** *** Logs *)

Lemma calls_app t1 t2 : calls (t1 ++ t2) = calls t1 ++ calls t2.
Proof. apply omap_app. Qed.
Lemma returns_app t1 t2 : returns (t1 ++ t2) = returns t1 ++ returns t2.
Proof. apply omap_app. Qed.
Lemma generations_app t1 t2 :
  generations (t1 ++ t2) = generations t1 ++ generations t2.
Proof. apply omap_app. Qed.

Lemma calls_cons l t :
  calls (l :: t) =
  match l with CallChapter c b u => [(c, b, u)] | _ => [] end ++ calls t.
Proof. by destruct l. Qed.
Lemma returns_cons l t :
  returns (l :: t) = match l with ReturnChapter v => [v] | _ => [] end ++ returns t.
Proof. by destruct l. Qed.
Lemma generations_cons l t :
  generations (l :: t) =
  match l with Generate p o => [(p, o)] | _ => [] end ++ generations t.
Proof. by destruct l. Qed.

Lemma calls_ui els : calls (Ui <$> els) = [].
Proof. induction els; naive_solver. Qed.
Lemma returns_ui els : returns (Ui <$> els) = [].
Proof. induction els; naive_solver. Qed.
Lemma generations_ui els : generations (Ui <$> els) = [].
Proof. induction els; naive_solver. Qed.

Lemma calls_nil : calls [] = [].
Proof. done. Qed.
Lemma returns_nil : returns [] = [].
Proof. done. Qed.
Lemma generations_nil : generations [] = [].
Proof. done. Qed.

Global Opaque calls returns generations.

Create Rewrite HintDb log.
Hint Rewrite calls_app returns_app generations_app calls_cons returns_cons
  generations_cons calls_ui returns_ui generations_ui calls_nil returns_nil
  generations_nil : log.

Ltac log_simpl := autorewrite with log in *; cbn [app] in *.

Lemma drawing_nil : drawing [].
Proof. done. Qed.

Lemma drawing_app t1 t2 : drawing t1 -> drawing t2 -> drawing (t1 ++ t2).
Proof.
  intros (H1 & H2 & H3) (H4 & H5 & H6). unfold drawing.
  autorewrite with log. by rewrite H1, H2, H3, H4, H5, H6.
Qed.

Lemma drawing_ui els : drawing (Ui <$> els).
Proof. unfold drawing. by log_simpl. Qed.

Lemma drawing_one el : drawing [Ui el].
Proof. apply (drawing_ui [el]). Qed.

(** *** Inversion of a run, step by step *)

Lemma bind_inv {A B} (m : M A) (f : A -> M B) w r w' t :
  (m ≫= f) w = (r, w', t) ->
  (exists s, m w = (Throw s, w', t) /\ r = Throw s) \/
  (exists a w1 t1 t2, m w = (Ret a, w1, t1) /\ f a w1 = (r, w', t2) /\ t = t1 ++ t2).
Proof.
  unfold mbind, M_bind. destruct (m w) as [[[a|s] w1] t1].
  - destruct (f a w1) as [[r2 w2] t2] eqn:E. intros [= <- <- <-]. right. eauto 10.
  - intros [= <- <- <-]. left. eauto.
Qed.

Lemma lift_inv {A} (x : exn + A) w r w' t :
  lift x w = (r, w', t) ->
  w' = w /\ t = [] /\
  match x with inr a => r = Ret a | inl e => r = Throw (Raise e) end.
Proof. destruct x; by intros [= <- <- <-]. Qed.

Lemma get_attr_inv name w r w' t :
  get_attr name w = (r, w', t) ->
  w' = w /\ t = [] /\
  match session w !! name with
  | Some v => r = Ret v
  | None => r = Throw (Raise (AttributeError name))
  end.
Proof. unfold get_attr. destruct (session w !! name); by intros [= <- <- <-]. Qed.

Lemma set_attr_inv name v w r w' t :
  set_attr name v w = (r, w', t) ->
  r = Ret tt /\ w' = with_session (insert name v) w /\ t = [].
Proof. by intros [= <- <- <-]. Qed.

Lemma throw_inv {A} s w (r : result A) w' t :
  throw s w = (r, w', t) -> r = Throw s /\ w' = w /\ t = [].
Proof. by intros [= <- <- <-]. Qed.

(** Split the first bind of the run in hypothesis [H]: either its first part
    throws, or it returns [a] in world [w1] after logging [t1] and the rest
    logs [t2]. *)
Tactic Notation "step" hyp(H) "as" ident(a) ident(w1) ident(t1) ident(Hm) :=
  let s := fresh "s" in
  let t2 := fresh "rest" in
  let Hthrow := fresh "Hthrow" in
  apply bind_inv in H;
  destruct H as [(s & Hm & Hthrow) | (a & w1 & t1 & t2 & Hm & H & ->)];
  [ lazymatch type of Hthrow with
    | Ret _ = Throw _ => discriminate Hthrow
    | Throw _ = Throw _ => injection Hthrow as Hthrow; subst s
    | ?r = _ => subst r
    end
  | ].

Tactic Notation "step" hyp(H) "as" ident(a) ident(w1) ident(t1) ident(Hm)
    "rest" ident(t2) :=
  let s := fresh "s" in
  let Hthrow := fresh "Hthrow" in
  apply bind_inv in H;
  destruct H as [(s & Hm & Hthrow) | (a & w1 & t1 & t2 & Hm & H & ->)];
  [ lazymatch type of Hthrow with
    | Ret _ = Throw _ => discriminate Hthrow
    | Throw _ = Throw _ => injection Hthrow as Hthrow; subst s
    | ?r = _ => subst r
    end
  | ].

(** ** The helper functions and the turns *)

(** *** Helpers that leave the session alone *)

Lemma configure_inv e w r w' t :
  configure e w = (r, w', t) ->
  w' = w /\ drawing t /\
  (r = Ret (load_api_keys e) /\ key_set (GOOGLE_API_KEY (load_api_keys e)) = true \/
   r = Throw Stop /\ key_set (GOOGLE_API_KEY (load_api_keys e)) = false /\
   t = [Ui (StError GoogleKeyNotFound)]).
Proof.
  unfold configure.
  destruct (key_set (GOOGLE_API_KEY _)), (key_set (ELEVENLABS_API_KEY _));
    intros [= <- <- <-]; repeat split; auto.
Qed.

Lemma audio_inv keys e text w r w' t :
  generate_and_play_audio keys e text w = (r, w', t) ->
  r = Ret tt /\ w' = w /\ drawing t.
Proof.
  unfold generate_and_play_audio.
  destruct (negb _); [by intros [= <- <- <-]|].
  destruct (text_to_speech e text); [by intros [= <- <- <-]|].
  destruct (music_exists e); by intros [= <- <- <-].
Qed.

Lemma cache_inv f key body w r w' t :
  st_cache_data f key body w = (r, w', t) ->
  (exists v els, cache_get key (get_cache f w) = Some (v, els) /\
                 r = Ret v /\ w' = w /\ t = Ui <$> els) \/
  (cache_get key (get_cache f w) = None /\
   exists r1 w1, body w = (r1, w1, t) /\ r = r1 /\
     match r1 with
     | Ret v => w' = put_cache f key (v, elements_of t) w1
     | Throw _ => w' = w1
     end).
Proof.
  unfold st_cache_data. destruct (cache_get key _) as [[v els]|].
  - intros [= <- <- <-]. left. by exists v, els.
  - destruct (body w) as [[[v|s] w1] t1]; intros [= <- <- <-]; right;
      (split; [done|]); eexists _, _; eauto.
Qed.

Lemma session_put_cache f key x w : session (put_cache f key x w) = session w.
Proof. by destruct f. Qed.

Lemma image_body_inv keys e p w r w' t :
  image_body keys e p w = (r, w', t) -> w' = w /\ drawing t.
Proof.
  unfold image_body. destruct (negb _); [by intros [= <- <- <-]|].
  destruct (image_try e p) as [x|img]; [|by intros [= <- <- <-]].
  destruct x; try by intros [= <- <- <-].
  destruct (Json.loads body); by intros [= <- <- <-].
Qed.

Lemma image_inv keys e p w r w' t :
  generate_image_stability keys e p w = (r, w', t) ->
  session w' = session w /\ drawing t.
Proof.
  intros [(v & els & _ & -> & -> & ->)|(_ & r1 & w1 & Hb & -> & Hw)]%cache_inv.
  - split; [done|apply drawing_ui].
  - apply image_body_inv in Hb as [-> Ht]. split; [|done].
    destruct r1; subst; [apply session_put_cache|done].
Qed.

Lemma chapter_body_eq e c b u w :
  chapter_body e c b u w =
    let p := Prompt u c b in
    let o := generate_content e p in
    (chapter_result o, w, Generate p o :: (Ui <$> chapter_elements o)).
Proof.
  unfold chapter_body, chapter_result, chapter_elements, chapter_try. cbn zeta.
  destruct (generate_content e _) as [x| |text]; try reflexivity.
  by destruct (parse_reply text).
Qed.

Lemma elements_of_ui els : elements_of (Ui <$> els) = els.
Proof. unfold elements_of. induction els; [done|]. simpl. by f_equal. Qed.

Lemma chapter_inv e c b u w r w' t :
  generate_story_chapter e c b u w = (r, w', t) ->
  session w' = session w /\ calls t = [(c, b, u)] /\
  returns t = match r with Ret v => [v] | Throw _ => [] end /\
  (forall p o, (p, o) ∈ generations t ->
     p = Prompt u c b /\ o = generate_content e p /\
     cache_get u (chapter_cache w) = None /\ r = chapter_result o) /\
  match r with Ret _ => True | Throw s => exists x, s = Raise x end /\
  image_cache w' = image_cache w.
Proof.
  unfold generate_story_chapter. intros H.
  step H as u1 w1 t1 Hm; [by inversion Hm|]. injection Hm as <- <- <-.
  step H as v w2 t3 Hm.
  - apply cache_inv in Hm as [(v & els & _ & [=] & _)|(Hc & r1 & w1 & Hb & <- & Hw)].
    rewrite chapter_body_eq in Hb. injection Hb as Hr <- <-. subst.
    log_simpl. repeat split; try done.
    all: try (apply list_elem_of_singleton in H; by simplify_eq).
    destruct (generate_content e _); naive_solver.
  - step H as u2 w3 t5 Hm0; [by inversion Hm0|]. injection Hm0 as <- <- <-.
    injection H as <- <- <-.
    apply cache_inv in Hm as [(v' & els & _ & [= ->] & -> & ->)|(Hc & r1 & w1 & Hb & <- & Hw)].
    + log_simpl. repeat split; try done; by apply elem_of_nil in H.
    + rewrite chapter_body_eq in Hb. injection Hb as Hr <- <-. subst.
      rewrite session_put_cache. log_simpl. repeat split; try done.
      all: try (apply list_elem_of_singleton in H; by simplify_eq).
Qed.

(** *** The transcript joined into the story context *)

Lemma map_m_inr {A B} (f : A -> exn + B) items vs :
  map_m f items = inr vs -> Forall2 (fun x y => f x = inr y) items vs.
Proof.
  revert vs. induction items as [|x items IH]; intros vs; simpl.
  - intros [= <-]. constructor.
  - destruct (f x) as [?|y] eqn:Hx; [done|].
    destruct (map_m f items) as [?|ys]; [done|].
    intros [= <-]. constructor; auto.
Qed.

Lemma all_str_Some items l : all_str items = Some l -> items = PStr <$> l.
Proof.
  revert l. induction items as [|x items IH]; intros l; simpl.
  - by intros [= <-].
  - destruct x; try done. destruct (all_str items) as [l'|]; [|done].
    intros [= <-]. simpl. f_equal. by apply IH.
Qed.

Lemma joined_story_inv w r w' t :
  joined_story w = (r, w', t) ->
  w' = w /\ t = [] /\
  ((exists x, r = Throw (Raise x)) \/ (exists ctx, r = Ret ctx /\ joined (session w) ctx)).
Proof.
  unfold joined_story. intros H.
  step H as chapters wd1 tr1 Hm; apply get_attr_inv in Hm as (-> & -> & Hr);
    destruct (session w !! "story_chapters") eqn:Hc;
    simplify_eq; [naive_solver|].
  step H as items wd2 tr2 Hm; apply lift_inv in Hm as (-> & -> & Hr);
    destruct (py_iter _) eqn:Hi; simplify_eq; [naive_solver|].
  step H as vs wd3 tr3 Hm; apply lift_inv in Hm as (-> & -> & Hr);
    destruct (map_m _ _) eqn:Hv; simplify_eq; [naive_solver|].
  apply lift_inv in H as (-> & -> & Hr). split; [done|split; [done|]].
  unfold py_join in Hr. destruct (all_str _) as [texts|] eqn:Hl; [|naive_solver].
  right. eexists. split; [done|]. eexists _, _, texts.
  apply all_str_Some in Hl as ->. apply map_m_inr in Hv.
  repeat split; try done. by apply Forall2_fmap_r in Hv.
Qed.

Lemma append_attr_inv name x w r w' t :
  append_attr name x w = (r, w', t) ->
  t = [] /\
  ((exists e, r = Throw (Raise e) /\ w' = w) \/
   (exists items v, session w !! name = Some (PList items) /\ x = inr v /\
      r = Ret tt /\ w' = with_session (insert name (PList (items ++ [v]))) w)).
Proof.
  unfold append_attr. intros H.
  step H as l wd4 tr4 Hm; apply get_attr_inv in Hm as (-> & -> & Hr);
    destruct (session w !! name) eqn:Hl; simplify_eq; [naive_solver|].
  match type of H with context [match ?v with _ => _ end] => destruct v end;
    try (apply throw_inv in H as (-> & -> & ->); naive_solver).
  step H as v wd5 tr5 Hm; apply lift_inv in Hm as (-> & -> & Hr);
    destruct x; simplify_eq; [naive_solver|].
  apply set_attr_inv in H as (-> & -> & ->).
  split; [done|]. right. by eexists _, _.
Qed.

Lemma chapter_result_failed o :
  generation_failed o ->
  match chapter_result o with Ret v => v = PNone | Throw _ => True end.
Proof. destruct o as [| |text]; simpl; try done. by intros ->. Qed.

Lemma image_raises keys e p w s w' t :
  generate_image_stability keys e p w = (Throw s, w', t) -> exists x, s = Raise x.
Proof.
  intros [(v & els & _ & [=] & _)|(_ & r1 & w1 & Hb & <- & _)]%cache_inv.
  revert Hb. unfold image_body. destruct (negb _); [done|].
  destruct (image_try e p) as [x|img]; [|done].
  destruct x; try done. destruct (Json.loads body); [done|].
  intros [= <- <- <-]. eauto.
Qed.

Lemma turn_facts_raise e w ctx uc ai tg pre stage' x w' t' :
  call_facts e w ctx uc ai tg -> drawing t' -> 
  choices_of w' = choices_of w -> stage_of w' = stage_of w ->
  turn_facts e w ctx uc pre stage' (Throw (Raise x)) w' (tg ++ t').
Proof.
  intros [(wb & Hwb & Hc) Hr Hg] (Hd1 & Hd2 & Hd3) Hch Hst.
  split; log_simpl; rewrite ?Hd1, ?Hd2, ?Hd3, ?app_nil_r; try done.
  - right. eauto.
  - intros p o Hin Hf. by destruct (Hg p o Hin) as (_ & _ & []).
  - intros p o Hin. by destruct (Hg p o Hin) as (? & ? & _).
Qed.

Lemma turn_facts_rerun e w ctx uc ai tg pre stage' w' t' c items tx img :
  call_facts e w ctx uc ai tg -> drawing t' -> truthy ai = true ->
  subscript ai k_next_choices = inr c ->
  subscript ai k_narrative_chapter = inr tx ->
  chapters_of w = Some (PList items) ->
  chapters_of w' = Some (PList (items ++ pre ++ [chapter tx img])) ->
  choices_of w' = Some c -> stage_of w' = stage' ->
  turn_facts e w ctx uc pre stage' (Throw Rerun) w' (tg ++ t').
Proof.
  intros [(wb & Hwb & Hc) Hr Hg] (Hd1 & Hd2 & Hd3) Hai Hnc Htx Hch Hch' Hco Hst.
  split; log_simpl; rewrite ?Hd1, ?Hd2, ?Hd3, ?app_nil_r; try done.
  - right. eauto.
  - intros p o Hin Hf. by destruct (Hg p o Hin) as (_ & _ & []).
  - intros p o Hin. by destruct (Hg p o Hin) as (? & ? & _).
  - intros _. by exists ai, c, items, tx, img.
Qed.

(** The call of [generate_story_chapter] that opens a turn: either the turn
    is over without entering the [if ai_response:] block, or the block is
    entered with a truthy reply. *)
Lemma turn_call_inv e ctx wb uc w rg w1 tg pre stage' :
  session w !! "world_bible" = Some wb ->
  generate_story_chapter e ctx wb uc w = (rg, w1, tg) ->
  session w1 = session w /\
  match rg with
  | Throw s => turn_facts e w ctx uc pre stage' (Throw s) w1 tg
  | Ret ai =>
      if truthy ai then call_facts e w ctx uc ai tg
      else turn_facts e w ctx uc pre stage' (Ret tt) w1 tg
  end.
Proof.
  intros Hwb (Hs & Hc & Hret & Hg & Hx & _)%chapter_inv. split; [done|].
  assert (Hgen : forall p o, (p, o) ∈ generations tg ->
                 cache_get uc (chapter_cache w) = None /\ o = generate_content e p).
  { intros p o Hin. by destruct (Hg p o Hin) as (-> & -> & ? & ?). }
  assert (Hkeep : choices_of w1 = choices_of w /\ stage_of w1 = stage_of w).
  { unfold choices_of, stage_of. by rewrite Hs. }
  destruct rg as [ai|s].
  - destruct (truthy ai) eqn:Hai.
    + split; [eauto|done|]. intros p o Hin. destruct (Hg p o Hin) as (_ & -> & ? & Hr).
      repeat split; try done. intros Hf%chapter_result_failed.
      rewrite <- Hr in Hf. by subst.
    + split; try done. right. eauto.
  - destruct Hx as (x & ->). split; try done. right. eauto.
Qed.

Lemma keep_session w w' :
  session w' = session w ->
  choices_of w' = choices_of w /\ stage_of w' = stage_of w.
Proof. intros Hs. unfold choices_of, stage_of. by rewrite Hs. Qed.

Lemma choice_turn_inv keys e uc w r w' t :
  choice_turn keys e uc w = (r, w', t) ->
  (exists x, r = Throw (Raise x) /\ session w' = session w /\ t = []) \/
  (exists ctx, joined (session w) ctx /\
               turn_facts e w ctx uc [] (stage_of w) r w' t).
Proof.
  unfold choice_turn. intros H.
  step H as ctx wd1 tr1 Hm;
    apply joined_story_inv in Hm as (-> & -> & [(x & [= ->])|(ctx' & [= <-] & Hj)]);
    [left; eauto|].
  step H as wb wd2 tr2 Hm; apply get_attr_inv in Hm as (-> & -> & Hr);
    destruct (session w !! "world_bible") as [wb'|] eqn:Hwb;
    try discriminate Hr; injection Hr as ?; subst; [left; eauto|].
  right. exists ctx. split; [done|]. cbn [app].
  step H as ai wd3 tg Hm;
    apply (turn_call_inv _ _ _ _ _ _ _ _ [] (stage_of w) Hwb) in Hm as (Hs & Hm);
    [done|].
  destruct (truthy ai) eqn:Hai; [|injection H as <- <- <-; by rewrite app_nil_r].
  step H as p wd4 tr4 Hm'; apply lift_inv in Hm' as (-> & -> & Hr);
    destruct (subscript ai k_image_prompt) as [|p'] eqn:Hp;
    try discriminate Hr; injection Hr as ?; subst.
  { destruct (keep_session _ _ Hs). by apply (turn_facts_raise _ _ _ _ ai). }
  step H as img wd5 ti Hm'.
  { destruct (image_raises _ _ _ _ _ _ _ Hm') as (x & ->).
    apply image_inv in Hm' as (Hs2 & Hd). cbn [app].
    destruct (keep_session w w'); [congruence|]. by apply (turn_facts_raise _ _ _ _ ai). }
  apply image_inv in Hm' as (Hs2 & Hd). rewrite Hs in Hs2.
  step H as u wd6 tr6 Hm';
    apply append_attr_inv in Hm'
      as (-> & [(x & [= ->] & ->)|(items & ch & Hit & Hch & [= ] & ->)]).
  { destruct (keep_session _ _ Hs2). apply (turn_facts_raise _ _ _ _ ai); try done.
    cbn [app]. by rewrite app_nil_r. }
  destruct (subscript ai k_narrative_chapter) as [|tx] eqn:Htx; [done|].
  injection Hch as <-.
  step H as c wd7 tr7 Hm'; apply lift_inv in Hm' as (-> & -> & Hr);
    destruct (subscript ai k_next_choices) as [|c'] eqn:Hnc;
    try discriminate Hr; injection Hr as ?; subst.
  { apply (turn_facts_raise _ _ _ _ ai); try done.
    - cbn [app]. by rewrite app_nil_r.
    - unfold choices_of. cbn. rewrite lookup_insert_ne by done. by rewrite Hs2.
    - unfold stage_of. cbn. rewrite lookup_insert_ne by done. by rewrite Hs2. }
  step H as u wd8 tr8 Hm'; apply set_attr_inv in Hm' as (? & -> & ->);
    [done|].
  step H as tx' wd9 tr9 Hm'; apply lift_inv in Hm' as (-> & -> & Hr);
    try discriminate Hr; injection Hr as ?; subst.
  step H as u' wd10 ta Hm'; apply audio_inv in Hm' as (? & -> & Hda);
    [done|].
  apply throw_inv in H as (-> & -> & ->). cbn [app]. rewrite app_nil_r.
  apply (turn_facts_rerun _ _ _ _ ai _ _ _ _ _ c' items tx img); try done.
  - by apply drawing_app.
  - unfold chapters_of. by rewrite <- Hs2.
  - unfold chapters_of. cbn. rewrite lookup_insert_ne by done.
    by rewrite lookup_insert_eq.
  - unfold choices_of. cbn. by rewrite lookup_insert_eq.
  - unfold stage_of. cbn. rewrite !lookup_insert_ne by done. by rewrite Hs2.
Qed.

Lemma start_story_turn_inv keys e ip w r w' t :
  start_story_turn keys e ip w = (r, w', t) ->
  (exists x, r = Throw (Raise x) /\ session w' = session w /\ t = []) \/
  turn_facts e w (PStr ip) (PStr ip) [chapter (PStr ip) PNone]
    (Some (PStr story_cycle)) r w' t.
Proof.
  unfold start_story_turn. intros H.
  step H as wb wd2 tr2 Hm; apply get_attr_inv in Hm as (-> & -> & Hr);
    destruct (session w !! "world_bible") as [wb'|] eqn:Hwb;
    try discriminate Hr; injection Hr as ?; subst; [left; eauto|].
  right. cbn [app].
  step H as ai wd3 tg Hm;
    apply (turn_call_inv _ _ _ _ _ _ _ _ [chapter (PStr ip) PNone]
             (Some (PStr story_cycle)) Hwb) in Hm as (Hs & Hm);
    [done|].
  destruct (truthy ai) eqn:Hai; [|injection H as <- <- <-; by rewrite app_nil_r].
  step H as p wd4 tr4 Hm'; apply lift_inv in Hm' as (-> & -> & Hr);
    destruct (subscript ai k_image_prompt) as [|p'] eqn:Hp;
    try discriminate Hr; injection Hr as ?; subst.
  { destruct (keep_session _ _ Hs). by apply (turn_facts_raise _ _ _ _ ai). }
  step H as img wd5 ti Hm'.
  { destruct (image_raises _ _ _ _ _ _ _ Hm') as (x & ->).
    apply image_inv in Hm' as (Hs2 & Hd). cbn [app].
    destruct (keep_session w w'); [congruence|]. by apply (turn_facts_raise _ _ _ _ ai). }
  apply image_inv in Hm' as (Hs2 & Hd). rewrite Hs in Hs2.
  step H as u wd6 tr6 Hm';
    apply append_attr_inv in Hm'
      as (-> & [(x & [= ->] & ->)|(items & ch & Hit & [= <-] & [= ] & ->)]).
  { destruct (keep_session _ _ Hs2). apply (turn_facts_raise _ _ _ _ ai); try done.
    cbn [app]. by rewrite app_nil_r. }
  step H as u' wd7 tr7 Hm';
    apply append_attr_inv in Hm'
      as (-> & [(x & [= ->] & ->)|(items' & ch & Hit' & Hch & [= ] & ->)]).
  { apply (turn_facts_raise _ _ _ _ ai); try done.
    - cbn [app]. by rewrite app_nil_r.
    - unfold choices_of. cbn. rewrite lookup_insert_ne by done. by rewrite Hs2.
    - unfold stage_of. cbn. rewrite lookup_insert_ne by done. by rewrite Hs2. }
  cbn in Hit'. rewrite lookup_insert_eq in Hit'. injection Hit' as <-.
  destruct (subscript ai k_narrative_chapter) as [|tx] eqn:Htx; [done|].
  injection Hch as <-.
  step H as c wd8 tr8 Hm'; apply lift_inv in Hm' as (-> & -> & Hr);
    destruct (subscript ai k_next_choices) as [|c'] eqn:Hnc;
    try discriminate Hr; injection Hr as ?; subst.
  { apply (turn_facts_raise _ _ _ _ ai); try done.
    - cbn [app]. by rewrite app_nil_r.
    - unfold choices_of. cbn. rewrite !lookup_insert_ne by done. by rewrite Hs2.
    - unfold stage_of. cbn. rewrite !lookup_insert_ne by done. by rewrite Hs2. }
  step H as u2 wd9 tr9 Hm'; apply set_attr_inv in Hm' as (? & -> & ->);
    [done|].
  step H as u3 wd10 tr10 Hm'; apply set_attr_inv in Hm' as (? & -> & ->);
    [done|].
  apply throw_inv in H as (-> & -> & ->). cbn [app]. rewrite app_nil_r.
  apply (turn_facts_rerun _ _ _ _ ai _ _ _ _ _ c' items tx img); try done.
  - unfold chapters_of. by rewrite <- Hs2.
  - unfold chapters_of. cbn. rewrite !lookup_insert_ne by done.
    rewrite lookup_insert_eq. by rewrite <- app_assoc.
  - unfold choices_of. cbn. rewrite lookup_insert_ne by done.
    by rewrite lookup_insert_eq.
  - unfold stage_of. cbn. by rewrite lookup_insert_eq.
Qed.

(** *** The stages and the whole script *)

Lemma same_saga_refl s : same_saga s s.
Proof. done. Qed.

Lemma same_saga_eq s s' : s' = s -> same_saga s s'.
Proof. by intros ->. Qed.

Lemma same_saga_radio s c : same_saga s (<["choice_radio" := c]> s).
Proof. repeat split; by rewrite lookup_insert_ne. Qed.

Lemma same_saga_joined s s' ctx : same_saga s s' -> joined s' ctx -> joined s ctx.
Proof.
  intros (_ & _ & Hc & _) (chapters & items & texts & H1 & H2).
  exists chapters, items, texts. by rewrite <- Hc.
Qed.

Lemma init_session_eq w : init_session w = (Ret tt, after_init w, []).
Proof.
  unfold init_session, after_init, mbind, M_bind, has_attr.
  destruct (session w !! "app_stage") eqn:Hs.
  - rewrite bool_decide_eq_true_2 by eauto. done.
  - rewrite bool_decide_eq_false_2 by (by intros [? ?]). done.
Qed.

Lemma render_chapter_inv ch w r w' t :
  render_chapter ch w = (r, w', t) ->
  w' = w /\ drawing t /\ (r = Ret tt \/ exists x, r = Throw (Raise x)).
Proof.
  unfold render_chapter. intros H.
  step H as img wd2 tr2 Hm; apply lift_inv in Hm as (-> & -> & Hr);
    destruct (subscript ch k_image) as [|img'];
    try discriminate Hr; injection Hr as ?; subst;
    [split; [done|split; [apply drawing_nil|eauto]]|].
  step H as u2 wd3 tr3 Hm; [destruct (truthy img'); by inversion Hm|].
  assert (wd3 = w /\ drawing tr3) as (-> & Hd).
  { destruct (truthy img'); injection Hm as <- <- <-; split; auto.
    - apply drawing_one.
    - apply drawing_nil. }
  clear Hm.
  step H as tx wd4 tr4 Hm; apply lift_inv in Hm as (-> & -> & Hr);
    destruct (subscript ch k_text) as [|tx'];
    try discriminate Hr; injection Hr as ?; subst.
  - cbn [app]. rewrite app_nil_r. eauto 10.
  - injection H as <- <- <-. cbn [app]. split; [done|]. split; [|by left].
    apply drawing_app; [done|apply drawing_one].
Qed.

Lemma render_inv items w r w' t :
  for_each items render_chapter w = (r, w', t) ->
  w' = w /\ drawing t /\ (r = Ret tt \/ exists x, r = Throw (Raise x)).
Proof.
  revert w r w' t. induction items as [|ch items IH]; intros w r w' t H.
  { injection H as <- <- <-. repeat split; auto. }
  cbn [for_each] in H.
  step H as u wd1 tr1 Hm; apply render_chapter_inv in Hm as (-> & Hd & Hr).
  - destruct Hr as [?|?]; [done|eauto].
  - apply IH in H as (-> & Hd2 & Hr'). split; [done|]. split; [|done].
    by apply drawing_app.
Qed.

Lemma has_attr_inv name w r w' t :
  has_attr name w = (r, w', t) ->
  w' = w /\ t = [] /\ r = Ret (bool_decide (is_Some (session w !! name))).
Proof. by intros [= <- <- <-]. Qed.

Create HintDb runs.

Local Hint Resolve drawing_nil drawing_app drawing_one same_saga_refl
  same_saga_radio : runs.

Ltac idle :=
  left; cbn [app session with_session]; rewrite ?app_nil_r;
  split; [by auto with runs|split; [by auto with runs|eauto]].

Lemma story_cycle_stage_inv keys e ev w r w' t :
  story_cycle_stage keys e ev w = (r, w', t) ->
  (drawing t /\ same_saga (session w) (session w') /\
   (r = Ret tt \/ exists x, r = Throw (Raise x))) \/
  (exists i c wc t0 tt,
     ev = SubmitChoice i /\ same_saga (session w) (session wc) /\
     chapter_cache wc = chapter_cache w /\ drawing t0 /\
     choice_turn keys e c wc = (r, w', tt) /\ t = t0 ++ tt).
Proof.
  unfold story_cycle_stage. intros H.
  step H as chapters wd1 tr1 Hm; apply get_attr_inv in Hm as (-> & -> & Hr);
    destruct (session w !! "story_chapters") as [chapters'|] eqn:Hch;
    try discriminate Hr; injection Hr as ?; subst; [idle|].
  step H as items wd2 tr2 Hm; apply lift_inv in Hm as (-> & -> & Hr);
    destruct (py_iter chapters') as [|items'];
    try discriminate Hr; injection Hr as ?; subst; [idle|].
  step H as u wd3 tr3 Hm; apply render_inv in Hm as (-> & Hd & Hr); [idle|].
  clear Hr. cbn [app].
  step H as u' wd4 tr4 Hm.
  { destruct (truthy chapters'); [|by inversion Hm].
    step Hm as full wd5 tr5 Hm';
      apply joined_story_inv in Hm' as (-> & -> & [(x & [= ->])|(ctx' & [= <-] & Hj)]);
      [idle|].
    destruct ev; try by inversion Hm.
    by apply audio_inv in Hm as ([=] & _). }
  assert (wd4 = w /\ drawing tr4) as (-> & Hd4).
  { destruct (truthy chapters'); [|injection Hm as _ <- <-; by split].
    step Hm as full wd5 tr5 Hm';
      apply joined_story_inv in Hm' as (-> & -> & [(x & [= ->])|(ctx' & [= <-] & Hj)]).
    destruct ev; try (injection Hm as _ <- <-; by split).
    apply audio_inv in Hm as (_ & -> & ?). by split. }
  clear Hm.
  step H as present wd6 tr6 Hm; apply has_attr_inv in Hm as (-> & -> & Hr);
    try discriminate Hr; injection Hr as ?; subst.
  cbn [app]. case_bool_decide as Hp; [|injection H as <- <- <-; idle].
  step H as latest wd7 tr7 Hm; apply get_attr_inv in Hm as (-> & -> & Hr);
    destruct (session w !! "latest_choices") as [latest'|] eqn:Hl;
    try discriminate Hr; injection Hr as ?; subst; [by destruct Hp|].
  cbn [app]. destruct (truthy latest'); [|injection H as <- <- <-; idle].
  step H as options wd8 tr8 Hm; apply lift_inv in Hm as (-> & -> & Hr);
    destruct (radio_options latest') as [|options'];
    try discriminate Hr; injection Hr as ?; subst; [idle|].
  cbn [app].
  step H as u2 wd9 tr9 Hm; apply set_attr_inv in Hm as (? & -> & ->); [done|].
  cbn [app]. rewrite app_assoc.
  destruct ev as [| | | |i|]; try (injection H as <- <- <-; idle).
  right. eexists i, _, _, _, _. split; [done|].
  split; [|split; [|split; [|split; [exact H|done]]]];
    [apply same_saga_radio|done|by apply drawing_app].
Qed.

Lemma world_bible_inv e th ar co w r w' t :
  generate_world_bible e th ar co w = (r, w', t) ->
  session w' = session w /\ drawing t /\
  match r with Ret _ => True | Throw s => exists x, s = Raise x end.
Proof.
  intros [(v & els & _ & -> & -> & ->)|(_ & r1 & w1 & Hb & -> & Hw)]%cache_inv.
  { split; [done|]. split; [apply drawing_ui|done]. }
  destruct (bible_content e th ar co); injection Hb as <- <- <-; subst;
    (split; [done|]); (split; [apply drawing_nil|]); eauto.
Qed.

Lemma is_stage_true v name : is_stage v name = true -> v = PStr name.
Proof. destruct v; try done. simpl. by intros ->%bool_decide_eq_true. Qed.

Lemma restart_button_eq ev w :
  restart_button ev w =
    match ev with
    | ClickRestart => (Throw Rerun, with_session clear_session w, [])
    | _ => (Ret tt, w, [])
    end.
Proof. by destruct ev. Qed.

Lemma clear_session_empty (s : gmap string pyval) : clear_session s = ∅.
Proof.
  unfold clear_session.
  assert (Hl : forall (l : list string) k,
            foldr (fun key acc => delete key acc) s l !! k =
              if bool_decide (k ∈ l) then None else s !! k).
  { induction l as [|a l IH]; intros k; cbn [foldr].
    - case_bool_decide as Hk; [by apply elem_of_nil in Hk|done].
    - destruct (decide (a = k)) as [->|Hne].
      + rewrite lookup_delete_eq. case_bool_decide as Hk; [done|].
        destruct Hk. by left.
      + rewrite lookup_delete_ne by done. rewrite IH.
        destruct (decide (k ∈ l)) as [Hin|Hin].
        * rewrite !bool_decide_eq_true_2; [done|by right|done].
        * rewrite !bool_decide_eq_false_2; [done| |done].
          by intros [->|?]%elem_of_cons. }
  apply map_eq. intros k. rewrite Hl, lookup_empty. case_bool_decide as Hk; [done|].
  destruct (s !! k) as [v|] eqn:Hv; [|done]. destruct Hk.
  apply list_elem_of_fmap. exists (k, v). split; [done|].
  by apply elem_of_map_to_list.
Qed.

Lemma stage_after_init w name :
  session (after_init w) !! "app_stage" = Some (PStr name) ->
  name <> world_forge ->
  session w !! "app_stage" = Some (PStr name) /\ after_init w = w.
Proof.
  unfold after_init. destruct (session w !! "app_stage") eqn:Hs.
  { intros Hw _. by rewrite <- Hw. }
  cbn. rewrite !lookup_insert_ne, lookup_insert_eq by done. congruence.
Qed.

Lemma script_inv e ev w r w' t :
  script e ev w = (r, w', t) -> run_kind e ev w r w' t.
Proof.
  unfold script. intros H.
  step H as keys wd1 tr1 Hm;
    apply configure_inv in Hm as (-> & Hd & [(Hr & Hk)|(Hr & Hk & ->)]);
    try discriminate Hr; try (injection Hr as ?; subst).
  { by apply RunStopped. }
  step H as u wd2 tr2 Hm; rewrite init_session_eq in Hm; [done|].
  injection Hm as _ <- <-. cbn [app].
  step H as stage wd3 tr3 Hm; apply get_attr_inv in Hm as (-> & -> & Hr);
    destruct (session (after_init w) !! "app_stage") as [stage'|] eqn:Hst;
    try discriminate Hr; injection Hr as ?; subst.
  { apply RunIdle; [by rewrite app_nil_r|eauto|done]. }
  cbn [app].
  step H as u2 ws ts Hm rest tb.
  - (* the stage logic ends the run *)
    destruct (is_stage stage' world_forge) eqn:Hwf.
    { apply is_stage_true in Hwf as ->.
      destruct ev as [|th ar co| | | |]; try by inversion Hm.
      unfold world_forge_stage in Hm.
      step Hm as wb wd5 tr5 Hm';
        apply world_bible_inv in Hm' as (Hs & Hd' & Hx).
      + destruct Hx as (x & ->). apply RunIdle; [by apply drawing_app|eauto|].
        by apply same_saga_eq.
      + step Hm as u3 wd6 tr6 Hm'; [by inversion Hm'|].
        apply set_attr_inv in Hm' as (_ & -> & ->).
        step Hm as u4 wd7 tr7 Hm'; [by inversion Hm'|].
        apply set_attr_inv in Hm' as (_ & -> & ->).
        apply throw_inv in Hm as (-> & -> & ->).
        apply (RunForged _ _ _ _ _ _ th ar co wb); try done.
        * cbn [app]. rewrite app_nil_r. by apply drawing_app.
        * cbn. by rewrite Hs. }
    destruct (is_stage stage' story_start) eqn:Hss.
    { apply is_stage_true in Hss as ->.
      apply stage_after_init in Hst as (Hw & Hw0); [|done]. rewrite Hw0 in *.
      destruct ev as [| |ip| | |]; try by inversion Hm.
      unfold story_start_stage in Hm.
      destruct (truthy (PStr ip)); [|by inversion Hm].
      by eapply (RunStart _ _ _ _ _ _ ip tr1). }
    destruct (is_stage stage' story_cycle) eqn:Hsc; [|by inversion Hm].
    apply is_stage_true in Hsc as ->.
    apply stage_after_init in Hst as (Hw & Hw0); [|done]. rewrite Hw0 in *.
    apply story_cycle_stage_inv in Hm
      as [(Hd1 & Hsame & [?|?])|(i & c & wc & t0 & tt & -> & Hsame & Hcc & Hd0 & Ht & ->)];
      try done.
    + apply RunIdle; [by apply drawing_app|eauto|by rewrite Hw0].
    + apply (RunChoice _ _ _ _ _ _ i c wc (tr1 ++ t0) tt); try done.
      * by apply drawing_app.
      * by rewrite app_assoc.
  - (* the stage logic returns and the script reaches the restart button *)
    destruct u2.
    assert (Hrestart : drawing ts -> same_saga (session (after_init w)) (session ws) ->
              run_kind e ev w r w' (tr1 ++ ts ++ tb)).
    { intros Hd1 Hsame. rewrite restart_button_eq in H.
      destruct ev; injection H as <- <- <-; rewrite app_nil_r;
        try (apply RunIdle; [by apply drawing_app|by left|done]).
      apply RunRestart; try done; [apply clear_session_empty|by apply drawing_app]. }
    destruct (is_stage stage' world_forge) eqn:Hwf.
    { apply is_stage_true in Hwf as ->.
      destruct ev as [|th ar co| | | |];
        try (injection Hm as <- <-; by apply Hrestart).
      unfold world_forge_stage in Hm.
      step Hm as wb wd5 tr5 Hm'.
      step Hm as u3 wd6 tr6 Hm''.
      step Hm as u4 wd7 tr7 Hm'''.
      by inversion Hm. }
    destruct (is_stage stage' story_start) eqn:Hss.
    { apply is_stage_true in Hss as ->.
      destruct (stage_after_init _ _ Hst) as (Hw & Hw0); [done|].
      destruct ev as [| |ip| | |];
        try (injection Hm as <- <-; by apply Hrestart).
      unfold story_start_stage in Hm.
      destruct (truthy (PStr ip)); [|injection Hm as <- <-; by apply Hrestart].
      rewrite Hw0 in Hm. injection H as <- <- <-. rewrite app_nil_r.
      by apply (RunStart _ _ _ _ _ _ ip tr1 ts). }
    destruct (is_stage stage' story_cycle) eqn:Hsc;
      [|injection Hm as <- <-; by apply Hrestart].
    apply is_stage_true in Hsc as ->.
    destruct (stage_after_init _ _ Hst) as (Hw & Hw0); [done|].
    rewrite Hw0 in Hm.
    apply story_cycle_stage_inv in Hm
      as [(Hd1 & Hsame & _)|(i & c & wc & t0 & tt & -> & Hsame & Hcc & Hd0 & Ht & ->)].
    + apply Hrestart; [done|]. by rewrite Hw0.
    + injection H as <- <- <-. rewrite app_nil_r.
      apply (RunChoice _ _ _ _ _ _ i c wc (tr1 ++ t0) tt); try done.
      * by apply drawing_app.
      * by rewrite app_assoc.
Qed.

(** ** Properties of the runs *)

(** *** Turns *)


Lemma drawing_calls t0 tt x :
  drawing t0 -> x ∈ calls (t0 ++ tt) -> x ∈ calls tt.
Proof. intros (Hc & _ & _). autorewrite with log. by rewrite Hc. Qed.

Lemma drawing_returns t0 tt : drawing t0 -> returns (t0 ++ tt) = returns tt.
Proof. intros (_ & Hr & _). autorewrite with log. by rewrite Hr. Qed.


(** C7 (story context). Every call of [generate_story_chapter] a run makes
    is made in the story-cycle stage, with the texts of all chapters of the
    transcript, in order, joined by single spaces as its story context, or in
    the story-start stage, with the opening sentence standing in for it. *)
Theorem story_context_construction e ev w r w' t ctx wb uc :
  script e ev w = (r, w', t) ->
  (ctx, wb, uc) ∈ calls t ->
  (stage_of w = Some (PStr story_cycle) /\ joined (session w) ctx) \/
  (stage_of w = Some (PStr story_start) /\
   exists ip, ev = SubmitStart ip /\ ctx = PStr ip).
Proof.
  intros Hrun Hin. apply script_inv in Hrun.
  destruct Hrun as [_ _ _ ->|_ _ _ Hd|Hd _ _|th ar co wb' _ _ _ Hd _
                   |ip t0 tt -> Hst Hd -> Hturn|i c wc t0 tt _ Hst Hsame _ Hd -> Hturn];
    try (destruct Hd as (Hc & _ & _); rewrite Hc in Hin; by apply elem_of_nil in Hin).
  - autorewrite with log in Hin. by apply elem_of_nil in Hin.
  - apply drawing_calls in Hin; [|done]. right. split; [done|]. exists ip. split; [done|].
    apply start_story_turn_inv in Hturn as [(x & _ & _ & ->)|Hf].
    { autorewrite with log in Hin. by apply elem_of_nil in Hin. }
    destruct (turn_calls _ _ _ _ _ _ _ _ _ Hf) as [Hc|(wb0 & _ & Hc)];
      rewrite Hc in Hin; [by apply elem_of_nil in Hin|].
    apply list_elem_of_singleton in Hin. congruence.
  - apply drawing_calls in Hin; [|done]. left. split; [done|].
    apply choice_turn_inv in Hturn as [(x & _ & _ & ->)|(ctx' & Hj & Hf)].
    { autorewrite with log in Hin. by apply elem_of_nil in Hin. }
    destruct (turn_calls _ _ _ _ _ _ _ _ _ Hf) as [Hc|(wb0 & _ & Hc)];
      rewrite Hc in Hin; [by apply elem_of_nil in Hin|].
    apply list_elem_of_singleton in Hin. injection Hin as -> _ _.
    by apply (same_saga_joined _ _ _ Hsame).
Qed.

(** *** The invariant of the pending choices *)

Lemma pending_inv_same s g w w' :
  session w = s -> same_saga s (session w') -> pending_inv w g -> pending_inv w' g.
Proof.
  intros <- (Hs & _ & _ & Hc). unfold pending_inv, stage_of, choices_of.
  by rewrite Hs, Hc.
Qed.

Lemma pending_inv_init w g : pending_inv w g -> pending_inv (after_init w) g.
Proof.
  unfold after_init. destruct (session w !! "app_stage") eqn:Hs; [done|].
  destruct g as [c|]; unfold pending_inv, stage_of, choices_of; cbn.
  - rewrite Hs. by intros [? _].
  - intros _. rewrite lookup_insert_eq. rewrite !lookup_insert_ne by done.
    rewrite lookup_insert_eq. split; [done|by right].
Qed.

Lemma committed_not_rerun r t : r <> Throw Rerun -> committed r t = None.
Proof. by destruct r as [|[]]. Qed.

Lemma committed_drawing r t : drawing t -> committed r t = None.
Proof.
  intros (_ & Hr & _). unfold committed. rewrite Hr. by destruct r as [|[]].
Qed.

Lemma next_ghost_keep ev r t g :
  committed r t = None -> r <> Throw Rerun -> next_ghost ev r t g = g.
Proof.
  intros Hc Hr. unfold next_ghost. rewrite Hc.
  destruct ev; try done. by destruct r as [|[]].
Qed.

Lemma rerun_or_not (r : result unit) : r = Throw Rerun \/ r <> Throw Rerun.
Proof. destruct r as [|[]]; auto. Qed.

Lemma run_preserves_pending e ev w r w' t g :
  pending_inv w g -> script e ev w = (r, w', t) ->
  pending_inv w' (next_ghost ev r t g).
Proof.
  intros Hinv Hrun. apply script_inv in Hrun.
  destruct Hrun as [_ -> -> -> | -> -> Hs Hd | Hd Hr Hsame | th ar co wb -> Hst -> Hd Hs
                   |ip t0 tt -> Hst Hd -> Hturn|i c wc t0 tt -> Hst Hsame _ Hd -> Hturn].
  - by rewrite next_ghost_keep.
  - unfold next_ghost. rewrite committed_drawing by done.
    unfold pending_inv, stage_of, choices_of. rewrite Hs, !lookup_empty.
    split; [done|by left].
  - rewrite next_ghost_keep.
    + apply (pending_inv_same (session (after_init w)) _ (after_init w) w');
        [done|done|]. by apply pending_inv_init.
    + by apply committed_drawing.
    + destruct Hr as [->|(x & ->)]; done.
  - unfold next_ghost. rewrite committed_drawing by done.
    apply pending_inv_init in Hinv. destruct g as [c|].
    { destruct Hinv as [Hinv _]. rewrite Hinv in Hst. done. }
    destruct Hinv as [_ Hc]. unfold pending_inv, stage_of, choices_of in *.
    rewrite Hs, lookup_insert_eq, !lookup_insert_ne by done. done.
  - destruct g as [c|].
    { destruct Hinv as [Hinv _]. rewrite Hinv in Hst. done. }
    apply start_story_turn_inv in Hturn as [(x & -> & Hs & ->)|Hf].
    { rewrite next_ghost_keep; [|by apply committed_drawing; rewrite app_nil_r|done].
      by apply (pending_inv_same (session w) _ w w'); [|apply same_saga_eq|]. }
    destruct (rerun_or_not r) as [->|Hr].
    + destruct (turn_committed _ _ _ _ _ _ _ _ _ Hf)
        as (ai & c & items & tx & img & Hret & _ & Hnc & _ & _ & _ & Hc & Hs); [done|].
      unfold next_ghost, committed. rewrite drawing_returns, Hret by done.
      cbn. rewrite Hnc. done.
    + destruct (turn_failed _ _ _ _ _ _ _ _ _ Hf Hr) as (Hc & Hs).
      rewrite next_ghost_keep; [|by apply committed_not_rerun|done].
      unfold pending_inv. by rewrite Hc, Hs.
  - destruct g as [c0|]; [|by destruct Hinv].
    assert (Hinvc : pending_inv wc (Some c0)).
    { by apply (pending_inv_same (session w) _ w wc). }
    apply choice_turn_inv in Hturn as [(x & -> & Hs & ->)|(ctx & _ & Hf)].
    { rewrite next_ghost_keep; [|by apply committed_drawing; rewrite app_nil_r|done].
      by apply (pending_inv_same (session wc) _ wc w'); [|apply same_saga_eq|]. }
    destruct (rerun_or_not r) as [->|Hr].
    + destruct (turn_committed _ _ _ _ _ _ _ _ _ Hf)
        as (ai & c' & items & tx & img & Hret & _ & Hnc & _ & _ & _ & Hc & Hs); [done|].
      unfold next_ghost, committed. rewrite drawing_returns, Hret by done.
      cbn. rewrite Hnc. split; [|done]. rewrite Hs. by destruct Hinvc.
    + destruct (turn_failed _ _ _ _ _ _ _ _ _ Hf Hr) as (Hc & Hs).
      rewrite next_ghost_keep; [|by apply committed_not_rerun|done].
      unfold pending_inv. rewrite Hc, Hs. done.
Qed.

Lemma reachable_pending w g : reachable w g -> pending_inv w g.
Proof.
  induction 1 as [bc cc ic|w g e ev r w' t _ IH Hrun].
  - split; [done|by left].
  - by eapply run_preserves_pending.
Qed.

(** *** The parser *)

(** C5 (parser tolerance). When the reply [raw] parses to [turn], so does
    [raw] wrapped in a [```json] ... [```] fence with any whitespace before,
    inside and after the fence, and so does [raw] between leading and
    trailing whitespace: the structured turn is the same. *)
Theorem parse_reply_fenced raw w1 w2 w3 w4 turn :
  all_space w1 -> all_space w2 -> all_space w3 -> all_space w4 ->
  parse_reply raw = Some turn ->
  parse_reply (fenced w1 w2 w3 w4 raw) = Some turn /\
  parse_reply (w1 ++ raw ++ w4) = Some turn.
Proof.
  intros H1 H2 H3 H4 Hp. unfold parse_reply in *. split.
  - by rewrite clean_reply_fenced.
  - rewrite !clean_reply_strip_fences in *.
    by rewrite strip_fences_space, str_strip_space_app.
Qed.

(** C2 (parser rejection), as the code has it. On a call that is not served
    from the cache and whose request returns the text [text]: when
    [json.loads] rejects the cleaned text, the error and the raw text are
    drawn and [None] is returned; otherwise the decoded value is returned as
    it is and nothing is drawn. No key of the value is looked at. *)
Theorem parse_failure_surfaced e c b uc w text :
  cache_get uc (chapter_cache w) = None ->
  generate_content e (Prompt uc c b) = GenReply text ->
  let '(r, w', t) := generate_story_chapter e c b uc w in
  match parse_reply text with
  | None =>
      r = Ret PNone /\
      elements_of t = [StError (ErrorProcessingAI JSONDecodeError); StCode text]
  | Some data => r = Ret data /\ elements_of t = []
  end.
Proof.
  intros Hc Hg. unfold generate_story_chapter, st_cache_data, mbind, M_bind, note.
  cbn. rewrite Hc, chapter_body_eq. cbn zeta. rewrite Hg. cbn.
  destruct (parse_reply text); by cbn.
Qed.

(** C3 (no uncaught throw on generation failure) does not hold. When
    [model.generate_content] raises [x] on a call that is not served from the
    cache, the handler draws the error and then reads [response.text] while
    [response] is unbound: [UnboundLocalError] leaves
    [generate_story_chapter] instead of a returned [None]. *)
Theorem generation_failure_escapes e c b uc w x :
  cache_get uc (chapter_cache w) = None ->
  generate_content e (Prompt uc c b) = GenRaise x ->
  generate_story_chapter e c b uc w =
    (Throw (Raise (UnboundLocalError "response")), w,
     [CallChapter c b uc; Generate (Prompt uc c b) (GenRaise x);
      Ui (StError (ErrorProcessingAI x))]).
Proof.
  intros Hc Hg. unfold generate_story_chapter, st_cache_data, mbind, M_bind, note.
  cbn. rewrite Hc, chapter_body_eq. cbn zeta. by rewrite Hg.
Qed.

(** *** Memoization *)

Lemma cache_get_head k x c : cache_get k ((k, x) :: c) = Some x.
Proof. cbn. by rewrite bool_decide_eq_true_2. Qed.

(** C10 (memoization ignores context). Once a call of
    [generate_story_chapter] with user choice [uc] has returned [v], every
    later call with the same [uc], whatever its story context, world bible
    and model, returns [v] from the cache as long as the cache holds for
    [uc] what the first call left there, and sends no request to the model. *)
Theorem memoization_ignores_context e1 c1 b1 uc w v w1 t1 :
  generate_story_chapter e1 c1 b1 uc w = (Ret v, w1, t1) ->
  forall e2 c2 b2 w2,
    cache_get uc (chapter_cache w2) = cache_get uc (chapter_cache w1) ->
    exists t2, generate_story_chapter e2 c2 b2 uc w2 = (Ret v, w2, t2) /\
               generations t2 = [].
Proof.
  intros H e2 c2 b2 w2 Hw2.
  assert (exists els, cache_get uc (chapter_cache w1) = Some (v, els)) as (els & Hc).
  { unfold generate_story_chapter in H.
    step H as u wd1 tr1 Hm. injection Hm as _ <- <-.
    step H as v' wd2 tr2 Hm.
    step H as u' wd3 tr3 Hm'. injection Hm' as _ <- <-. injection H as <- <- _.
    apply cache_inv in Hm as [(v0 & els & Hc & [= <-] & -> & _)|(Hc & r1 & wb & Hb & <- & ->)].
    - by exists els.
    - eexists. apply cache_get_head. }
  unfold generate_story_chapter, st_cache_data, mbind, M_bind, note.
  cbn. rewrite Hw2, Hc. eexists. split; [done|].
  autorewrite with log. done.
Qed.

(** *** Startup *)

(** C9 (fatal missing text credential). When the loaded [GOOGLE_API_KEY] is
    unset or empty, a run of the script draws the error that names the Google
    key and stops there: no stage logic runs and the world is untouched. When
    it is set, the configuration step returns the keys whatever the image and
    speech keys are. *)
Theorem missing_text_credential_is_fatal e ev w :
  (key_set (GOOGLE_API_KEY (load_api_keys e)) = false ->
   script e ev w = (Throw Stop, w, [Ui (StError GoogleKeyNotFound)])) /\
  (key_set (GOOGLE_API_KEY (load_api_keys e)) = true ->
   exists t, configure e w = (Ret (load_api_keys e), w, t)).
Proof.
  split; intros Hk.
  - unfold script, configure, mbind, M_bind. by rewrite Hk.
  - unfold configure, mbind, M_bind. rewrite Hk.
    destruct (key_set (ELEVENLABS_API_KEY _)); eauto.
Qed.

(** *** Restart *)

(** C6 (restart clears all). From every world, the restart handler ends the
    run with [st.rerun()] and an empty session, and the initialisation that
    follows leaves exactly the initial session: stage [world_forge], an empty
    transcript, empty pending choices and an unset world bible. *)
Theorem restart_clears_all w :
  let '(r, w1, _) := restart_button ClickRestart w in
  let '(_, w2, _) := init_session w1 in
  r = Throw Rerun /\ session w1 = ∅ /\
  session w2 = initial_session /\
  stage_of w2 = Some (PStr world_forge) /\
  chapters_of w2 = Some (PList []) /\
  choices_of w2 = Some (PList []) /\
  session w2 !! "world_bible" = Some PNone.
Proof.
  rewrite restart_button_eq, init_session_eq. unfold after_init. cbn.
  rewrite clear_session_empty, lookup_empty.
  unfold stage_of, chapters_of, choices_of. cbn. rewrite clear_session_empty.
  repeat split; by simplify_map_eq.
Qed.

(** ** The fuel of the JSON scanner is enough *)

Lemma skip_ws_length s : (length (skip_ws s) <= length s)%nat.
Proof. induction s as [|c s IH]; simpl; [lia|]. destruct (is_ws c); simpl; lia. Qed.

Lemma hex4_length s u r : hex4 s = Some (u, r) -> length s = (length r + 4)%nat.
Proof.
  unfold hex4. destruct s as [|a [|b [|c [|d s]]]]; try done.
  destruct (hexval a), (hexval b), (hexval c), (hexval d); try done.
  intros [= _ <-]. simpl. lia.
Qed.

Lemma scanstring_length fuel acc s v r :
  scanstring fuel acc s = Ok v r -> (length r < length s)%nat.
Proof.
  revert acc s. induction fuel as [|n IH]; intros acc s; [done|]. simpl.
  destruct s as [|c s]; [done|].
  destruct (c =? 34); [intros [= _ <-]; simpl; lia|].
  destruct (c <? 32); [done|].
  destruct (c =? 92); [|intros ?%IH; simpl; lia].
  destruct s as [|e s]; [done|].
  destruct (e =? 117).
  - destruct (hex4 s) as [[u r2]|] eqn:Hu; [|done].
    apply hex4_length in Hu.
    assert (Hplain : scanstring n (u :: acc) r2 = Ok v r ->
                     (length r < length (c :: e :: s))%nat).
    { intros ?%IH. simpl. lia. }
    destruct ((55296 <=? u) && (u <=? 56319)); [|done].
    repeat (match goal with
            | |- context [match ?x with _ => _ end] => destruct x eqn:?
            end; try done).
    match goal with H : hex4 _ = Some _ |- _ => apply hex4_length in H end.
    intros ?%IH. simpl in *. lia.
  - destruct (backslash e); [|done]. intros ?%IH. simpl. lia.
Qed.

Lemma scanstring_fuel fuel acc s :
  (length s < fuel)%nat -> scanstring fuel acc s <> Fuel.
Proof.
  revert acc s. induction fuel as [|n IH]; intros acc s Hlen; [lia|]. simpl.
  destruct s as [|c s]; [done|]. simpl in Hlen.
  destruct (c =? 34); [done|]. destruct (c <? 32); [done|].
  destruct (c =? 92); [|apply IH; lia].
  destruct s as [|e s]; [done|]. simpl in Hlen.
  destruct (e =? 117).
  - destruct (hex4 s) as [[u r2]|] eqn:Hu; [|done].
    apply hex4_length in Hu.
    assert (Hplain : scanstring n (u :: acc) r2 <> Fuel) by (apply IH; lia).
    destruct ((55296 <=? u) && (u <=? 56319)); [|done].
    repeat (match goal with
            | |- context [match ?x with _ => _ end] => destruct x eqn:?
            end; try done).
    match goal with H : hex4 _ = Some _ |- _ => apply hex4_length in H end.
    apply IH. simpl in *. lia.
  - destruct (backslash e); [|done]. apply IH. lia.
Qed.

Lemma digits_length s d r : digits s = (d, r) -> length s = (length d + length r)%nat.
Proof.
  revert d r. induction s as [|c s IH]; intros d r; simpl.
  - by intros [= <- <-].
  - destruct (is_digit c); [|by intros [= <- <-]].
    destruct (digits s) as [d' r'] eqn:Hd. intros [= <- <-].
    specialize (IH _ _ eq_refl). simpl. lia.
Qed.

Lemma int_part_length s d r : int_part s = Some (d, r) -> (length r < length s)%nat.
Proof.
  unfold int_part. destruct s as [|c s]; [done|].
  destruct (c =? 48); [intros [= _ <-]; simpl; lia|].
  destruct (is_digit c); [|done].
  destruct (digits s) as [d' r'] eqn:Hd. intros [= _ <-].
  apply digits_length in Hd. simpl. lia.
Qed.

Lemma frac_part_length s d r : frac_part s = Some (d, r) -> (length r <= length s)%nat.
Proof.
  unfold frac_part. destruct s as [|c s]; [done|].
  destruct (digits s) as [d' r'] eqn:Hd. apply digits_length in Hd.
  repeat case_match; try done; intros [= _ <-]; simpl; lia.
Qed.

Lemma exp_part_length s e r : exp_part s = Some (e, r) -> (length r <= length s)%nat.
Proof.
  unfold exp_part. destruct s as [|c s]; [done|].
  destruct ((c =? 101) || (c =? 69)); [|done].
  destruct (match s with
            | 45 :: r1 => (true, r1)
            | 43 :: r1 => (false, r1)
            | _ => (false, s)
            end) as [neg r1] eqn:Hs.
  assert (length r1 <= length s)%nat.
  { repeat case_match; simplify_eq; simpl; lia. }
  destruct (digits r1) as [d' r'] eqn:Hd. apply digits_length in Hd.
  repeat case_match; try done; intros [= _ <-]; simpl in *; lia.
Qed.

Lemma match_number_length s v r :
  match_number s = Some (v, r) -> (length r < length s)%nat.
Proof.
  unfold match_number.
  destruct (match s with 45 :: r0 => (true, r0) | _ => (false, s) end)
    as [neg s1] eqn:Hs.
  assert (length s1 <= length s)%nat.
  { repeat case_match; simplify_eq; simpl; lia. }
  destruct (int_part s1) as [[i r0]|] eqn:Hi; [|done].
  apply int_part_length in Hi.
  destruct (frac_part r0) as [[f r1]|] eqn:Hf.
  - apply frac_part_length in Hf.
    destruct (exp_part r1) as [[e r2]|] eqn:He.
    + apply exp_part_length in He. intros [= _ <-]. lia.
    + intros [= _ <-]. lia.
  - destruct (exp_part r0) as [[e r2]|] eqn:He.
    + apply exp_part_length in He. intros [= _ <-]. lia.
    + intros [= _ <-]. lia.
Qed.

Lemma drop_shorter (k : nat) (p s : pystr) :
  str_startswith p s = true -> length p = k -> (0 < k)%nat ->
  (length (drop k s) < length s)%nat.
Proof.
  intros Hp%str_startswith_length <- Hk. rewrite length_drop. lia.
Qed.

Lemma keyword_length s v r : keyword s = Some (v, r) -> (length r < length s)%nat.
Proof.
  unfold keyword. repeat case_match; try done; intros [= _ <-];
    eapply drop_shorter; eauto; simpl; lia.
Qed.

Lemma constant_length s v r : constant s = Some (v, r) -> (length r < length s)%nat.
Proof.
  unfold constant. repeat case_match; try done; intros [= _ <-];
    eapply drop_shorter; eauto; simpl; lia.
Qed.

Lemma eat_length c s r : eat c s = Some r -> length s = S (length r).
Proof. destruct s as [|x s]; [done|]. simpl. by destruct (x =? c); intros [= <-]. Qed.

Lemma scanner_fuel fuel :
  (forall s,
     ((2 * length s < fuel)%nat -> scan_once fuel s <> Fuel) /\
     (forall v r, scan_once fuel s = Ok v r -> (length r < length s)%nat)) /\
  (forall acc s,
     ((2 * length s + 1 < fuel)%nat -> json_array fuel acc s <> Fuel) /\
     (forall v r, json_array fuel acc s = Ok v r -> (length r < length s)%nat)) /\
  (forall acc s,
     ((2 * length s + 1 < fuel)%nat -> json_object fuel acc s <> Fuel) /\
     (forall v r, json_object fuel acc s = Ok v r -> (length r < length s)%nat)).
Proof.
  induction fuel as [|n (IHs & IHa & IHo)].
  { repeat split; intros; (lia || done). }
  split; [|split].
  - intros s. cbn [scan_once]. destruct s as [|c s]; [done|].
    pose proof (skip_ws_length s) as Hws.
    destruct (c =? 34).
    { destruct (scanstring (length (c :: s)) [] s) as [k r| |] eqn:Hk.
      - apply scanstring_length in Hk. split; [done|]. intros v r' [= _ <-].
        simpl. lia.
      - done.
      - by apply scanstring_fuel in Hk; [|simpl; lia]. }
    destruct (c =? 123).
    { destruct (eat 125 (skip_ws s)) as [r'|] eqn:He.
      - apply eat_length in He. split; [done|]. intros v r [= _ <-]. simpl. lia.
      - destruct (IHo [] (skip_ws s)) as [Hf Hl]. split.
        + intros Hlen. apply Hf. simpl in Hlen. lia.
        + intros v r Hr%Hl. simpl. lia. }
    destruct (c =? 91).
    { destruct (eat 93 (skip_ws s)) as [r'|] eqn:He.
      - apply eat_length in He. split; [done|]. intros v r [= _ <-]. simpl. lia.
      - destruct (IHa [] (skip_ws s)) as [Hf Hl]. split.
        + intros Hlen. apply Hf. simpl in Hlen. lia.
        + intros v r Hr%Hl. simpl. lia. }
    destruct (keyword (c :: s)) as [[v r]|] eqn:Hk.
    { apply keyword_length in Hk. split; [done|]. by intros ? ? [= _ <-]. }
    destruct (match_number (c :: s)) as [[v r]|] eqn:Hn.
    { apply match_number_length in Hn. split; [done|]. by intros ? ? [= _ <-]. }
    destruct (constant (c :: s)) as [[v r]|] eqn:Hc; [|done].
    apply constant_length in Hc. split; [done|]. by intros ? ? [= _ <-].
  - intros acc s. cbn [json_array].
    destruct (IHs s) as [Hf Hl].
    destruct (scan_once n s) as [v r| |] eqn:Hv; [|done|split; [intros; apply Hf; lia|done]].
    specialize (Hl _ _ eq_refl). pose proof (skip_ws_length r) as Hws.
    destruct (skip_ws r) as [|c r'] eqn:Hr; [done|]. simpl in Hws.
    destruct (c =? 93); [split; [done|]; intros ? ? [= _ <-]; lia|].
    destruct (c =? 44); [|done].
    pose proof (skip_ws_length r') as Hws'.
    destruct (IHa (v :: acc) (skip_ws r')) as [Hfa Hla]. split.
    + intros Hlen. apply Hfa. lia.
    + intros v' r2 Hr2%Hla. lia.
  - intros acc s. cbn [json_object].
    destruct (eat 34 s) as [r|] eqn:He; [|done]. apply eat_length in He.
    destruct (scanstring (length s) [] r) as [k r1| |] eqn:Hk; [|done|].
    2:{ by apply scanstring_fuel in Hk; [|lia]. }
    apply scanstring_length in Hk. pose proof (skip_ws_length r1) as Hws1.
    destruct (eat 58 (skip_ws r1)) as [r2|] eqn:He2; [|done].
    apply eat_length in He2. pose proof (skip_ws_length r2) as Hws2.
    destruct (IHs (skip_ws r2)) as [Hf Hl].
    destruct (scan_once n (skip_ws r2)) as [v r3| |] eqn:Hv;
      [|done|split; [intros; apply Hf; lia|done]].
    specialize (Hl _ _ eq_refl). pose proof (skip_ws_length r3) as Hws3.
    destruct (skip_ws r3) as [|c r4] eqn:Hr; [done|]. simpl in Hws3.
    destruct (c =? 125); [split; [done|]; intros ? ? [= _ <-]; lia|].
    destruct (c =? 44); [|done].
    pose proof (skip_ws_length r4) as Hws4.
    destruct (IHo (dict_set k v acc) (skip_ws r4)) as [Hfo Hlo]. split.
    + intros Hlen. apply Hfo. lia.
    + intros v' r5 Hr5%Hlo. lia.
Qed.

(** [json.loads] never stops for lack of fuel: a [None] is a decoding error. *)
Lemma loads_fuel_enough s :
  scan_once (2 * length s + 2) (skip_ws s) <> Fuel.
Proof.
  apply scanner_fuel. pose proof (skip_ws_length s). lia.
Qed.

(** ** The properties on a saga *)

Lemma script_out e ev w :
  script e ev w = ((script e ev w).1.1, (script e ev w).1.2, (script e ev w).2).
Proof. by destruct (script e ev w) as [[? ?] ?]. Qed.


Lemma story_context_construction_witness :
  (PStr (lit "Once n1"), PStr (lit "bible"), PStr [98])
    ∈ calls (script e_next (SubmitChoice 1) w_saga).2 /\
  ((stage_of w_saga = Some (PStr story_cycle) /\
    joined (session w_saga) (PStr (lit "Once n1"))) \/
   (stage_of w_saga = Some (PStr story_start) /\
    exists ip, SubmitChoice 1 = SubmitStart ip /\ PStr (lit "Once n1") = PStr ip)).
Proof.
  assert (Hin : (PStr (lit "Once n1"), PStr (lit "bible"), PStr [98])
                  ∈ calls (script e_next (SubmitChoice 1) w_saga).2).
  { vm_compute. constructor. }
  split; [exact Hin|].
  exact (story_context_construction e_next (SubmitChoice 1) w_saga _ _ _ _ _ _
           (script_out _ _ _) Hin).
Defined.

Lemma parse_reply_fenced_witness :
  parse_reply raw_n1 = Some turn_n1 /\
  parse_reply (fenced (lit " ") [10] [10] [13; 10] raw_n1) = Some turn_n1 /\
  parse_reply (lit " " ++ raw_n1 ++ [13; 10]) = Some turn_n1.
Proof.
  assert (Hp : parse_reply raw_n1 = Some turn_n1) by (vm_compute; reflexivity).
  split; [exact Hp|].
  apply (parse_reply_fenced raw_n1 (lit " ") [10] [10] [13; 10] turn_n1);
    try exact Hp; repeat constructor.
Defined.

Lemma parse_failure_surfaced_witness :
  let '(r, _, t) :=
    generate_story_chapter e_garbled (PStr (lit "Once n1")) (PStr (lit "bible"))
      (PStr [98]) w_saga in
  parse_reply (lit "Sorry, no.") = None /\
  r = Ret PNone /\
  elements_of t = [StError (ErrorProcessingAI JSONDecodeError); StCode (lit "Sorry, no.")].
Proof.
  pose proof (parse_failure_surfaced e_garbled (PStr (lit "Once n1"))
                (PStr (lit "bible")) (PStr [98]) w_saga (lit "Sorry, no.")
                eq_refl eq_refl) as H.
  destruct (generate_story_chapter _ _ _ _ _) as [[r w'] t].
  assert (Hp : parse_reply (lit "Sorry, no.") = None) by (vm_compute; reflexivity).
  rewrite Hp in H. exact (conj Hp H).
Defined.

(** The reply of C2's counterexample: valid JSON that lacks two of the three
    keys is returned to the handler, nothing is drawn, and the handler then
    raises an uncaught [KeyError]. *)
Lemma incomplete_reply_passed_on :
  let data := PDict [(k_narrative_chapter, PStr (lit "n2"))] in
  parse_reply reply_incomplete = Some data /\
  subscript data k_next_choices = inl (KeyError (PStr k_next_choices)) /\
  (let '(r, _, t) :=
     generate_story_chapter e_incomplete (PStr (lit "Once n1")) (PStr (lit "bible"))
       (PStr [98]) w_saga in
   r = Ret data /\ elements_of t = []) /\
  (script e_incomplete (SubmitChoice 1) w_saga).1.1
    = Throw (Raise (KeyError (PStr k_image_prompt))).
Proof. vm_compute. repeat split. Qed.

Lemma generation_failure_escapes_witness :
  cache_get (PStr [98]) (chapter_cache w_saga) = None /\
  generate_content e_down (Prompt (PStr [98]) (PStr (lit "Once n1")) (PStr (lit "bible")))
    = GenRaise (ServiceException (lit "503")) /\
  generate_story_chapter e_down (PStr (lit "Once n1")) (PStr (lit "bible")) (PStr [98])
    w_saga =
    (Throw (Raise (UnboundLocalError "response")), w_saga,
     [CallChapter (PStr (lit "Once n1")) (PStr (lit "bible")) (PStr [98]);
      Generate (Prompt (PStr [98]) (PStr (lit "Once n1")) (PStr (lit "bible")))
        (GenRaise (ServiceException (lit "503")));
      Ui (StError (ErrorProcessingAI (ServiceException (lit "503"))))]).
Proof.
  assert (Hc : cache_get (PStr [98]) (chapter_cache w_saga) = None)
    by (vm_compute; reflexivity).
  split; [exact Hc|]. split; [reflexivity|].
  exact (generation_failure_escapes e_down _ _ _ w_saga _ Hc eq_refl).
Defined.

Lemma memoization_ignores_context_witness :
  first_call = (Ret turn_n2, first_call.1.2, first_call.2) /\
  exists t2,
    generate_story_chapter e_down (PStr (lit "another story")) PNone (PStr [98])
      first_call.1.2 = (Ret turn_n2, first_call.1.2, t2) /\
    generations t2 = [].
Proof.
  assert (H1 : first_call = (Ret turn_n2, first_call.1.2, first_call.2))
    by (vm_compute; reflexivity).
  split; [exact H1|].
  exact (memoization_ignores_context e_next _ _ _ w_saga _ _ _ H1
           e_down (PStr (lit "another story")) PNone first_call.1.2 eq_refl).
Defined.

Lemma missing_text_credential_is_fatal_witness :
  key_set (GOOGLE_API_KEY (load_api_keys e_no_google)) = false /\
  script e_no_google (SubmitChoice 1) w_saga =
    (Throw Stop, w_saga, [Ui (StError GoogleKeyNotFound)]) /\
  key_set (GOOGLE_API_KEY (load_api_keys e_google_only)) = true /\
  key_set (STABILITY_API_KEY (load_api_keys e_google_only)) = false /\
  key_set (ELEVENLABS_API_KEY (load_api_keys e_google_only)) = false /\
  exists t, configure e_google_only w_saga = (Ret (load_api_keys e_google_only), w_saga, t).
Proof.
  assert (H1 : key_set (GOOGLE_API_KEY (load_api_keys e_no_google)) = false)
    by (vm_compute; reflexivity).
  assert (H2 : key_set (GOOGLE_API_KEY (load_api_keys e_google_only)) = true)
    by (vm_compute; reflexivity).
  split; [exact H1|].
  split; [exact (proj1 (missing_text_credential_is_fatal e_no_google _ w_saga) H1)|].
  split; [exact H2|]. split; [vm_compute; reflexivity|].
  split; [vm_compute; reflexivity|].
  exact (proj2 (missing_text_credential_is_fatal e_google_only NoEvent w_saga) H2).
Defined.

(** C4 (degrade-not-fail for images) does not hold for every HTTP error.
    Here the image service answers 502 with a body that is not JSON: the
    turn's reply [turn_n2] was generated and parsed with its three fields,
    the [except HTTPError] handler calls [e.response.json()], which raises,
    and the run ends in that uncaught exception with no chapter committed and
    the pending choices unchanged. *)
Theorem image_http_error_aborts_turn :
  let '(r, w', t) := script e_bad_gateway (SubmitChoice 1) w_saga in
  returns t = [turn_n2] /\
  r = Throw (Raise JSONDecodeError) /\
  chapters_of w' = chapters_of w_saga /\ choices_of w' = choices_of w_saga.
Proof. vm_compute. repeat split. Qed.

(** The failures of the image call that do degrade to [None]. *)
Lemma image_failure_degrades keys e p w :
  cache_get p (image_cache w) = None ->
  key_set (STABILITY_API_KEY keys) = false \/
  (exists x, image_try e p = inl x /\
             match x with
             | HTTPError _ body => is_Some (Json.loads body)
             | _ => True
             end) ->
  (generate_image_stability keys e p w).1.1 = Ret PNone.
Proof.
  intros Hc H. unfold generate_image_stability, st_cache_data. cbn. rewrite Hc.
  unfold image_body. destruct H as [->|(x & -> & Hx)]; [done|].
  destruct (negb _); [done|].
  destruct x; try done. by destruct Hx as [j ->].
Qed.

(** Scenario D of the specification: no image credential. *)
Example turn_without_image_credential :
  let e := make_env ["GOOGLE_API_KEY"] (GenReply reply_plain) bad_gateway in
  let '(r, w', _) := script e (SubmitChoice 1) w_saga in
  r = Throw Rerun /\
  chapters_of w' =
    Some (PList [chapter (PStr opening) PNone;
                 chapter (PStr (lit "n1")) (PImage (lit "QUJD"));
                 chapter (PStr (lit "n2")) PNone]) /\
  choices_of w' = Some (PList [PStr [100]; PStr [101]; PStr [102]]).
Proof. vm_compute. repeat split. Qed.

(** *** The pending choices, run by run *)

Lemma reachable_after e ev w g :
  reachable w g ->
  reachable (after e ev w) (next_ghost ev (script e ev w).1.1 (script e ev w).2 g).
Proof. intros H. eapply reach_run; [exact H|apply script_out]. Qed.

Lemma reachable_start : reachable w_start None.
Proof.
  assert (H1 : reachable w_forge None).
  { replace None with (next_ghost NoEvent (script e_ok NoEvent w_fresh).1.1
                         (script e_ok NoEvent w_fresh).2 None)
      by (vm_compute; reflexivity).
    apply reachable_after. constructor. }
  replace None with (next_ghost forge (script e_ok forge w_forge).1.1
                       (script e_ok forge w_forge).2 None)
    by (vm_compute; reflexivity).
  by apply reachable_after.
Qed.

Lemma reachable_saga :
  reachable w_saga (Some (PList [PStr [97]; PStr [98]; PStr [99]])).
Proof.
  replace (Some (PList [PStr [97]; PStr [98]; PStr [99]]))
    with (next_ghost (SubmitStart opening)
            (script e_ok (SubmitStart opening) w_start).1.1
            (script e_ok (SubmitStart opening) w_start).2 None)
    by (vm_compute; reflexivity).
  apply reachable_after, reachable_start.
Qed.

Lemma reachable_dead_end : reachable w_dead_end (Some (PList [])).
Proof.
  replace (Some (PList []))
    with (next_ghost (SubmitStart opening)
            (script e_no_choices (SubmitStart opening) w_start).1.1
            (script e_no_choices (SubmitStart opening) w_start).2 None)
    by (vm_compute; reflexivity).
  apply reachable_after, reachable_start.
Qed.

(** C8 (pending choices), as the code has it. In every reachable world: the
    pending choices are unset or empty before the first committed turn; in
    the story-cycle stage they are the [next_choices] of the latest committed
    turn; and a run in that stage that commits no turn and is not a restart
    leaves them unchanged. *)
Theorem pending_choices_invariant w g :
  reachable w g ->
  (g = None -> choices_of w = None \/ choices_of w = Some (PList [])) /\
  (stage_of w = Some (PStr story_cycle) ->
   exists c, g = Some c /\ choices_of w = Some c) /\
  (forall e ev r w' t,
     stage_of w = Some (PStr story_cycle) ->
     script e ev w = (r, w', t) -> committed r t = None -> ev <> ClickRestart ->
     choices_of w' = choices_of w).
Proof.
  intros Hinv%reachable_pending. split; [|split].
  - intros ->. by destruct Hinv.
  - intros Hst. destruct g as [c|]; [|by destruct Hinv]. exists c. by destruct Hinv.
  - intros e ev r w' t Hst Hrun Hc Hev.
    pose proof (run_preserves_pending _ _ _ _ _ _ _ Hinv Hrun) as Hinv'.
    assert (Hg : next_ghost ev r t g = g).
    { unfold next_ghost. rewrite Hc. by destruct ev. }
    rewrite Hg in Hinv'. destruct g as [c|]; [|by destruct Hinv].
    destruct Hinv as [_ ->], Hinv' as [_ ->]. done.
Qed.

Lemma pending_choices_invariant_witness :
  reachable w_saga (Some (PList [PStr [97]; PStr [98]; PStr [99]])) /\
  stage_of w_saga = Some (PStr story_cycle) /\
  (exists c, Some (PList [PStr [97]; PStr [98]; PStr [99]]) = Some c /\
             choices_of w_saga = Some c) /\
  choices_of (after e_garbled (SubmitChoice 1) w_saga) = choices_of w_saga.
Proof.
  assert (Hst : stage_of w_saga = Some (PStr story_cycle)) by (vm_compute; reflexivity).
  split; [exact reachable_saga|]. split; [exact Hst|].
  destruct (pending_choices_invariant w_saga _ reachable_saga) as (_ & H2 & H3).
  split; [exact (H2 Hst)|].
  apply (H3 e_garbled (SubmitChoice 1) _ _ _ Hst (script_out _ _ _)).
  - vm_compute. reflexivity.
  - discriminate.
Defined.

(** C8's counterexample: the opening turn succeeds with an empty list of next
    choices, so the pending choices are empty after a successful turn. *)
Lemma pending_choices_empty_after_success :
  ~ (forall w g, reachable w g ->
       choices_of w = Some (PList []) -> g = None).
Proof.
  intros H. specialize (H w_dead_end _ reachable_dead_end).
  assert (Hc : choices_of w_dead_end = Some (PList [])) by (vm_compute; reflexivity).
  specialize (H Hc). discriminate H.
Qed.

(** *** Restart and commits, run by run *)

(** A run caused by the restart button that gets as far as the button leaves
    the session empty. *)
Lemma restart_run_clears e w w' t :
  script e ClickRestart w = (Throw Rerun, w', t) -> session w' = ∅.
Proof.
  intros [| |_ [|(x & ?)] _| | |]%script_inv; done.
Qed.

(** The run that follows a restart initialises the four fields again. *)
Lemma rerun_after_restart e w :
  key_set (GOOGLE_API_KEY (load_api_keys e)) = true -> session w = ∅ ->
  (script e NoEvent w).1.1 = Ret tt /\
  session (script e NoEvent w).1.2 = initial_session.
Proof.
  intros Hk Hs. destruct w as [s bc cc ic]. cbn in Hs. subst s.
  unfold script, configure, mbind, M_bind. rewrite Hk.
  by destruct (key_set (ELEVENLABS_API_KEY _)).
Qed.

(** A transcript of well-formed chapters is joined into the texts separated
    by single spaces. *)
Lemma joined_chapters (s : gmap string pyval) (l : list (pystr * pyval)) :
  s !! "story_chapters" = Some (PList ((fun ti => chapter (PStr ti.1) ti.2) <$> l)) ->
  joined s (PStr (str_join space (l.*1))).
Proof.
  intros Hs. eexists _, _, _. split; [exact Hs|]. split; [done|]. split; [|done].
  clear Hs. induction l as [|[tx img] l IH]; constructor; auto.
Qed.


(** Scenario B of the specification: the opening sentence and a reply with
    three choices. *)
Example opening_turn_commits :
  stage_of w_saga = Some (PStr story_cycle) /\
  chapters_of w_saga =
    Some (PList [chapter (PStr opening) PNone;
                 chapter (PStr (lit "n1")) (PImage (lit "QUJD"))]) /\
  choices_of w_saga = Some (PList [PStr [97]; PStr [98]; PStr [99]]).
Proof. vm_compute. repeat split. Qed.

(** * Part III: further properties of the code *)

(** ** What cleaning leaves of a reply *)

Lemma str_strip_idem s : str_strip (str_strip s) = str_strip s.
Proof.
  destruct (str_strip_split s) as (w1 & w2 & H1 & H2 & E).
  rewrite E at 2. by rewrite str_strip_space_app.
Qed.

Lemma occurs_app_l p w t : occurs p t = true -> occurs p (w ++ t) = true.
Proof.
  intros H. induction w as [|c w IH]; [done|].
  cbn [app occurs]. rewrite IH. apply orb_true_r.
Qed.

Lemma occurs_app_r p t w : occurs p t = true -> occurs p (t ++ w) = true.
Proof.
  induction t as [|c t IH].
  - destruct p; [|done]. intros _. by destruct w.
  - cbn [app occurs]. intros [H|H]%orb_true_iff.
    + pose proof (str_startswith_app _ _ w H) as H'. cbn [app] in H'. by rewrite H'.
    + rewrite (IH H). apply orb_true_r.
Qed.

Lemma occurs_strip p s : occurs p s = false -> occurs p (str_strip s) = false.
Proof.
  intros H. destruct (occurs p (str_strip s)) eqn:Ho; [|done].
  destruct (str_strip_split s) as (w1 & w2 & _ & _ & E).
  rewrite E in H. by rewrite occurs_app_l in H by by apply occurs_app_r.
Qed.

Lemma occurs_head p s : occurs p s = false -> str_startswith p s = false.
Proof. destruct s; cbn [occurs]; by intros [? _]%orb_false_iff. Qed.

Lemma str_replace_absent old new s :
  old <> [] -> occurs old s = false -> str_replace old new s = s.
Proof.
  intros Hold. induction s as [|c s IH]; intros H.
  - rewrite str_replace_eq by done. by rewrite (occurs_head _ _ H).
  - rewrite str_replace_eq by done. rewrite (occurs_head _ _ H).
    cbn [occurs] in H. apply orb_false_iff in H as [_ H]. by rewrite IH.
Qed.

Lemma str_startswith_fence_json s :
  str_startswith fence_json s = true -> str_startswith fence s = true.
Proof.
  destruct s as [|a [|b [|c s]]]; try done; cbn;
    rewrite ?andb_false_r; try done.
  intros H. repeat (apply andb_true_iff in H; destruct H as [? H]).
  by repeat (apply andb_true_iff; split).
Qed.

Lemma occurs_fence_json s : occurs fence s = false -> occurs fence_json s = false.
Proof.
  induction s as [|c s IH]; [done|]. cbn [occurs].
  intros [H1 H2]%orb_false_iff. rewrite (IH H2), orb_false_r.
  destruct (str_startswith fence_json (c :: s)) eqn:Hj; [|done].
  apply str_startswith_fence_json in Hj. congruence.
Qed.

Lemma fence_starts s :
  str_startswith fence s = true <-> exists r, s = 96 :: 96 :: 96 :: r.
Proof.
  split.
  - unfold fence. destruct s as [|a [|b [|c r]]]; cbn [str_startswith]; intros H;
      repeat (apply andb_true_iff in H; destruct H as [?%N.eqb_eq H]);
      try discriminate; subst; eauto.
  - by intros (r & ->).
Qed.

(** What is left of a run of backticks never starts with a fence. *)
Lemma str_replace_fence_head s :
  str_startswith fence (str_replace fence [] s) = false.
Proof.
  remember (length s) as n eqn:Hn. revert s Hn.
  induction n as [n IH] using lt_wf_ind; intros s Hn.
  rewrite (str_replace_eq fence []) by done.
  destruct (str_startswith fence s) eqn:Hp.
  - pose proof (str_startswith_length _ _ Hp) as Hlen.
    change (length fence) with 3%nat in *. cbn [app].
    apply (IH (length (drop 3 s))); [|done]. rewrite length_drop. lia.
  - destruct s as [|a s1]; [done|].
    apply not_true_iff_false. intros (r & E)%fence_starts.
    injection E as -> E. apply not_true_iff_false in Hp. apply Hp, fence_starts.
    rewrite (str_replace_eq fence []) in E by done.
    destruct (str_startswith fence s1) eqn:Hp1.
    { apply fence_starts in Hp1 as (r1 & ->). eauto. }
    destruct s1 as [|b s2]; [done|]. injection E as -> E.
    rewrite (str_replace_eq fence []) in E by done.
    destruct (str_startswith fence s2) eqn:Hp2.
    { apply fence_starts in Hp2 as (r2 & ->). eauto. }
    destruct s2 as [|c s3]; [done|]. injection E as -> E. eauto.
Qed.

Lemma str_replace_fence_gone s : occurs fence (str_replace fence [] s) = false.
Proof.
  remember (length s) as n eqn:Hn. revert s Hn.
  induction n as [n IH] using lt_wf_ind; intros s Hn.
  pose proof (str_replace_fence_head s) as Hh.
  rewrite (str_replace_eq fence []) in Hh |- * by done.
  destruct (str_startswith fence s) eqn:Hp.
  - pose proof (str_startswith_length _ _ Hp) as Hlen.
    change (length fence) with 3%nat in *. cbn [app].
    apply (IH (length (drop 3 s))); [|done]. rewrite length_drop. lia.
  - destruct s as [|a s]; [done|]. cbn [occurs]. rewrite Hh. cbn [orb].
    apply (IH (length s)); [cbn in Hn; lia|done].
Qed.

(** X20 (what cleaning leaves). The cleaned reply holds no backtick fence,
    with or without the [json] tag, wherever the fence stood in the reply;
    it has no whitespace at either end; cleaning it again changes nothing;
    and a reply without a fence is only stripped. *)
Theorem clean_reply_leaves_no_fence text :
  occurs fence (clean_reply text) = false /\
  occurs fence_json (clean_reply text) = false /\
  str_strip (clean_reply text) = clean_reply text /\
  clean_reply (clean_reply text) = clean_reply text /\
  (occurs fence text = false -> clean_reply text = str_strip text).
Proof.
  assert (H1 : occurs fence (clean_reply text) = false).
  { unfold clean_reply. apply occurs_strip, str_replace_fence_gone. }
  assert (H2 : str_strip (clean_reply text) = clean_reply text).
  { unfold clean_reply. apply str_strip_idem. }
  assert (H3 : forall t, occurs fence t = false -> clean_reply t = str_strip t).
  { intros t Ht. unfold clean_reply. apply occurs_strip in Ht.
    rewrite (str_replace_absent fence_json) by (by try apply occurs_fence_json).
    rewrite (str_replace_absent fence) by done. apply str_strip_idem. }
  split; [done|]. split; [by apply occurs_fence_json|]. split; [done|].
  split; [|apply H3]. by rewrite H3, H2.
Qed.

(** ** Start-up and the world forge *)

Lemma os_getenv_key_of e name : os_getenv e name = key_of e name.
Proof.
  unfold os_getenv, os_environ, key_of. destruct (secrets e) as [s|]; [|done].
  rewrite lookup_union. by destruct (s !! name), (environ e !! name).
Qed.

(** X1 (each key has its own source). Each of the three keys is the one of
    the secrets file when the file holds it and the one of the environment
    otherwise, whether or not the other two are in the file: the subscript
    that fails sends the loader to [os.getenv], and by then the secrets file
    has been exported to the environment. So a secrets file with the Google
    key is enough for the script to start. *)
Theorem keys_are_found_per_key e :
  load_api_keys e =
    ApiKeys (key_of e "GOOGLE_API_KEY") (key_of e "STABILITY_API_KEY")
            (key_of e "ELEVENLABS_API_KEY") /\
  forall s (g : pystr),
    secrets e = Some s -> s !! "GOOGLE_API_KEY" = Some g -> g <> [] ->
    GOOGLE_API_KEY (load_api_keys e) = Some g /\
    forall w, exists t, configure e w = (Ret (load_api_keys e), w, t).
Proof.
  assert (H : load_api_keys e =
    ApiKeys (key_of e "GOOGLE_API_KEY") (key_of e "STABILITY_API_KEY")
            (key_of e "ELEVENLABS_API_KEY")).
  { unfold load_api_keys. rewrite !os_getenv_key_of. unfold key_of.
    destruct (secrets e) as [s|]; [|done].
    by destruct (s !! "GOOGLE_API_KEY"), (s !! "STABILITY_API_KEY"),
      (s !! "ELEVENLABS_API_KEY"). }
  split; [exact H|]. intros s g Hs Hg Hne.
  assert (Hk : GOOGLE_API_KEY (load_api_keys e) = Some g).
  { rewrite H. cbn [GOOGLE_API_KEY]. unfold key_of. by rewrite Hs, Hg. }
  split; [exact Hk|]. intros w. unfold configure, mbind, M_bind. rewrite Hk.
  assert (key_set (Some g) = true) as -> by (by destruct g).
  destruct (key_set (ELEVENLABS_API_KEY _)); eauto.
Qed.

Lemma configure_eq e w :
  key_set (GOOGLE_API_KEY (load_api_keys e)) = true ->
  configure e w = (Ret (load_api_keys e), w, Ui <$> startup_elements e).
Proof.
  intros Hk. unfold configure, startup_elements, mbind, M_bind. rewrite Hk.
  by destruct (key_set (ELEVENLABS_API_KEY _)).
Qed.

Lemma audio_eq keys e text w :
  generate_and_play_audio keys e text w
  = (Ret tt, w, Ui <$> narration_elements keys e text).
Proof.
  unfold generate_and_play_audio, narration_elements.
  destruct (key_set (ELEVENLABS_API_KEY keys)); [|done]. cbn.
  destruct (text_to_speech e text); [done|].
  by destruct (music_exists e).
Qed.

Lemma after_init_caches w :
  bible_cache (after_init w) = bible_cache w /\
  chapter_cache (after_init w) = chapter_cache w /\
  image_cache (after_init w) = image_cache w.
Proof. unfold after_init. by destruct (session w !! "app_stage"). Qed.

Lemma after_init_stage w : is_Some (stage_of (after_init w)).
Proof.
  unfold after_init, stage_of. destruct (session w !! "app_stage") eqn:Hs.
  - by rewrite Hs.
  - cbn. by simplify_map_eq.
Qed.

Lemma script_eq e ev w stage :
  key_set (GOOGLE_API_KEY (load_api_keys e)) = true ->
  stage_of (after_init w) = Some stage ->
  script e ev w =
    let '(r, w', t) :=
      ((if is_stage stage world_forge then world_forge_stage e ev
        else if is_stage stage story_start then
               story_start_stage (load_api_keys e) e ev
        else if is_stage stage story_cycle then
               story_cycle_stage (load_api_keys e) e ev
        else pass);; restart_button ev) (after_init w) in
    (r, w', (Ui <$> startup_elements e) ++ t).
Proof.
  intros Hk Hs. unfold script. unfold mbind at 1, M_bind at 1.
  rewrite configure_eq by done. unfold mbind at 1, M_bind at 1.
  rewrite init_session_eq. unfold mbind at 1, M_bind at 1.
  unfold get_attr. unfold stage_of in Hs. rewrite Hs. cbn [app].
  by destruct (@mbind M _ _ _ _ _ (after_init w)) as [[r w'] t].
Qed.

Lemma is_stage_refl name : is_stage (PStr name) name = true.
Proof. simpl. by apply bool_decide_eq_true. Qed.

Lemma elements_of_app t1 t2 : elements_of (t1 ++ t2) = elements_of t1 ++ elements_of t2.
Proof. unfold elements_of. by rewrite omap_app. Qed.

(** X2 (Set the Stage). In the world-forge stage, with the Google key set,
    submitting the form ends the run in [st.rerun()] with the world bible
    stored and the stage moved to [story_start], when the bible comes from
    the cache or the model returns a text (which is then cached under the
    three inputs). When the model call raises or its response has no text,
    the exception leaves the script uncaught: nothing is drawn about it and
    the session and the cache stay as they were. *)
Theorem world_forge_submit e theme archetype contradiction w :
  key_set (GOOGLE_API_KEY (load_api_keys e)) = true ->
  stage_of (after_init w) = Some (PStr world_forge) ->
  let key := bible_key theme archetype contradiction in
  let '(r, w', t) := script e (SubmitWorldForge theme archetype contradiction) w in
  let forged := fun wb =>
    (r = Throw Rerun /\
     session w' = <["app_stage" := PStr story_start]>
                    (<["world_bible" := wb]> (session (after_init w)))) in
  let failed := fun x =>
    (r = Throw (Raise x) /\ session w' = session (after_init w) /\
     bible_cache w' = bible_cache w /\ elements_of t = startup_elements e) in
  match cache_get key (bible_cache w) with
  | Some (wb, els) =>
      forged wb /\ bible_cache w' = bible_cache w /\
      elements_of t = startup_elements e ++ els
  | None =>
      match bible_content e theme archetype contradiction with
      | GenReply text =>
          forged (PStr text) /\
          cache_get key (bible_cache w') = Some (PStr text, []) /\
          elements_of t = startup_elements e
      | GenRaise x => failed x
      | GenNoText => failed ValueError
      end
  end.
Proof.
  intros Hk Hs. rewrite (script_eq e _ w _ Hk Hs), is_stage_refl.
  destruct (after_init_caches w) as (Hb & _ & _).
  unfold world_forge_stage, generate_world_bible, st_cache_data, mbind, M_bind.
  cbn [get_cache]. fold (bible_key theme archetype contradiction).
  rewrite Hb. cbn zeta.
  destruct (cache_get _ (bible_cache w)) as [[wb els]|].
  { cbn. by rewrite app_nil_r, elements_of_app, !elements_of_ui. }
  destruct (bible_content e theme archetype contradiction) as [x| |text]; cbn.
  - rewrite app_nil_r, elements_of_ui. by rewrite Hb.
  - rewrite app_nil_r, elements_of_ui. by rewrite Hb.
  - rewrite app_nil_r, elements_of_ui. split; [done|]. split; [|done].
    by rewrite bool_decide_eq_true_2.
Qed.

Lemma after_init_set w s : stage_of w = Some s -> after_init w = w.
Proof. unfold stage_of, after_init. by intros ->. Qed.

Lemma script_story_start_eq e ev w :
  key_set (GOOGLE_API_KEY (load_api_keys e)) = true ->
  stage_of w = Some (PStr story_start) ->
  script e ev w =
    let '(r, w', t) :=
      (story_start_stage (load_api_keys e) e ev;; restart_button ev) w in
    (r, w', (Ui <$> startup_elements e) ++ t).
Proof.
  intros Hk Hs. pose proof (after_init_set _ _ Hs) as Hi.
  rewrite (script_eq e _ w (PStr story_start) Hk) by (by rewrite Hi).
  rewrite Hi.
  assert (is_stage (PStr story_start) world_forge = false) as ->
    by (vm_compute; reflexivity).
  by rewrite is_stage_refl.
Qed.

Lemma script_story_cycle_eq e ev w :
  key_set (GOOGLE_API_KEY (load_api_keys e)) = true ->
  stage_of w = Some (PStr story_cycle) ->
  script e ev w =
    let '(r, w', t) :=
      (story_cycle_stage (load_api_keys e) e ev;; restart_button ev) w in
    (r, w', (Ui <$> startup_elements e) ++ t).
Proof.
  intros Hk Hs. pose proof (after_init_set _ _ Hs) as Hi.
  rewrite (script_eq e _ w (PStr story_cycle) Hk) by (by rewrite Hi).
  rewrite Hi.
  assert (is_stage (PStr story_cycle) world_forge = false) as ->
    by (vm_compute; reflexivity).
  assert (is_stage (PStr story_cycle) story_start = false) as ->
    by (vm_compute; reflexivity).
  by rewrite is_stage_refl.
Qed.

(** ** The cached helpers *)

Lemma image_try_image e p img :
  image_try e p = inr img -> exists b64, img = PImage b64.
Proof.
  unfold image_try.
  destruct (requests_post e p) as [?|status body]; [done|].
  destruct ((400 <=? status) && (status <? 600)); [done|].
  destruct (Json.loads body) as [data|]; [|done].
  destruct (subscript data k_artifacts) as [?|a]; [done|].
  destruct (subscript0 a) as [?|a0]; [done|].
  destruct (subscript a0 k_base64) as [?|[]]; try done.
  destruct (image_open e s); [|done]. intros [= <-]. by eexists.
Qed.

Lemma image_body_outcome keys e p w :
  exists r els,
    image_body keys e p w = (r, w, Ui <$> els) /\
    match r with
    | Ret v => v = PNone \/ exists b64, v = PImage b64
    | Throw s =>
        exists status body,
          image_try e p = inl (HTTPError status body) /\
          Json.loads body = None /\ s = Raise JSONDecodeError /\
          key_set (STABILITY_API_KEY keys) = true /\
          els = [StError (StabilityHTTPError status)]
    end.
Proof.
  unfold image_body. destruct (key_set (STABILITY_API_KEY keys)) eqn:Hk; cbn [negb].
  2: { exists (Ret PNone), [StWarning StabilityKeyNotFound]. split; [done|]. by left. }
  destruct (image_try e p) as [x|img] eqn:Ht.
  2: { exists (Ret img), []. split; [done|]. right. by eapply image_try_image. }
  destruct x as [k| | |n|n| | |status body|msg];
    try (by eexists (Ret PNone), [_]; split; [done|left]).
  destruct (Json.loads body) as [j|] eqn:Hj.
  - exists (Ret PNone), [StError (StabilityHTTPError status); StJson j].
    split; [done|]. by left.
  - exists (Throw (Raise JSONDecodeError)), [StError (StabilityHTTPError status)].
    split; [done|]. by exists status, body.
Qed.

(** X3 (outcomes of an image request). A call of [generate_image_stability]
    that is not served from the cache never touches the session. It returns
    [None] or an image and caches what it returns; or it raises, and then the
    request failed with an HTTP error whose body is not JSON, the status was
    drawn, and nothing was cached. *)
Theorem image_outcomes keys e p w :
  cache_get p (image_cache w) = None ->
  let '(r, w', t) := generate_image_stability keys e p w in
  session w' = session w /\
  match r with
  | Ret v =>
      (v = PNone \/ exists b64, v = PImage b64) /\
      cache_get p (image_cache w') = Some (v, elements_of t)
  | Throw s =>
      exists status body,
        image_try e p = inl (HTTPError status body) /\
        Json.loads body = None /\ s = Raise JSONDecodeError /\
        key_set (STABILITY_API_KEY keys) = true /\
        w' = w /\ elements_of t = [StError (StabilityHTTPError status)]
  end.
Proof.
  intros Hc. unfold generate_image_stability, st_cache_data. cbn [get_cache].
  rewrite Hc. destruct (image_body_outcome keys e p w) as (r & els & -> & Hr).
  destruct r as [v|s].
  - split; [done|]. split; [done|]. cbn. by rewrite bool_decide_eq_true_2.
  - split; [done|]. destruct Hr as (status & body & ? & ? & ? & ? & ->).
    exists status, body. by rewrite elements_of_ui.
Qed.

(** X4 (image results are remembered). What [generate_image_stability]
    returned for a prompt, a [None] after a failure included, is returned
    again for the same prompt as long as the cache keeps the entry, whatever
    the keys and the image service are by then, and the elements the first
    call drew are drawn again. *)
Theorem image_result_remembered keys e p w v w1 t1 :
  generate_image_stability keys e p w = (Ret v, w1, t1) ->
  forall keys2 e2 w2,
    cache_get p (image_cache w2) = cache_get p (image_cache w1) ->
    exists els,
      generate_image_stability keys2 e2 p w2 = (Ret v, w2, Ui <$> els) /\
      (cache_get p (image_cache w) = None -> els = elements_of t1).
Proof.
  intros H keys2 e2 w2 Hw2.
  assert (exists els, cache_get p (image_cache w1) = Some (v, els) /\
            (cache_get p (image_cache w) = None -> els = elements_of t1))
    as (els & Hc & Hels).
  { apply cache_inv in H as [(v0 & els & Hc & [= <-] & -> & _)
                            |(Hc & r1 & wb & Hb & <- & ->)].
    - exists els. split; [done|]. cbn in Hc. by rewrite Hc.
    - eexists. split; [apply cache_get_head|done]. }
  exists els. split; [|done].
  unfold generate_image_stability, st_cache_data. cbn [get_cache].
  by rewrite Hw2, Hc.
Qed.

(** X5 (a reply that does not parse is remembered). After a call of
    [generate_story_chapter] whose reply [json.loads] rejected, every call
    with the same user choice returns [None] from the cache and draws the
    same error and raw text again, whatever its story context, world bible
    and model: no new request is sent. *)
Theorem parse_failure_remembered e c b uc w text :
  cache_get uc (chapter_cache w) = None ->
  generate_content e (Prompt uc c b) = GenReply text ->
  parse_reply text = None ->
  let '(_, w1, _) := generate_story_chapter e c b uc w in
  forall e2 c2 b2,
    generate_story_chapter e2 c2 b2 uc w1 =
      (Ret PNone, w1,
       [CallChapter c2 b2 uc; Ui (StError (ErrorProcessingAI JSONDecodeError));
        Ui (StCode text); ReturnChapter PNone]).
Proof.
  intros Hc Hg Hp. unfold generate_story_chapter, st_cache_data, mbind, M_bind, note.
  cbn. rewrite Hc, chapter_body_eq. cbn zeta. rewrite Hg. cbn. rewrite Hp. cbn.
  intros e2 c2 b2. by rewrite bool_decide_eq_true_2.
Qed.

(** ** What a turn commits *)

(** X7 (empty opening sentence). Submitting the start form with an empty
    sentence does nothing: the run ends normally, the world is unchanged and
    only the start-up elements are in the log. *)
Theorem empty_opening_is_ignored e w :
  key_set (GOOGLE_API_KEY (load_api_keys e)) = true ->
  stage_of w = Some (PStr story_start) ->
  script e (SubmitStart []) w = (Ret tt, w, Ui <$> startup_elements e).
Proof.
  intros Hk Hs. rewrite script_story_start_eq by done.
  cbn. unfold mbind, M_bind, pass. cbn. by rewrite app_nil_r.
Qed.

(** X8 (a falsy reply is dropped silently). When the reply of the opening
    turn is valid JSON for a falsy value ([null], [false], [0], an empty
    string, list or object), the run ends normally with the session
    unchanged and draws no error; the value is cached under the opening
    sentence. *)
Theorem falsy_reply_is_dropped e ip w wb text v :
  key_set (GOOGLE_API_KEY (load_api_keys e)) = true ->
  stage_of w = Some (PStr story_start) ->
  ip <> [] ->
  session w !! "world_bible" = Some wb ->
  cache_get (PStr ip) (chapter_cache w) = None ->
  generate_content e (Prompt (PStr ip) (PStr ip) wb) = GenReply text ->
  parse_reply text = Some v -> truthy v = false ->
  let '(r, w', t) := script e (SubmitStart ip) w in
  r = Ret tt /\ session w' = session w /\
  elements_of t = startup_elements e /\
  cache_get (PStr ip) (chapter_cache w') = Some (v, []).
Proof.
  intros Hk Hs Hip Hwb Hc Hg Hp Hv. rewrite script_story_start_eq by done.
  unfold story_start_stage.
  assert (truthy (PStr ip) = true) as -> by (by destruct ip).
  unfold start_story_turn, get_attr, generate_story_chapter,
    st_cache_data, mbind, M_bind, note.
  rewrite Hwb. cbn. rewrite Hc, chapter_body_eq. cbn zeta. rewrite Hg. cbn.
  rewrite Hp. cbn. rewrite Hv. cbn. rewrite bool_decide_eq_true_2 by done.
  split; [done|]. split; [done|]. split; [|done].
  rewrite elements_of_app, elements_of_ui. cbn. by rewrite app_nil_r.
Qed.

(** X11 (what a choice turn commits). A run of the choice form that ends in
    [st.rerun()] was made in [story_cycle]; [generate_story_chapter] returned
    a truthy reply; the transcript gained exactly one chapter, the reply's
    [narrative_chapter]; the pending choices are the reply's [next_choices];
    the stage is unchanged. *)
Theorem choice_turn_commit e i w w' t :
  script e (SubmitChoice i) w = (Throw Rerun, w', t) ->
  stage_of w = Some (PStr story_cycle) /\
  exists ai tx c img items,
    returns t = [ai] /\ truthy ai = true /\
    subscript ai k_narrative_chapter = inr tx /\
    subscript ai k_next_choices = inr c /\
    chapters_of w = Some (PList items) /\
    chapters_of w' = Some (PList (items ++ [chapter tx img])) /\
    choices_of w' = Some c /\ stage_of w' = Some (PStr story_cycle).
Proof.
  intros Hrun. apply script_inv in Hrun.
  destruct Hrun as [_ [=] _ _|[=] _ _ _|_ [[=]|(x & [=])] _|th ar co wb [=] _ _ _ _
                   |ip t0 tt [=] _ _ _ _|i' c wc t0 tt _ Hst Hsame _ Hd -> Hturn].
  split; [done|].
  apply choice_turn_inv in Hturn as [(x & [=] & _)|(ctx & _ & Hf)].
  destruct (turn_committed _ _ _ _ _ _ _ _ _ Hf eq_refl)
    as (ai & c' & items & tx & img & Hr & Hai & Hnc & Htx & Hch & Hch' & Hc' & Hs').
  exists ai, tx, c', img, items. rewrite drawing_returns by done.
  destruct Hsame as (Hs1 & _ & Hs3 & _). unfold chapters_of, stage_of in *.
  rewrite <- Hs3, Hs' , Hs1. by rewrite Hst.
Qed.

(** X10 (what the opening turn commits). A run of the start form that ends
    in [st.rerun()] was made in [story_start]; [generate_story_chapter]
    returned a truthy reply; the transcript gained the opening sentence with
    no image and then the reply's [narrative_chapter]; the pending choices
    are the reply's [next_choices]; the stage is [story_cycle]. *)
Theorem opening_turn_commit e ip w w' t :
  script e (SubmitStart ip) w = (Throw Rerun, w', t) ->
  stage_of w = Some (PStr story_start) /\
  exists ai tx c img items,
    returns t = [ai] /\ truthy ai = true /\
    subscript ai k_narrative_chapter = inr tx /\
    subscript ai k_next_choices = inr c /\
    chapters_of w = Some (PList items) /\
    chapters_of w' =
      Some (PList (items ++ [chapter (PStr ip) PNone; chapter tx img])) /\
    choices_of w' = Some c /\ stage_of w' = Some (PStr story_cycle).
Proof.
  intros Hrun. apply script_inv in Hrun.
  destruct Hrun as [_ [=] _ _|[=] _ _ _|_ [[=]|(x & [=])] _|th ar co wb [=] _ _ _ _
                   |ip' t0 tt [= <-] Hst Hd -> Hturn|i' c wc t0 tt [=] _ _ _ _ _ _].
  split; [done|].
  apply start_story_turn_inv in Hturn as [(x & [=] & _)|Hf].
  destruct (turn_committed _ _ _ _ _ _ _ _ _ Hf eq_refl)
    as (ai & c' & items & tx & img & Hr & Hai & Hnc & Htx & Hch & Hch' & Hc' & Hs').
  exists ai, tx, c', img, items. by rewrite drawing_returns.
Qed.

(** ** The story cycle, case by case *)

Ltac at_rest :=
  left; cbn [app]; rewrite ?app_nil_r;
  split; [by auto using drawing_nil, drawing_app, drawing_one
         |split; [by (left + (right; eexists))|eauto]].

Lemma story_cycle_stage_cases keys e ev w r w' t :
  story_cycle_stage keys e ev w = (r, w', t) ->
  (drawing t /\ (w' = w \/ exists c, w' = with_radio c w) /\
   (r = Ret tt \/ exists x, r = Throw (Raise x))) \/
  (exists i latest options t0 tt,
     ev = SubmitChoice i /\ choices_of w = Some latest /\ truthy latest = true /\
     radio_options latest = inr options /\ drawing t0 /\
     choice_turn keys e (selected options ev) (with_radio (selected options ev) w)
       = (r, w', tt) /\
     t = t0 ++ tt).
Proof.
  unfold story_cycle_stage. intros H.
  step H as chapters wd1 tr1 Hm; apply get_attr_inv in Hm as (-> & -> & Hr);
    destruct (session w !! "story_chapters") as [chapters'|] eqn:Hch;
    try discriminate Hr; injection Hr as ?; subst; [at_rest|].
  step H as items wd2 tr2 Hm; apply lift_inv in Hm as (-> & -> & Hr);
    destruct (py_iter chapters') as [|items'];
    try discriminate Hr; injection Hr as ?; subst; [at_rest|].
  step H as u wd3 tr3 Hm; apply render_inv in Hm as (-> & Hd & Hr); [at_rest|].
  clear Hr. cbn [app].
  step H as u' wd4 tr4 Hm.
  { destruct (truthy chapters'); [|by inversion Hm].
    step Hm as full wd5 tr5 Hm';
      apply joined_story_inv in Hm' as (-> & -> & [(x & [= ->])|(ctx' & [= <-] & Hj)]);
      [at_rest|].
    destruct ev; try by inversion Hm.
    by apply audio_inv in Hm as ([=] & _). }
  assert (wd4 = w /\ drawing tr4) as (-> & Hd4).
  { destruct (truthy chapters'); [|injection Hm as _ <- <-; split; [done|apply drawing_nil]].
    step Hm as full wd5 tr5 Hm';
      apply joined_story_inv in Hm' as (-> & -> & [(x & [= ->])|(ctx' & [= <-] & Hj)]).
    destruct ev; try (injection Hm as _ <- <-; split; [done|apply drawing_nil]).
    apply audio_inv in Hm as (_ & -> & ?). by split. }
  clear Hm.
  step H as present wd6 tr6 Hm; apply has_attr_inv in Hm as (-> & -> & Hr);
    try discriminate Hr; injection Hr as ?; subst.
  cbn [app]. case_bool_decide as Hp; [|injection H as <- <- <-; at_rest].
  step H as latest wd7 tr7 Hm; apply get_attr_inv in Hm as (-> & -> & Hr);
    destruct (session w !! "latest_choices") as [latest'|] eqn:Hl;
    try discriminate Hr; injection Hr as ?; subst; [by destruct Hp|].
  cbn [app]. destruct (truthy latest') eqn:Htr; [|injection H as <- <- <-; at_rest].
  step H as options wd8 tr8 Hm; apply lift_inv in Hm as (-> & -> & Hr);
    destruct (radio_options latest') as [|options'] eqn:Hit;
    try discriminate Hr; injection Hr as ?; subst; [at_rest|].
  cbn [app].
  step H as u2 wd9 tr9 Hm; apply set_attr_inv in Hm as (? & -> & ->); [done|].
  cbn [app]. rewrite app_assoc.
  destruct ev as [| | | |i|]; try (injection H as <- <- <-; at_rest).
  right. eexists i, latest', options', (tr3 ++ tr4), _.
  split; [done|]. split; [done|]. split; [done|]. split; [done|].
  split; [by apply drawing_app|]. split; [exact H|done].
Qed.

Lemma truthy_iter v items :
  truthy v = true -> radio_options v = inr items -> items <> [].
Proof. destruct v as [| | | |[|]|[|]|[|]|]; try done; by intros _ [= <-]. Qed.

Lemma selected_in options ev : options <> [] -> selected options ev ∈ options.
Proof.
  destruct options as [|o options]; [done|]. intros _.
  assert (Hhead : default PNone (head (o :: options)) ∈ o :: options) by (cbn; left).
  destruct ev; try exact Hhead. cbn [selected].
  destruct ((o :: options) !! index) as [x|] eqn:Hx; [|exact Hhead].
  cbn. by eapply list_elem_of_lookup_2.
Qed.

Lemma calls_drawing t : drawing t -> calls t = [].
Proof. by intros (? & _). Qed.

Lemma script_stopped e ev w :
  key_set (GOOGLE_API_KEY (load_api_keys e)) = false ->
  script e ev w = (Throw Stop, w, [Ui (StError GoogleKeyNotFound)]).
Proof. intros Hk. unfold script, configure, mbind, M_bind. by rewrite Hk. Qed.

(** X12 (the choice passed on). In [story_cycle] a run calls
    [generate_story_chapter] at most once, with the world bible of the
    session and with a user choice that is one of the options of the radio:
    an item of the pending choices when they are a list, a key when they
    are a dict, the pending choices themselves when they are a str or a
    number. *)
Theorem choice_passed_is_pending e ev w r w' t ctx wb uc :
  stage_of w = Some (PStr story_cycle) ->
  script e ev w = (r, w', t) ->
  (ctx, wb, uc) ∈ calls t ->
  calls t = [(ctx, wb, uc)] /\
  session w !! "world_bible" = Some wb /\
  exists latest options,
    choices_of w = Some latest /\ radio_options latest = inr options /\ uc ∈ options.
Proof.
  intros Hst Hrun Hin.
  destruct (key_set (GOOGLE_API_KEY (load_api_keys e))) eqn:Hk.
  2: { rewrite script_stopped in Hrun by done. injection Hrun as <- <- <-.
       autorewrite with log in Hin. by apply elem_of_nil in Hin. }
  rewrite script_story_cycle_eq in Hrun by done.
  destruct ((story_cycle_stage _ e ev;; restart_button ev) w) as [[r1 w1] t1] eqn:H1.
  injection Hrun as <- <- <-.
  assert (Hin1 : (ctx, wb, uc) ∈ calls t1).
  { apply (drawing_calls (Ui <$> startup_elements e)); [apply drawing_ui|done]. }
  assert (Hc1 : calls ((Ui <$> startup_elements e) ++ t1) = calls t1).
  { autorewrite with log. done. }
  rewrite Hc1. clear Hin Hc1.
  assert (exists r0 w0 ts, story_cycle_stage (load_api_keys e) e ev w = (r0, w0, ts)
                     /\ calls t1 = calls ts) as (r0 & w0 & ts & Hm & Hcs).
  { step H1 as u w0 ts Hm.
    - by eexists _, _, t1.
    - exists (Ret u), w0, ts. split; [done|]. rewrite restart_button_eq in H1.
      destruct ev; injection H1 as _ _ <-; autorewrite with log;
        by rewrite ?app_nil_r. }
  rewrite Hcs in *. clear H1 Hcs.
  apply story_cycle_stage_cases in Hm
    as [(Hd & _)|(i & latest & options & t0 & tt & -> & Hl & Htr & Hit & Hd & Hturn & ->)].
  { rewrite calls_drawing in Hin1 by done. by apply elem_of_nil in Hin1. }
  assert (Hcalls : calls (t0 ++ tt) = calls tt).
  { autorewrite with log. by rewrite calls_drawing. }
  rewrite Hcalls in *.
  apply choice_turn_inv in Hturn as [(x & _ & _ & ->)|(ctx' & _ & Hf)].
  { autorewrite with log in Hin1. by apply elem_of_nil in Hin1. }
  destruct (turn_calls _ _ _ _ _ _ _ _ _ Hf) as [Hc|(wb0 & Hwb & Hc)];
    rewrite Hc in Hin1; [by apply elem_of_nil in Hin1|].
  apply list_elem_of_singleton in Hin1. injection Hin1 as -> -> ->.
  split; [done|]. split.
  { cbn in Hwb. by rewrite lookup_insert_ne in Hwb. }
  exists latest, options. split; [done|]. split; [done|].
  apply (selected_in options (SubmitChoice i)). by eapply truthy_iter.
Qed.

Lemma same_caches_session f w : same_caches w (with_session f w).
Proof. done. Qed.

(** X14 (a run of the restart button). Such a run never calls
    [generate_story_chapter] and keeps the three caches. It ends in
    [st.rerun()] with an empty session, unless the Google key is missing
    (it stops before the button) or the page of [story_cycle] raises before
    the button is reached. *)
Theorem restart_run_outcomes e w r w' t :
  script e ClickRestart w = (r, w', t) ->
  calls t = [] /\ same_caches w w' /\
  ((r = Throw Rerun /\ session w' = ∅) \/
   (r = Throw Stop /\ w' = w /\
    key_set (GOOGLE_API_KEY (load_api_keys e)) = false) \/
   (exists x, r = Throw (Raise x) /\ stage_of w = Some (PStr story_cycle))).
Proof.
  intros Hrun.
  destruct (key_set (GOOGLE_API_KEY (load_api_keys e))) eqn:Hk.
  2: { rewrite script_stopped in Hrun by done. injection Hrun as <- <- <-.
       autorewrite with log. split; [done|]. split; [done|]. right. by left. }
  destruct (after_init_stage w) as [st Hst].
  rewrite (script_eq e _ w st Hk Hst) in Hrun.
  assert (Hpass : (pass;; restart_button ClickRestart) (after_init w)
                  = (Throw Rerun, with_session clear_session (after_init w), [])) by done.
  assert (Hdone : forall pre,
            drawing pre ->
            (Throw Rerun, with_session clear_session (after_init w), pre ++ [])
              = (r, w', t) ->
            calls t = [] /\ same_caches w w' /\
            ((r = Throw Rerun /\ session w' = ∅) \/
             (r = Throw Stop /\ w' = w /\ true = false) \/
             (exists x, r = Throw (Raise x) /\ stage_of w = Some (PStr story_cycle)))).
  { intros pre Hd [= <- <- <-]. rewrite app_nil_r. split; [by apply calls_drawing|].
    split; [apply after_init_caches|]. left. split; [done|]. cbn.
    apply clear_session_empty. }
  destruct (is_stage st world_forge).
  { change (world_forge_stage e ClickRestart) with pass in Hrun. rewrite Hpass in Hrun.
    apply (Hdone _ (drawing_ui _) Hrun). }
  destruct (is_stage st story_start).
  { change (story_start_stage (load_api_keys e) e ClickRestart) with pass in Hrun.
    rewrite Hpass in Hrun. apply (Hdone _ (drawing_ui _) Hrun). }
  destruct (is_stage st story_cycle) eqn:Hcy.
  2: { rewrite Hpass in Hrun. apply (Hdone _ (drawing_ui _) Hrun). }
  apply is_stage_true in Hcy as ->.
  apply stage_after_init in Hst as (Hst & Hi); [|done]. rewrite Hi in *.
  destruct ((story_cycle_stage _ e _;; restart_button _) w) as [[r1 w1] t1] eqn:H1.
  injection Hrun as <- <- <-.
  step H1 as u w0 ts Hm;
    apply story_cycle_stage_cases in Hm
      as [(Hd & Hw & Hr)|(i & ? & ? & ? & ? & [=] & _)].
  - destruct Hr as [[=]|(x & [= ->])]. split.
    { apply calls_drawing, drawing_app; [apply drawing_ui|done]. }
    split; [by destruct Hw as [->|(c & ->)]|]. right. right. by exists x.
  - rewrite restart_button_eq in H1. injection H1 as <- <- <-. split.
    { apply calls_drawing, drawing_app; [apply drawing_ui|]. by rewrite app_nil_r. }
    split; [by destruct Hw as [->|(c & ->)]|]. left. split; [done|].
    cbn. apply clear_session_empty.
Qed.

Lemma drawing_both t : drawing t -> calls t = [] /\ generations t = [].
Proof. by intros (? & _ & ?). Qed.

(** X13 (runs without a submit). A run caused by nothing or by the narrate
    button calls neither [generate_story_chapter] nor the model, leaves the
    three caches and the four fields of the saga as they were (after the
    initialisation), and never ends in [st.rerun()]; it can only raise in
    [story_cycle]. *)
Theorem passive_runs_change_nothing e ev w r w' t :
  ev = NoEvent \/ ev = ClickNarrate ->
  script e ev w = (r, w', t) ->
  calls t = [] /\ generations t = [] /\ same_caches w w' /\
  (w' = w \/ same_saga (session (after_init w)) (session w')) /\
  (r = Ret tt \/ r = Throw Stop \/
   exists x, r = Throw (Raise x) /\ stage_of w = Some (PStr story_cycle)).
Proof.
  intros Hev Hrun.
  destruct (key_set (GOOGLE_API_KEY (load_api_keys e))) eqn:Hk.
  2: { rewrite script_stopped in Hrun by done. injection Hrun as <- <- <-.
       autorewrite with log. repeat split; auto. }
  destruct (after_init_stage w) as [st Hst].
  rewrite (script_eq e _ w st Hk Hst) in Hrun.
  assert (Hpass : (pass;; restart_button ev) (after_init w) = (Ret tt, after_init w, []))
    by (by destruct Hev as [-> | ->]).
  assert (Hdone : (Ret tt, after_init w, (Ui <$> startup_elements e) ++ [])
                    = (r, w', t) ->
            calls t = [] /\ generations t = [] /\ same_caches w w' /\
            (w' = w \/ same_saga (session (after_init w)) (session w')) /\
            (r = Ret tt \/ r = Throw Stop \/
             exists x, r = Throw (Raise x) /\ stage_of w = Some (PStr story_cycle))).
  { intros [= <- <- <-]. rewrite app_nil_r.
    destruct (drawing_both _ (drawing_ui (startup_elements e))) as [-> ->].
    split; [done|]. split; [done|]. split; [apply after_init_caches|].
    split; [right; apply same_saga_refl|by left]. }
  destruct (is_stage st world_forge).
  { assert (world_forge_stage e ev = pass) as Hp by (by destruct Hev as [-> | ->]).
    rewrite Hp, Hpass in Hrun. by apply Hdone. }
  destruct (is_stage st story_start).
  { assert (story_start_stage (load_api_keys e) e ev = pass) as Hp
      by (by destruct Hev as [-> | ->]).
    rewrite Hp, Hpass in Hrun. by apply Hdone. }
  destruct (is_stage st story_cycle) eqn:Hcy.
  2: { rewrite Hpass in Hrun. by apply Hdone. }
  apply is_stage_true in Hcy as ->.
  apply stage_after_init in Hst as (Hst & Hi); [|done]. rewrite Hi in *.
  destruct ((story_cycle_stage _ e _;; restart_button _) w) as [[r1 w1] t1] eqn:H1.
  injection Hrun as <- <- <-.
  assert (Hsame : forall w0, w0 = w \/ (exists c, w0 = with_radio c w) ->
            same_caches w w0 /\ (w0 = w \/ same_saga (session w) (session w0))).
  { intros w0 [->|(c & ->)]; (split; [done|]); [by left|right].
    apply same_saga_radio. }
  step H1 as u w0 ts Hm;
    apply story_cycle_stage_cases in Hm
      as [(Hd & Hw & Hr)|(i & ? & ? & ? & ? & -> & _)];
    try (by destruct Hev).
  - destruct Hr as [[=]|(x & [= ->])].
    destruct (drawing_both _ (drawing_app _ _ (drawing_ui (startup_elements e)) Hd))
      as [-> ->].
    destruct (Hsame _ Hw). split; [done|]. split; [done|]. split; [done|].
    split; [done|]. right. right. by exists x.
  - rewrite restart_button_eq in H1.
    assert (r1 = Ret tt /\ w1 = w0 /\ rest = []) as (-> & -> & ->).
    { by destruct Hev as [-> | ->]; injection H1 as <- <- <-. }
    rewrite app_nil_r.
    destruct (drawing_both _ (drawing_app _ _ (drawing_ui (startup_elements e)) Hd))
      as [-> ->].
    destruct (Hsame _ Hw). split; [done|]. split; [done|]. split; [done|].
    split; [done|]. by left.
Qed.

(** ** What a turn does to the session *)

Lemma chapter_session e c b u w r w' t :
  generate_story_chapter e c b u w = (r, w', t) -> session w' = session w.
Proof. by intros (? & _)%chapter_inv. Qed.

Lemma choice_turn_session keys e uc w r w' t :
  choice_turn keys e uc w = (r, w', t) ->
  session w' = session w \/
  exists items tx img,
    session w !! "story_chapters" = Some (PList items) /\
    let s1 := <["story_chapters" := PList (items ++ [chapter tx img])]> (session w) in
    (r <> Throw Rerun /\ session w' = s1) \/
    (exists c, r = Throw Rerun /\ session w' = <["latest_choices" := c]> s1).
Proof.
  unfold choice_turn. intros H.
  step H as ctx wd1 tr1 Hm;
    apply joined_story_inv in Hm as (-> & -> & _); [by left|].
  step H as wb wd2 tr2 Hm; apply get_attr_inv in Hm as (-> & -> & _); [by left|].
  step H as ai wd3 tg Hm; apply chapter_session in Hm as Hs; [by left|].
  destruct (truthy ai); [|injection H as <- <- <-; by left].
  step H as p wd4 tr4 Hm'; apply lift_inv in Hm' as (-> & -> & _); [by left|].
  step H as img wd5 ti Hm'; apply image_inv in Hm' as (Hs2 & _);
    [left; congruence|].
  rewrite Hs in Hs2.
  step H as u wd6 tr6 Hm';
    apply append_attr_inv in Hm'
      as (-> & [(x & [= ->] & ->)|(items & ch & Hit & Hch & [= ] & ->)]);
    [by left|].
  destruct (subscript ai k_narrative_chapter) as [|tx] eqn:Htx; [done|].
  injection Hch as <-. right. exists items, tx, img.
  rewrite Hs2 in Hit. split; [done|]. cbn zeta.
  step H as c wd7 tr7 Hm'; apply lift_inv in Hm' as (-> & -> & Hr).
  { left. split; [by destruct (subscript ai k_next_choices); inversion Hr|].
    cbn. by rewrite Hs2. }
  step H as u8 wd8 tr8 Hm'; apply set_attr_inv in Hm' as (? & -> & ->); [done|].
  step H as tx' wd9 tr9 Hm'; apply lift_inv in Hm' as (-> & -> & Hr').
  { done. }
  step H as u' wd10 ta Hm'; apply audio_inv in Hm' as (? & -> & Hda); [done|].
  apply throw_inv in H as (-> & -> & ->). right. exists c. split; [done|].
  cbn. by rewrite Hs2.
Qed.

Lemma start_story_turn_session keys e ip w r w' t :
  start_story_turn keys e ip w = (r, w', t) ->
  session w' = session w \/
  exists items,
    session w !! "story_chapters" = Some (PList items) /\
    let s1 := <["story_chapters" := PList (items ++ [chapter (PStr ip) PNone])]>
                (session w) in
    (r <> Throw Rerun /\ session w' = s1) \/
    exists tx img,
      let s2 := <["story_chapters" :=
                    PList ((items ++ [chapter (PStr ip) PNone]) ++ [chapter tx img])]> s1 in
      (r <> Throw Rerun /\ session w' = s2) \/
      (exists c, r = Throw Rerun /\
         session w' = <["app_stage" := PStr story_cycle]> (<["latest_choices" := c]> s2)).
Proof.
  unfold start_story_turn. intros H.
  step H as wb wd2 tr2 Hm; apply get_attr_inv in Hm as (-> & -> & _); [by left|].
  step H as ai wd3 tg Hm; apply chapter_session in Hm as Hs; [by left|].
  destruct (truthy ai); [|injection H as <- <- <-; by left].
  step H as p wd4 tr4 Hm'; apply lift_inv in Hm' as (-> & -> & _); [by left|].
  step H as img wd5 ti Hm'; apply image_inv in Hm' as (Hs2 & _);
    [left; congruence|].
  rewrite Hs in Hs2.
  step H as u wd6 tr6 Hm';
    apply append_attr_inv in Hm'
      as (-> & [(x & [= ->] & ->)|(items & ch & Hit & [= <-] & [= ] & ->)]);
    [by left|].
  right. exists items. rewrite Hs2 in Hit. split; [done|]. cbn zeta.
  step H as u7 wd7 tr7 Hm';
    apply append_attr_inv in Hm'
      as (-> & [(x & [= ->] & ->)|(items' & ch & Hit' & Hch & [= ] & ->)]).
  { left. split; [done|]. cbn. by rewrite Hs2. }
  cbn in Hit'. rewrite lookup_insert_eq in Hit'. injection Hit' as <-.
  destruct (subscript ai k_narrative_chapter) as [|tx] eqn:Htx; [done|].
  injection Hch as <-. right. exists tx, img.
  step H as c wd8 tr8 Hm'; apply lift_inv in Hm' as (-> & -> & Hr).
  { left. split; [by destruct (subscript ai k_next_choices); inversion Hr|].
    cbn. by rewrite Hs2. }
  step H as u9 wd9 tr9 Hm'; apply set_attr_inv in Hm' as (? & -> & ->); [done|].
  step H as u10 wd10 tr10 Hm'; apply set_attr_inv in Hm' as (? & -> & ->); [done|].
  apply throw_inv in H as (-> & -> & ->). right. exists c. split; [done|].
  cbn. by rewrite Hs2.
Qed.

Lemma saga_fields_same s s' stage wb items c :
  same_saga s s' -> saga_fields s stage wb items c -> saga_fields s' stage wb items c.
Proof. unfold saga_fields. intros (-> & -> & -> & ->). done. Qed.

Lemma after_init_ok w :
  session_ok (session w) ->
  exists stage wb items c,
    saga_fields (session (after_init w)) stage wb items c /\ saga_inv stage wb items c.
Proof.
  intros [Hs|(stage & wb & items & c & Hf & Hi)].
  - exists world_forge, PNone, [], (PList []). unfold after_init. rewrite Hs, lookup_empty.
    cbn. rewrite Hs. split; [by repeat split|]. split; [constructor|].
    split; [done|]. by left.
  - exists stage, wb, items, c. split; [|done].
    rewrite (after_init_set w (PStr stage)); [done|]. by destruct Hf.
Qed.

Lemma opened_app items extra ip :
  opened items -> opened (items ++ chapter (PStr ip) PNone :: extra).
Proof. destruct items; [by exists ip|done]. Qed.

Lemma opened_snoc items ch : items <> [] -> opened items -> opened (items ++ [ch]).
Proof. by destruct items. Qed.

Lemma is_chapter_chapter tx img : is_chapter (chapter tx img).
Proof. by exists tx, img. Qed.

Lemma run_keeps_session_ok e ev w r w' t :
  session_ok (session w) -> script e ev w = (r, w', t) -> session_ok (session w').
Proof.
  intros Hok Hrun. apply script_inv in Hrun.
  destruct Hrun as [_ _ -> _|_ _ Hs _|_ _ Hsame|th ar co wb' _ Hst _ _ Hs
                   |ip t0 tt _ Hst _ _ Hturn|i c wc t0 tt _ Hst Hsame _ _ _ Hturn].
  - done.
  - by left.
  - destruct (after_init_ok w Hok) as (stage & wb & items & c & Hf & Hi).
    right. exists stage, wb, items, c. split; [|done]. by eapply saga_fields_same.
  - destruct (after_init_ok w Hok) as (stage & wb & items & c & Hf & Hi).
    destruct Hf as (Hf1 & Hf2 & Hf3 & Hf4). unfold stage_of in Hst.
    rewrite Hf1 in Hst. injection Hst as ->.
    destruct Hi as (_ & _ & [(_ & _ & -> & ->)|[(? & _)|(? & _)]]); try done.
    right. exists story_start, wb', [], (PList []). rewrite Hs.
    split; [by repeat split; simplify_map_eq|].
    split; [constructor|]. split; [done|]. right. by left.
  - destruct Hok as [Hs|(stage & wb & items & c & (Hf1 & Hf2 & Hf3 & Hf4) & Hi)].
    { unfold stage_of in Hst. by rewrite Hs, lookup_empty in Hst. }
    unfold stage_of in Hst. rewrite Hf1 in Hst. injection Hst as ->.
    destruct Hi as (Hall & Hop & [(? & _)|[(_ & ->)|(? & _)]]); try done.
    apply start_story_turn_session in Hturn
      as [Hs|(items' & Hit & [(_ & Hs)|(tx & img & [(_ & Hs)|(c' & _ & Hs)])])].
    + right. exists story_start, wb, items, (PList []). rewrite Hs.
      split; [done|]. split; [done|]. split; [done|]. right. by left.
    + rewrite Hf3 in Hit. injection Hit as <-.
      right. exists story_start, wb, (items ++ [chapter (PStr ip) PNone]), (PList []).
      rewrite Hs. split; [by repeat split; simplify_map_eq|].
      split; [apply Forall_app; split; [done|]; repeat constructor;
              apply is_chapter_chapter|].
      split; [by apply opened_app|]. right. by left.
    + rewrite Hf3 in Hit. injection Hit as <-.
      right. exists story_start, wb,
        ((items ++ [chapter (PStr ip) PNone]) ++ [chapter tx img]), (PList []).
      rewrite Hs. split; [by repeat split; simplify_map_eq|].
      split; [repeat (apply Forall_app; split); try done; repeat constructor;
              apply is_chapter_chapter|].
      split; [rewrite <- app_assoc; by apply opened_app|]. right. by left.
    + rewrite Hf3 in Hit. injection Hit as <-.
      right. exists story_cycle, wb,
        ((items ++ [chapter (PStr ip) PNone]) ++ [chapter tx img]), c'.
      rewrite Hs. split; [by repeat split; simplify_map_eq|].
      split; [repeat (apply Forall_app; split); try done; repeat constructor;
              apply is_chapter_chapter|].
      split; [rewrite <- app_assoc; by apply opened_app|]. right. right.
      split; [done|]. rewrite !length_app. cbn. lia.
  - destruct Hok as [Hs|(stage & wb & items & c0 & Hf & Hi)].
    { unfold stage_of in Hst. by rewrite Hs, lookup_empty in Hst. }
    pose proof (saga_fields_same _ _ _ _ _ _ Hsame Hf) as (Hf1 & Hf2 & Hf3 & Hf4).
    destruct Hf as (Hf1' & _). unfold stage_of in Hst. rewrite Hf1' in Hst.
    injection Hst as ->.
    destruct Hi as (Hall & Hop & [(? & _)|[(? & _)|(_ & Hlen)]]); try done.
    assert (Hne : items <> []) by (destruct items; [cbn in Hlen; lia|done]).
    apply choice_turn_session in Hturn
      as [Hs|(items' & tx & img & Hit & [(_ & Hs)|(c' & _ & Hs)])].
    + right. exists story_cycle, wb, items, c0. rewrite Hs.
      split; [done|]. split; [done|]. split; [done|]. right. by right.
    + rewrite Hf3 in Hit. injection Hit as <-.
      right. exists story_cycle, wb, (items ++ [chapter tx img]), c0.
      rewrite Hs. split; [by repeat split; simplify_map_eq|].
      split; [apply Forall_app; split; [done|]; repeat constructor;
              apply is_chapter_chapter|].
      split; [by apply opened_snoc|]. right. right.
      split; [done|]. rewrite length_app. lia.
    + rewrite Hf3 in Hit. injection Hit as <-.
      right. exists story_cycle, wb, (items ++ [chapter tx img]), c'.
      rewrite Hs. split; [by repeat split; simplify_map_eq|].
      split; [apply Forall_app; split; [done|]; repeat constructor;
              apply is_chapter_chapter|].
      split; [by apply opened_snoc|]. right. right.
      split; [done|]. rewrite length_app. lia.
Qed.

(** X19 (reachable sessions are well formed). Every session reached from a
    fresh one by runs of the script is empty or holds the four fields with a
    stage among the three; the transcript is a list of dicts with the keys
    [text] and [image] that is empty or starts with the opening sentence; in
    [world_forge] the bible is unset and the transcript and the choices are
    empty; in [story_start] the choices are empty; in [story_cycle] the
    transcript holds at least two chapters. *)
Theorem reachable_session_ok w g : reachable w g -> session_ok (session w).
Proof.
  induction 1 as [bc cc ic|w g e ev r w' t _ IH Hrun]; [by left|].
  by eapply run_keeps_session_ok.
Qed.

(** ** The page of the story cycle *)

Lemma subscript_chapter_text tx img : subscript (chapter tx img) k_text = inr tx.
Proof. reflexivity. Qed.

Lemma subscript_chapter_image tx img : subscript (chapter tx img) k_image = inr img.
Proof. reflexivity. Qed.

Lemma render_chapter_eq tx img w :
  render_chapter (chapter tx img) w =
    (Ret tt, w, Ui <$> ((if truthy img then [StImage img] else []) ++ [StMarkdown tx])).
Proof.
  unfold render_chapter, mbind, M_bind.
  rewrite subscript_chapter_image, subscript_chapter_text. cbn.
  by destruct (truthy img).
Qed.

Lemma render_eq l w :
  for_each (transcript l) render_chapter w = (Ret tt, w, Ui <$> page_of l).
Proof.
  induction l as [|[tx img] l IH]; [done|].
  cbn [transcript fmap list_fmap for_each]. unfold mbind at 1, M_bind at 1.
  rewrite render_chapter_eq. fold (transcript l). rewrite IH.
  unfold page_of. cbn [fmap list_fmap concat]. by rewrite !fmap_app.
Qed.

Lemma map_m_text l :
  map_m (fun ch => subscript ch k_text) (transcript l) = inr (l.*1).
Proof.
  induction l as [|[tx img] l IH]; [done|].
  cbn [transcript fmap list_fmap map_m]. rewrite subscript_chapter_text.
  fold (transcript l). by rewrite IH.
Qed.

Lemma joined_story_eq w l :
  chapters_of w = Some (PList (transcript l)) ->
  joined_story w =
    (match all_str (l.*1) with
     | Some texts => Ret (PStr (str_join space texts))
     | None => Throw (Raise TypeError)
     end, w, []).
Proof.
  intros Hch. unfold joined_story, get_attr, mbind, M_bind.
  unfold chapters_of in Hch. rewrite Hch. cbn. rewrite map_m_text. cbn.
  unfold py_join. by destruct (all_str (l.*1)).
Qed.

(** X17 (a chapter whose text is not a str). In [story_cycle], once the
    transcript holds a chapter whose text is not a str, every run draws the
    chapters and then raises [TypeError] at the join of line 243 with the
    world unchanged, whatever the event: the restart button is never
    reached. *)
Theorem non_text_chapter_blocks_every_run e ev w l :
  key_set (GOOGLE_API_KEY (load_api_keys e)) = true ->
  stage_of w = Some (PStr story_cycle) ->
  chapters_of w = Some (PList (transcript l)) ->
  all_str (l.*1) = None ->
  script e ev w =
    (Throw (Raise TypeError), w, Ui <$> (startup_elements e ++ page_of l)).
Proof.
  intros Hk Hst Hch Hstr. rewrite script_story_cycle_eq by done.
  unfold story_cycle_stage. unfold mbind at 1, M_bind at 1.
  unfold mbind at 1, M_bind at 1. unfold get_attr at 1.
  pose proof Hch as Hch'. unfold chapters_of in Hch'. rewrite Hch'.
  unfold mbind at 1, M_bind at 1. cbn [lift py_iter mret M_ret].
  unfold mbind at 1, M_bind at 1. rewrite render_eq.
  assert (truthy (PList (transcript l)) = true) as ->.
  { destruct l; [done|]. done. }
  unfold mbind at 1, M_bind at 1. unfold mbind at 1, M_bind at 1.
  rewrite (joined_story_eq w l Hch), Hstr. cbn. by rewrite !app_nil_r, fmap_app.
Qed.

Lemma story_cycle_head_eq keys e ev w l texts (k : M unit) :
  chapters_of w = Some (PList (transcript l)) -> l <> [] ->
  all_str (l.*1) = Some texts ->
  (chapters ← get_attr "story_chapters";
   items ← lift (py_iter chapters);
   for_each items render_chapter;;
   (if truthy chapters then
      full_story_text ← joined_story;
      match ev with
      | ClickNarrate => generate_and_play_audio keys e full_story_text
      | _ => pass
      end
    else pass);; k) w =
  let '(r, w', t) := k w in
  (r, w', (Ui <$> (page_of l
                     ++ narrate_elements keys e ev (PStr (str_join space texts)))) ++ t).
Proof.
  intros Hch Hne Hstr.
  unfold mbind at 1, M_bind at 1. unfold get_attr at 1.
  pose proof Hch as Hch'. unfold chapters_of in Hch'. rewrite Hch'.
  unfold mbind at 1, M_bind at 1. cbn [lift py_iter mret M_ret].
  unfold mbind at 1, M_bind at 1. rewrite render_eq.
  assert (truthy (PList (transcript l)) = true) as -> by (by destruct l).
  unfold mbind at 1, M_bind at 1. unfold mbind at 1, M_bind at 1.
  rewrite (joined_story_eq w l Hch), Hstr.
  assert (match ev with
          | ClickNarrate => generate_and_play_audio keys e (PStr (str_join space texts))
          | _ => pass
          end w = (Ret tt, w, Ui <$> narrate_elements keys e ev (PStr (str_join space texts))))
    as ->.
  { destruct ev; try done. apply audio_eq. }
  destruct (k w) as [[r w'] t]. cbn. by rewrite !fmap_app, <- !app_assoc.
Qed.

Lemma story_cycle_stage_eq keys e ev w l texts latest :
  chapters_of w = Some (PList (transcript l)) -> l <> [] ->
  all_str (l.*1) = Some texts ->
  choices_of w = Some latest ->
  story_cycle_stage keys e ev w =
    let pre := Ui <$> (page_of l
                         ++ narrate_elements keys e ev (PStr (str_join space texts))) in
    if truthy latest then
      match radio_options latest with
      | inl x => (Throw (Raise x), w, pre)
      | inr options =>
          let c := selected options ev in
          match ev with
          | SubmitChoice _ =>
              let '(r, w', t) := choice_turn keys e c (with_radio c w) in
              (r, w', pre ++ t)
          | _ => (Ret tt, with_radio c w, pre)
          end
      end
    else (Ret tt, w, pre).
Proof.
  intros Hch Hne Hstr Hl. unfold story_cycle_stage.
  rewrite (story_cycle_head_eq _ _ _ _ l texts) by done.
  unfold has_attr, get_attr, mbind, M_bind. unfold choices_of in Hl. rewrite Hl.
  rewrite bool_decide_eq_true_2 by done. cbn. rewrite Hl. cbn.
  destruct (truthy latest); [|unfold pass; cbn; by rewrite !app_nil_r].
  destruct (radio_options latest) as [x|options]; cbn; [by rewrite !app_nil_r|].
  destruct ev; unfold pass; cbn; try by rewrite !app_nil_r.
  unfold with_radio. by destruct (choice_turn _ _ _ _) as [[r w'] t].
Qed.

(** X15 (Narrate Full Saga). In [story_cycle], with a transcript of
    str texts, the narrate button draws the chapters and then narrates the
    texts joined by single spaces: a missing ElevenLabs key draws a warning,
    a failing speech service draws an error, and in every case the run ends
    normally with the saga and the caches unchanged. *)
Theorem narrate_full_saga e w l texts latest options :
  key_set (GOOGLE_API_KEY (load_api_keys e)) = true ->
  stage_of w = Some (PStr story_cycle) ->
  chapters_of w = Some (PList (transcript l)) -> l <> [] ->
  all_str (l.*1) = Some texts ->
  choices_of w = Some latest -> radio_options latest = inr options ->
  let '(r, w', t) := script e ClickNarrate w in
  r = Ret tt /\ same_saga (session w) (session w') /\ same_caches w w' /\
  t = Ui <$> (startup_elements e ++ page_of l
                ++ narration_elements (load_api_keys e) e
                     (PStr (str_join space texts))).
Proof.
  intros Hk Hst Hch Hne Hstr Hl Hit. rewrite script_story_cycle_eq by done.
  unfold mbind, M_bind.
  rewrite (story_cycle_stage_eq _ _ _ _ l texts latest) by done.
  cbn zeta. rewrite Hit.
  destruct (truthy latest); cbn; rewrite !app_nil_r, !fmap_app;
    (split; [done|]); (split; [|done]);
    [apply same_saga_radio|apply same_saga_refl].
Qed.

(** X16 (no pending choice). In [story_cycle] with falsy pending choices the
    choice form is not drawn: every run but a restart, a submitted choice
    included, ends normally with the world unchanged. *)
Theorem no_pending_choice_is_a_dead_end e ev w l texts latest :
  key_set (GOOGLE_API_KEY (load_api_keys e)) = true ->
  stage_of w = Some (PStr story_cycle) ->
  chapters_of w = Some (PList (transcript l)) -> l <> [] ->
  all_str (l.*1) = Some texts ->
  choices_of w = Some latest -> truthy latest = false ->
  ev <> ClickRestart ->
  script e ev w =
    (Ret tt, w,
     Ui <$> (startup_elements e ++ page_of l
               ++ narrate_elements (load_api_keys e) e ev
                    (PStr (str_join space texts)))).
Proof.
  intros Hk Hst Hch Hne Hstr Hl Htr Hev. rewrite script_story_cycle_eq by done.
  unfold mbind, M_bind.
  rewrite (story_cycle_stage_eq _ _ _ _ l texts latest) by done.
  cbn zeta. rewrite Htr, restart_button_eq.
  destruct ev; try done; cbn; by rewrite ?app_nil_r, !fmap_app.
Qed.

(** ** Replies a turn does not expect, and the transcript *)

(** X6 (a response without text). When the response of [generate_content]
    has no text, on a call that is not served from the cache, reading
    [response.text] raises in the [try] block and again in the handler, after
    the error was drawn: [ValueError] leaves [generate_story_chapter], and
    nothing is cached. *)
Theorem reply_without_text_escapes e c b uc w :
  cache_get uc (chapter_cache w) = None ->
  generate_content e (Prompt uc c b) = GenNoText ->
  generate_story_chapter e c b uc w =
    (Throw (Raise ValueError), w,
     [CallChapter c b uc; Generate (Prompt uc c b) GenNoText;
      Ui (StError (ErrorProcessingAI ValueError))]).
Proof.
  intros Hc Hg. unfold generate_story_chapter, st_cache_data, mbind, M_bind, note.
  cbn. rewrite Hc, chapter_body_eq. cbn zeta. by rewrite Hg.
Qed.

(** X18 (the transcript only grows). A run from an initialised session
    either empties the session (restart) or leaves a transcript that extends
    the old one by at most two chapter dicts; it grows only on a submitted
    start or choice form. *)
Theorem transcript_is_append_only e ev w r w' t items :
  is_Some (stage_of w) ->
  chapters_of w = Some (PList items) ->
  script e ev w = (r, w', t) ->
  session w' = ∅ \/
  exists extra,
    chapters_of w' = Some (PList (items ++ extra)) /\
    Forall is_chapter extra /\ (length extra <= 2)%nat /\
    (extra = [] \/ (exists i, ev = SubmitChoice i) \/ exists ip, ev = SubmitStart ip).
Proof.
  intros [st Hst] Hch Hrun. pose proof (after_init_set _ _ Hst) as Hi.
  assert (Hkeep : forall s : gmap string pyval, s !! "story_chapters" = session w !! "story_chapters" ->
            exists extra,
              s !! "story_chapters" = Some (PList (items ++ extra)) /\
              Forall is_chapter extra /\ (length extra <= 2)%nat /\
              (extra = [] \/ (exists i, ev = SubmitChoice i) \/ exists ip, ev = SubmitStart ip)).
  { intros s ->. exists []. rewrite app_nil_r. split; [done|].
    split; [constructor|]. split; [cbn; lia|by left]. }
  apply script_inv in Hrun.
  destruct Hrun as [_ _ -> _|_ _ Hs _|_ _ Hsame|th ar co wb' _ _ _ _ Hs
                   |ip t0 tt -> _ _ _ Hturn|i c wc t0 tt -> _ Hsame _ _ _ Hturn].
  - right. by apply Hkeep.
  - by left.
  - right. apply Hkeep. rewrite Hi in Hsame. by destruct Hsame as (_ & _ & -> & _).
  - right. apply Hkeep. rewrite Hs, Hi. by rewrite !lookup_insert_ne.
  - right. unfold chapters_of in *.
    apply start_story_turn_session in Hturn
      as [Hs|(items' & Hit & [(_ & Hs)|(tx & img & [(_ & Hs)|(c' & _ & Hs)])])].
    + apply Hkeep. by rewrite Hs.
    + rewrite Hch in Hit. injection Hit as <-. rewrite Hs.
      exists [chapter (PStr ip) PNone]. split; [by simplify_map_eq|].
      split; [repeat constructor; apply is_chapter_chapter|].
      split; [cbn; lia|]. right. right. by exists ip.
    + rewrite Hch in Hit. injection Hit as <-. rewrite Hs.
      exists [chapter (PStr ip) PNone; chapter tx img].
      split; [simplify_map_eq; by rewrite <- app_assoc|].
      split; [repeat constructor; apply is_chapter_chapter|].
      split; [cbn; lia|]. right. right. by exists ip.
    + rewrite Hch in Hit. injection Hit as <-. rewrite Hs.
      exists [chapter (PStr ip) PNone; chapter tx img].
      split; [simplify_map_eq; by rewrite <- app_assoc|].
      split; [repeat constructor; apply is_chapter_chapter|].
      split; [cbn; lia|]. right. right. by exists ip.
  - right. unfold chapters_of in *. destruct Hsame as (_ & _ & Hsc & _).
    apply choice_turn_session in Hturn
      as [Hs|(items' & tx & img & Hit & [(_ & Hs)|(c' & _ & Hs)])].
    + apply Hkeep. by rewrite Hs.
    + rewrite Hsc, Hch in Hit. injection Hit as <-. rewrite Hs.
      exists [chapter tx img]. split; [by simplify_map_eq|].
      split; [repeat constructor; apply is_chapter_chapter|].
      split; [cbn; lia|]. right. left. by exists i.
    + rewrite Hsc, Hch in Hit. injection Hit as <-. rewrite Hs.
      exists [chapter tx img]. split; [by simplify_map_eq|].
      split; [repeat constructor; apply is_chapter_chapter|].
      split; [cbn; lia|]. right. left. by exists i.
Qed.

Lemma bind_ret_eq {A B} (m : M A) (f : A -> M B) w a w1 t1 :
  m w = (Ret a, w1, t1) ->
  (m ≫= f) w = let '(r, w2, t2) := f a w1 in (r, w2, t1 ++ t2).
Proof. intros H. unfold mbind, M_bind. by rewrite H. Qed.

Lemma bind_throw_eq {A B} (m : M A) (f : A -> M B) w s w1 t1 :
  m w = (Throw s, w1, t1) -> (m ≫= f) w = (Throw s, w1, t1).
Proof. intros H. unfold mbind, M_bind. by rewrite H. Qed.

Lemma chapter_fresh_eq e c b uc w text ai :
  cache_get uc (chapter_cache w) = None ->
  generate_content e (Prompt uc c b) = GenReply text ->
  parse_reply text = Some ai ->
  generate_story_chapter e c b uc w =
    (Ret ai, put_cache FnStoryChapter uc (ai, []) w,
     [CallChapter c b uc; Generate (Prompt uc c b) (GenReply text); ReturnChapter ai]).
Proof.
  intros Hc Hg Hp. unfold generate_story_chapter, st_cache_data, mbind, M_bind, note.
  cbn. rewrite Hc, chapter_body_eq. cbn zeta. rewrite Hg. cbn. by rewrite Hp.
Qed.

Lemma append_attr_eq name v w items :
  session w !! name = Some (PList items) ->
  append_attr name (inr v) w =
    (Ret tt, with_session (insert name (PList (items ++ [v]))) w, []).
Proof. intros H. unfold append_attr, get_attr, mbind, M_bind. by rewrite H. Qed.

(** X9 (a reply without [next_choices] is half committed). When the reply
    of the opening turn is a truthy value with [image_prompt] and
    [narrative_chapter] whose subscript [next_choices] raises, and the image
    call returns, the run ends in that exception after both chapters were
    appended to the transcript; the pending choices and the stage are
    unchanged. *)
Theorem missing_choices_half_commit e ip w wb items text ai p tx x img w2 ti :
  key_set (GOOGLE_API_KEY (load_api_keys e)) = true ->
  stage_of w = Some (PStr story_start) -> ip <> [] ->
  session w !! "world_bible" = Some wb ->
  chapters_of w = Some (PList items) ->
  cache_get (PStr ip) (chapter_cache w) = None ->
  generate_content e (Prompt (PStr ip) (PStr ip) wb) = GenReply text ->
  parse_reply text = Some ai -> truthy ai = true ->
  subscript ai k_image_prompt = inr p ->
  subscript ai k_narrative_chapter = inr tx ->
  subscript ai k_next_choices = inl x ->
  generate_image_stability (load_api_keys e) e p
    (put_cache FnStoryChapter (PStr ip) (ai, []) w) = (Ret img, w2, ti) ->
  let '(r, w', _) := script e (SubmitStart ip) w in
  r = Throw (Raise x) /\
  chapters_of w' = Some (PList (items ++ [chapter (PStr ip) PNone; chapter tx img])) /\
  choices_of w' = choices_of w /\ stage_of w' = stage_of w.
Proof.
  intros Hk Hs Hip Hwb Hch Hc Hg Hp Hai Hpr Htx Hnc Himg.
  rewrite script_story_start_eq by done. unfold story_start_stage.
  assert (truthy (PStr ip) = true) as -> by (by destruct ip).
  apply image_inv in Himg as Hs2. destruct Hs2 as (Hs2 & _). cbn in Hs2.
  assert (Hturn : start_story_turn (load_api_keys e) e ip w =
            (Throw (Raise x),
             with_session
               (insert "story_chapters"
                  (PList ((items ++ [chapter (PStr ip) PNone]) ++ [chapter tx img])))
               (with_session
                  (insert "story_chapters" (PList (items ++ [chapter (PStr ip) PNone])))
                  w2),
             [CallChapter (PStr ip) wb (PStr ip);
              Generate (Prompt (PStr ip) (PStr ip) wb) (GenReply text);
              ReturnChapter ai] ++ ti)).
  { unfold start_story_turn.
    rewrite (bind_ret_eq _ _ w wb w []) by (unfold get_attr; by rewrite Hwb).
    rewrite (bind_ret_eq _ _ w _ _ _ (chapter_fresh_eq _ _ _ _ _ _ _ Hc Hg Hp)).
    rewrite Hai.
    rewrite (bind_ret_eq _ _ _ p _ []) by (by rewrite Hpr).
    rewrite (bind_ret_eq _ _ _ _ _ _ Himg).
    assert (Hch2 : session w2 !! "story_chapters" = Some (PList items))
      by (unfold chapters_of in Hch; by rewrite Hs2).
    rewrite (bind_ret_eq _ _ _ _ _ _ (append_attr_eq _ _ w2 items Hch2)).
    rewrite Htx. cbn [chapter_of].
    assert (Hch3 : session (with_session
                     (insert "story_chapters"
                        (PList (items ++ [chapter (PStr ip) PNone]))) w2)
                     !! "story_chapters"
                   = Some (PList (items ++ [chapter (PStr ip) PNone])))
      by (cbn; by rewrite lookup_insert_eq).
    rewrite (bind_ret_eq _ _ _ _ _ _ (append_attr_eq _ _ _ _ Hch3)).
    erewrite bind_throw_eq; [|rewrite Hnc; reflexivity].
    cbn. by rewrite !app_nil_r. }
  rewrite (bind_throw_eq _ _ _ _ _ _ Hturn).
  unfold chapters_of, choices_of, stage_of. cbn.
  rewrite lookup_insert_eq, !lookup_insert_ne by done. rewrite Hs2.
  split; [done|]. split; [by rewrite <- app_assoc|]. done.
Qed.

(** ** The further properties on a saga *)

Lemma keys_are_found_per_key_witness :
  GOOGLE_API_KEY (load_api_keys e_partial_secrets) = Some (lit "key") /\
  STABILITY_API_KEY (load_api_keys e_partial_secrets) = None /\
  exists t,
    configure e_partial_secrets w_fresh
      = (Ret (load_api_keys e_partial_secrets), w_fresh, t).
Proof.
  assert (H : partial_secrets !! "GOOGLE_API_KEY" = Some (lit "key"))
    by (vm_compute; reflexivity).
  assert (Hne : lit "key" <> []) by discriminate.
  destruct (proj2 (keys_are_found_per_key e_partial_secrets) partial_secrets
              (lit "key") eq_refl H Hne) as [H1 H2].
  split; [exact H1|]. split; [vm_compute; reflexivity|]. apply H2.
Defined.

(** The same secrets file, with nothing in the environment: the run goes
    through. *)
Example secrets_with_the_google_key_only :
  (script e_partial_secrets NoEvent w_fresh).1.1 = Ret tt /\
  session (script e_partial_secrets NoEvent w_fresh).1.2 = initial_session.
Proof. vm_compute. split; reflexivity. Qed.

Lemma world_forge_submit_witness :
  let '(r, w', t) := script e_ok forge w_forge in
  r = Throw Rerun /\
  session w' = <["app_stage" := PStr story_start]>
                 (<["world_bible" := PStr (lit "bible")]> (session (after_init w_forge))) /\
  elements_of t = [].
Proof.
  assert (H1 : key_set (GOOGLE_API_KEY (load_api_keys e_ok)) = true)
    by (vm_compute; reflexivity).
  assert (H2 : stage_of (after_init w_forge) = Some (PStr world_forge))
    by (vm_compute; reflexivity).
  pose proof (world_forge_submit e_ok (lit "Revenge") (lit "The Outcast") (lit "x")
                w_forge H1 H2) as H.
  cbv zeta in H. change (SubmitWorldForge _ _ _) with forge in H.
  destruct (script e_ok forge w_forge) as [[r w'] t].
  assert (Hc : cache_get (bible_key (lit "Revenge") (lit "The Outcast") (lit "x"))
                 (bible_cache w_forge) = None) by (vm_compute; reflexivity).
  rewrite Hc in H. cbn in H. destruct H as ((? & ?) & _ & ?). auto.
Defined.

Lemma image_outcomes_witness :
  let '(r, w', t) := image_rejected in
  session w' = session w_saga /\
  match r with
  | Ret v =>
      (v = PNone \/ exists b64, v = PImage b64) /\
      cache_get (PStr (lit "p2")) (image_cache w') = Some (v, elements_of t)
  | Throw s =>
      exists status body,
        image_try e_rejected (PStr (lit "p2")) = inl (HTTPError status body) /\
        Json.loads body = None /\ s = Raise JSONDecodeError /\
        key_set (STABILITY_API_KEY (load_api_keys e_rejected)) = true /\
        w' = w_saga /\ elements_of t = [StError (StabilityHTTPError status)]
  end.
Proof.
  apply (image_outcomes (load_api_keys e_rejected) e_rejected (PStr (lit "p2")) w_saga).
  vm_compute. reflexivity.
Defined.

Lemma image_result_remembered_witness :
  image_rejected.1.1 = Ret PNone /\
  exists els,
    generate_image_stability (load_api_keys e_ok) e_ok (PStr (lit "p2")) image_rejected.1.2
      = (Ret PNone, image_rejected.1.2, Ui <$> els) /\
    (cache_get (PStr (lit "p2")) (image_cache w_saga) = None ->
     els = elements_of image_rejected.2).
Proof.
  assert (H1 : image_rejected = (Ret PNone, image_rejected.1.2, image_rejected.2))
    by (vm_compute; reflexivity).
  split; [vm_compute; reflexivity|].
  exact (image_result_remembered _ _ _ w_saga _ _ _ H1
           (load_api_keys e_ok) e_ok image_rejected.1.2 eq_refl).
Defined.

Lemma parse_failure_remembered_witness :
  let '(_, w1, _) :=
    generate_story_chapter e_garbled (PStr (lit "Once n1")) (PStr (lit "bible"))
      (PStr [98]) w_saga in
  generate_story_chapter e_next (PStr (lit "another story")) PNone (PStr [98]) w1 =
    (Ret PNone, w1,
     [CallChapter (PStr (lit "another story")) PNone (PStr [98]);
      Ui (StError (ErrorProcessingAI JSONDecodeError));
      Ui (StCode (lit "Sorry, no.")); ReturnChapter PNone]).
Proof.
  assert (H1 : cache_get (PStr [98]) (chapter_cache w_saga) = None)
    by (vm_compute; reflexivity).
  assert (H2 : parse_reply (lit "Sorry, no.") = None) by (vm_compute; reflexivity).
  pose proof (parse_failure_remembered e_garbled (PStr (lit "Once n1"))
                (PStr (lit "bible")) (PStr [98]) w_saga (lit "Sorry, no.")
                H1 eq_refl H2) as H.
  destruct (generate_story_chapter e_garbled _ _ _ _) as [[r w1] t]. apply H.
Defined.

Lemma reply_without_text_escapes_witness :
  generate_story_chapter e_blocked (PStr (lit "Once n1")) (PStr (lit "bible"))
    (PStr [98]) w_saga =
    (Throw (Raise ValueError), w_saga,
     [CallChapter (PStr (lit "Once n1")) (PStr (lit "bible")) (PStr [98]);
      Generate (Prompt (PStr [98]) (PStr (lit "Once n1")) (PStr (lit "bible"))) GenNoText;
      Ui (StError (ErrorProcessingAI ValueError))]).
Proof.
  apply reply_without_text_escapes; [vm_compute; reflexivity|reflexivity].
Defined.

Lemma empty_opening_is_ignored_witness :
  script e_ok (SubmitStart []) w_start = (Ret tt, w_start, Ui <$> startup_elements e_ok).
Proof. apply empty_opening_is_ignored; vm_compute; reflexivity. Defined.

Lemma falsy_reply_is_dropped_witness :
  let '(r, w', t) := script e_null (SubmitStart opening) w_start in
  r = Ret tt /\ session w' = session w_start /\
  elements_of t = startup_elements e_null /\
  cache_get (PStr opening) (chapter_cache w') = Some (PNone, []).
Proof.
  apply (falsy_reply_is_dropped e_null opening w_start (PStr (lit "bible")) (lit "null"));
    try (vm_compute; reflexivity). discriminate.
Defined.

Lemma missing_choices_half_commit_witness :
  let '(r, w', _) := script e_half (SubmitStart opening) w_start in
  r = Throw (Raise (KeyError (PStr k_next_choices))) /\
  chapters_of w' =
    Some (PList ([] ++ [chapter (PStr opening) PNone;
                        chapter (PStr (lit "n1")) (PImage (lit "QUJD"))])) /\
  choices_of w' = choices_of w_start /\ stage_of w' = stage_of w_start.
Proof.
  apply (missing_choices_half_commit e_half opening w_start (PStr (lit "bible")) []
           reply_half turn_half (PStr (lit "p1")) (PStr (lit "n1"))
           (KeyError (PStr k_next_choices)) (PImage (lit "QUJD"))
           image_half.1.2 image_half.2);
    try (vm_compute; reflexivity). discriminate.
Defined.

Lemma opening_turn_commit_witness :
  stage_of w_start = Some (PStr story_start) /\
  exists ai tx c img items,
    returns (script e_ok (SubmitStart opening) w_start).2 = [ai] /\ truthy ai = true /\
    subscript ai k_narrative_chapter = inr tx /\
    subscript ai k_next_choices = inr c /\
    chapters_of w_start = Some (PList items) /\
    chapters_of w_saga =
      Some (PList (items ++ [chapter (PStr opening) PNone; chapter tx img])) /\
    choices_of w_saga = Some c /\ stage_of w_saga = Some (PStr story_cycle).
Proof.
  apply (opening_turn_commit e_ok opening w_start w_saga). vm_compute. reflexivity.
Defined.

Lemma choice_turn_commit_witness :
  stage_of w_saga = Some (PStr story_cycle) /\
  exists ai tx c img items,
    returns (script e_next (SubmitChoice 1) w_saga).2 = [ai] /\ truthy ai = true /\
    subscript ai k_narrative_chapter = inr tx /\
    subscript ai k_next_choices = inr c /\
    chapters_of w_saga = Some (PList items) /\
    chapters_of (after e_next (SubmitChoice 1) w_saga)
      = Some (PList (items ++ [chapter tx img])) /\
    choices_of (after e_next (SubmitChoice 1) w_saga) = Some c /\
    stage_of (after e_next (SubmitChoice 1) w_saga) = Some (PStr story_cycle).
Proof.
  apply (choice_turn_commit e_next 1 w_saga). vm_compute. reflexivity.
Defined.

Lemma choice_passed_is_pending_witness :
  calls (script e_next (SubmitChoice 1) w_saga).2
    = [(PStr (lit "Once n1"), PStr (lit "bible"), PStr [98])] /\
  session w_saga !! "world_bible" = Some (PStr (lit "bible")) /\
  exists latest options,
    choices_of w_saga = Some latest /\ radio_options latest = inr options /\
    PStr [98] ∈ options.
Proof.
  eapply (choice_passed_is_pending e_next (SubmitChoice 1) w_saga _ _ _
           (PStr (lit "Once n1")) (PStr (lit "bible")) (PStr [98]));
    [vm_compute; reflexivity|apply script_out|vm_compute; constructor].
Defined.

Lemma passive_runs_change_nothing_witness :
  calls (script e_ok ClickNarrate w_saga).2 = [] /\
  generations (script e_ok ClickNarrate w_saga).2 = [] /\
  same_caches w_saga (after e_ok ClickNarrate w_saga) /\
  (after e_ok ClickNarrate w_saga = w_saga \/
   same_saga (session (after_init w_saga)) (session (after e_ok ClickNarrate w_saga))) /\
  ((script e_ok ClickNarrate w_saga).1.1 = Ret tt \/
   (script e_ok ClickNarrate w_saga).1.1 = Throw Stop \/
   exists x, (script e_ok ClickNarrate w_saga).1.1 = Throw (Raise x) /\
             stage_of w_saga = Some (PStr story_cycle)).
Proof.
  apply (passive_runs_change_nothing e_ok ClickNarrate w_saga);
    [by right|apply script_out].
Defined.

Lemma restart_run_outcomes_witness :
  calls (script e_ok ClickRestart w_saga).2 = [] /\
  same_caches w_saga (after e_ok ClickRestart w_saga) /\
  (((script e_ok ClickRestart w_saga).1.1 = Throw Rerun /\
    session (after e_ok ClickRestart w_saga) = ∅) \/
   ((script e_ok ClickRestart w_saga).1.1 = Throw Stop /\
    after e_ok ClickRestart w_saga = w_saga /\
    key_set (GOOGLE_API_KEY (load_api_keys e_ok)) = false) \/
   (exists x, (script e_ok ClickRestart w_saga).1.1 = Throw (Raise x) /\
              stage_of w_saga = Some (PStr story_cycle))).
Proof. apply (restart_run_outcomes e_ok w_saga), script_out. Defined.

Lemma narrate_full_saga_witness :
  let '(r, w', t) := script e_ok ClickNarrate w_saga in
  r = Ret tt /\ same_saga (session w_saga) (session w') /\ same_caches w_saga w' /\
  t = Ui <$> (startup_elements e_ok ++ page_of saga_chapters
                ++ narration_elements (load_api_keys e_ok) e_ok
                     (PStr (str_join space [opening; lit "n1"]))).
Proof.
  apply (narrate_full_saga e_ok w_saga saga_chapters [opening; lit "n1"] (PList abc) abc);
    try (vm_compute; reflexivity). discriminate.
Defined.

Lemma no_pending_choice_is_a_dead_end_witness :
  script e_next (SubmitChoice 0) w_dead_end =
    (Ret tt, w_dead_end,
     Ui <$> (startup_elements e_next ++ page_of saga_chapters
               ++ narrate_elements (load_api_keys e_next) e_next (SubmitChoice 0)
                    (PStr (str_join space [opening; lit "n1"])))).
Proof.
  apply (no_pending_choice_is_a_dead_end e_next (SubmitChoice 0) w_dead_end
           saga_chapters [opening; lit "n1"] (PList []));
    try (vm_compute; reflexivity); discriminate.
Defined.

Lemma non_text_chapter_blocks_every_run_witness :
  script e_ok ClickRestart w_stuck =
    (Throw (Raise TypeError), w_stuck,
     Ui <$> (startup_elements e_ok ++ page_of stuck_chapters)).
Proof.
  apply non_text_chapter_blocks_every_run; vm_compute; reflexivity.
Defined.

Lemma transcript_is_append_only_witness :
  session (after e_next (SubmitChoice 1) w_saga) = ∅ \/
  exists extra,
    chapters_of (after e_next (SubmitChoice 1) w_saga)
      = Some (PList (transcript saga_chapters ++ extra)) /\
    Forall is_chapter extra /\ (length extra <= 2)%nat /\
    (extra = [] \/ (exists i, SubmitChoice 1 = SubmitChoice i) \/
     exists ip, SubmitChoice 1 = SubmitStart ip).
Proof.
  eapply (transcript_is_append_only e_next (SubmitChoice 1) w_saga _ _ _
           (transcript saga_chapters));
    [by eexists|vm_compute; reflexivity|apply script_out].
Defined.

Lemma reachable_session_ok_witness : session_ok (session w_saga).
Proof. exact (reachable_session_ok _ _ reachable_saga). Defined.

(** Pending choices that are a str or a number are one option of the radio:
    the whole str, or the number, is the user choice passed on. *)
Example scalar_choices_are_one_option :
  choices_of w_word = Some (PStr (lit "xyz")) /\
  calls (script e_next (SubmitChoice 0) w_word).2
    = [(PStr (lit "Once n1"), PStr (lit "bible"), PStr (lit "xyz"))] /\
  choices_of w_five = Some (PInt 5) /\
  calls (script e_next (SubmitChoice 0) w_five).2
    = [(PStr (lit "Once n1"), PStr (lit "bible"), PInt 5)].
Proof. vm_compute. repeat split. Qed.
